(** * mlmd_bench thread runner: a small-step model of [thread_runner.cc]

    The engine of [ml_metadata/tools/mlmd_bench/thread_runner.cc] runs every
    workload of a benchmark on a pool of [num_threads_] worker threads.  The
    main thread and the workers are modelled as one transition system: a
    schedule (a list of thread identifiers) picks which thread performs its
    next atomic action.  Every access to memory shared between threads (the
    backing store behind [RunOp], the counter [approx_total_done] and the slot
    [curr_status]) is an action of its own, so that all interleavings of the
    C++ program are schedules of the model; a single read or write of a
    memory location is taken to be atomic.  In particular the increment
    [approx_total_done++] of a plain [int64] is a read followed by a write,
    and [~ThreadPool] lets the main thread go on only when every scheduled
    closure has run to its end.

    Every action that calls a collaborator or touches shared data is logged
    in a trace, so that orderings and counts can be stated on the trace.

    The [int64] values of the program are modelled in [Z]: the cursor of a
    worker stays within the declared number of operations (see
    [indices_fit_int64]).  What C++ leaves undefined ([num_threads_ <= 0],
    a report with no entry for a workload) stops the model.

    Definitions come first: the source function by function, the
    observations on traces, the invariant, a scripted instance to run the
    model on.  The facts and the proofs follow. *)

From Stdlib Require Import ZArith Lia String.
From stdpp Require Import base tactics option list.

Local Open Scope Z_scope.

(** ** tensorflow::Status *)

(** [tensorflow::error::Code]. *)
Inductive Code :=
| OK | CANCELLED | UNKNOWN | INVALID_ARGUMENT | DEADLINE_EXCEEDED | NOT_FOUND
| ALREADY_EXISTS | PERMISSION_DENIED | RESOURCE_EXHAUSTED | FAILED_PRECONDITION
| ABORTED | OUT_OF_RANGE | UNIMPLEMENTED | INTERNAL | UNAVAILABLE | DATA_LOSS
| UNAUTHENTICATED.

Record Status := { code : Code; error_message : string }.

(** [tensorflow::Status::OK()]. *)
Definition Status_OK : Status := {| code := OK; error_message := EmptyString |}.

(** [status.ok()]. *)
Definition ok (st : Status) : bool :=
  match code st with OK => true | _ => false end.

(** [status.code() != tensorflow::error::ABORTED]. *)
Definition not_aborted (st : Status) : bool :=
  match code st with ABORTED => false | _ => true end.

(** [Status::Update]: keeps the first error. *)
Definition Status_Update (self new_status : Status) : Status :=
  if ok self then new_status else self.

(** ** External collaborators

    Everything the engine calls but does not define.  [World] is the state
    behind the calls: the backing store and the private state of the
    workloads.  A call is a function of the world it runs in. *)
Class Collaborators := {
  World : Type;
  ConnectionConfig : Type;
  MetadataStore : Type;
  OpStats : Type;
  ThreadStats : Type;
  double : Type;
  (** [CreateMetadataStore(mlmd_config, &store)]; the [unique_ptr] stays
      null ([None]) unless the call fills it. *)
  CreateMetadataStore :
    ConnectionConfig -> World -> World * Status * option MetadataStore;
  (** A default-constructed [ThreadStats]. *)
  ThreadStats_new : ThreadStats;
  (** [Start()] and [Stop()] read the clock, which is part of the world. *)
  Start : World -> ThreadStats -> ThreadStats;
  Stop : World -> ThreadStats -> ThreadStats;
  Update : OpStats -> Z -> ThreadStats -> ThreadStats;
  (** [a.Merge(b)] as the new value of [a]. *)
  Merge : ThreadStats -> ThreadStats -> ThreadStats;
  Report : string -> ThreadStats -> double * double
}.

Section Engine.
Context `{Collaborators}.

(** [WorkloadBase]: the virtual interface of a workload. *)
Record WorkloadBase := {
  SetUp : option MetadataStore -> World -> World * Status;
  RunOp : Z -> option MetadataStore -> World -> World * Status * OpStats;
  TearDown : World -> World * Status;
  GetName : string;
  num_operations : Z
}.

(** [Benchmark]: [workload(i)] and [num_workloads()]. *)
Definition Benchmark := list WorkloadBase.

(** One entry of [MLMDBenchReport.summaries]; a field is [None] until set. *)
Record WorkloadConfigResult := {
  bytes_per_second : option double;
  microseconds_per_operation : option double
}.

Record ThreadRunner := {
  mlmd_config_ : ConnectionConfig;
  num_threads_ : Z
}.

(** ** Observable events, tagged with the workload index [i] and, for the
    actions of a worker, the thread index [t]. *)
Inductive Event :=
| EvCreateStore (i : nat) (st : Status)
| EvSetUp (i : nat) (st : Status)
| EvSchedule (i t : nat)
| EvStart (i t : nat)
| EvRunOp (i t : nat) (index : Z) (st : Status)
| EvIncrement (i t : nat) (stored : Z)
| EvUpdate (i t : nat) (done : Z)
| EvStop (i t : nat)
| EvTearDown (i : nat) (st : Status)
| EvReport (i : nat).

(** A trace lists events newest first. *)
Definition Trace := list Event.

(** ** PrepareStoresForThreads (lines 35-47) *)

(** The loop [for (i = 0; i < num_threads; ++i)], [n] iterations left. *)
Fixpoint PrepareStores_loop (wi : nat) (mlmd_config : ConnectionConfig)
    (n : nat) (i : nat) (w : World) (stores : list (option MetadataStore))
    (tr : Trace) : World * Status * list (option MetadataStore) * Trace :=
  match n with
  | O => (w, Status_OK, stores, tr)
  | S n' =>
      let '(w', st, store) := CreateMetadataStore mlmd_config w in
      if negb (ok st) then (w', st, stores, EvCreateStore wi st :: tr)
      else PrepareStores_loop wi mlmd_config n' (S i) w'
             (<[i := store]> stores) (EvCreateStore wi st :: tr)
  end.

Definition PrepareStoresForThreads (wi : nat) (mlmd_config : ConnectionConfig)
    (num_threads : Z) (w : World) (tr : Trace)
    : World * Status * list (option MetadataStore) * Trace :=
  (* stores.resize(num_threads) *)
  let stores := replicate (Z.to_nat num_threads) None in
  PrepareStores_loop wi mlmd_config (Z.to_nat num_threads) 0%nat w stores tr.

(** ** SetUpWorkload (lines 50-56) *)
Definition SetUpWorkload (wi : nat) (mlmd_config : ConnectionConfig)
    (workload : WorkloadBase) (w : World) (tr : Trace)
    : World * Status * Trace :=
  let '(w1, st1, set_up_store) := CreateMetadataStore mlmd_config w in
  if negb (ok st1) then (w1, st1, EvCreateStore wi st1 :: tr)
  else
    let '(w2, st2) := SetUp workload set_up_store w1 in
    if negb (ok st2)
    then (w2, st2, EvSetUp wi st2 :: EvCreateStore wi st1 :: tr)
    else (w2, Status_OK, EvSetUp wi st2 :: EvCreateStore wi st1 :: tr).

(** ** The worker closure and ExecuteWorkload (lines 60-86, 144-152) *)

(** Where a worker stands in the closure given to [pool.Schedule]. *)
Inductive ThreadPC :=
| Idle                                   (* never scheduled *)
| Queued                                 (* scheduled, before [Start()] *)
| AtLoop                                 (* at the [while] test *)
| AtLoad (op_stats : OpStats)            (* before reading [approx_total_done] *)
| AtStore (op_stats : OpStats) (loaded : Z)  (* read done, write pending *)
| AtUpdate (op_stats : OpStats)          (* before [curr_thread_stats.Update] *)
| Returned (status : Status)             (* [ExecuteWorkload] has returned *)
| AtStop                                 (* before [Stop()] *)
| Finished.

(** The slots [thread_stats_list[t]] and [thread_status_list[t]] with the
    local variable [work_items_index] of the running [ExecuteWorkload]. *)
Record Thread := {
  pc : ThreadPC;
  work_items_index : Z;
  curr_thread_stats : ThreadStats;
  curr_status : Status
}.

Definition Thread_new : Thread :=
  {| pc := Idle; work_items_index := 0;
     curr_thread_stats := ThreadStats_new; curr_status := Status_OK |}.

Definition set_pc (p : ThreadPC) (th : Thread) : Thread :=
  {| pc := p; work_items_index := work_items_index th;
     curr_thread_stats := curr_thread_stats th;
     curr_status := curr_status th |}.

(** One action of worker [t] of workload [i].  The shared data are the world
    [w] (through [RunOp]) and the counter [done] ([approx_total_done]); the
    result is their new value, the new thread state and the event emitted.
    [None]: the worker has no action (not scheduled, or finished). *)
Definition thread_step (workload : WorkloadBase) (i t : nat)
    (op_per_thread : Z) (curr_store : option MetadataStore)
    (w : World) (done : Z) (th : Thread)
    : option (World * Z * Thread * list Event) :=
  let work_items_start_index := op_per_thread * Z.of_nat t in
  match pc th with
  | Idle | Finished => None
  | Queued =>
      (* curr_thread_stats.Start(); int64 work_items_index = start *)
      Some (w, done,
            {| pc := AtLoop; work_items_index := work_items_start_index;
               curr_thread_stats := Start w (curr_thread_stats th);
               curr_status := curr_status th |},
            [EvStart i t])
  | AtLoop =>
      if work_items_index th <? work_items_start_index + op_per_thread then
        let '(w', status, op_stats) :=
          RunOp workload (work_items_index th) curr_store w in
        let ev := [EvRunOp i t (work_items_index th) status] in
        if negb (ok status) && not_aborted status then
          (* TF_RETURN_IF_ERROR(status) *)
          Some (w', done, set_pc (Returned status) th, ev)
        else if negb (ok status) then
          (* continue *)
          Some (w', done, th, ev)
        else
          (* work_items_index++ *)
          Some (w', done,
                {| pc := AtLoad op_stats;
                   work_items_index := work_items_index th + 1;
                   curr_thread_stats := curr_thread_stats th;
                   curr_status := curr_status th |},
                ev)
      else
        (* return tensorflow::Status::OK() *)
        Some (w, done, set_pc (Returned Status_OK) th, [])
  | AtLoad op_stats =>
      (* approx_total_done++ : the read *)
      Some (w, done, set_pc (AtStore op_stats done) th, [])
  | AtStore op_stats loaded =>
      (* approx_total_done++ : the write *)
      Some (w, loaded + 1, set_pc (AtUpdate op_stats) th,
            [EvIncrement i t (loaded + 1)])
  | AtUpdate op_stats =>
      (* curr_thread_stats.Update(op_stats, approx_total_done) *)
      Some (w, done,
            {| pc := AtLoop; work_items_index := work_items_index th;
               curr_thread_stats :=
                 Update op_stats done (curr_thread_stats th);
               curr_status := curr_status th |},
            [EvUpdate i t done])
  | Returned status =>
      (* curr_status.Update(ExecuteWorkload(...)) *)
      Some (w, done,
            {| pc := AtStop; work_items_index := work_items_index th;
               curr_thread_stats := curr_thread_stats th;
               curr_status := Status_Update (curr_status th) status |},
            [])
  | AtStop =>
      (* curr_thread_stats.Stop() *)
      Some (w, done,
            {| pc := Finished; work_items_index := work_items_index th;
               curr_thread_stats := Stop w (curr_thread_stats th);
               curr_status := curr_status th |},
            [EvStop i t])
  end.

(** ** MergeThreadStatsAndReport (lines 91-102) *)

(** [for (i = 1; i < size; ++i) thread_stats_list[0].Merge(thread_stats_list[i])]:
    the final value of [thread_stats_list[0]]; an empty array has no slot 0. *)
Definition MergeThreadStats (thread_stats_list : list ThreadStats)
    : option ThreadStats :=
  match thread_stats_list with
  | [] => None
  | s0 :: rest => Some (fold_left Merge rest s0)
  end.

Definition MergeThreadStatsAndReport (workload_name : string)
    (thread_stats_list : list ThreadStats)
    (workload_summary : WorkloadConfigResult) : option WorkloadConfigResult :=
  match MergeThreadStats thread_stats_list with
  | None => None
  | Some merged =>
      let report := Report workload_name merged in
      (* set_bytes_per_second, set_microseconds_per_operation *)
      Some {| bytes_per_second := Some (fst report);
              microseconds_per_operation := Some (snd report) |}
  end.

(** ** ThreadRunner::Run (lines 120-161) *)

(** Where the main thread stands in [Run]. *)
Inductive MainPC :=
| AtWorkload                 (* the test [i < benchmark.num_workloads()] *)
| AtSchedule (t : nat)       (* the test [t < num_threads_], then [pool.Schedule] *)
| AtCheck (t : nat)          (* [TF_RETURN_IF_ERROR(curr_status)] after scheduling [t] *)
| Unwinding (st : Status)    (* returning [st] from inside the pool block *)
| AtTearDown                 (* the pool block is left; before [TearDown()] *)
| Done (st : Status).        (* [Run] has returned [st] *)

Record State := {
  world : World;
  summaries : list WorkloadConfigResult;     (* mlmd_bench_report *)
  main : MainPC;
  workload_index : nat;                      (* i *)
  op_per_thread : Z;
  stores : list (option MetadataStore);
  approx_total_done : Z;
  threads : list Thread;    (* thread_stats_list and thread_status_list *)
  trace : Trace
}.

Inductive Tid := MainThread | Worker (t : nat).

Variable runner : ThreadRunner.
Variable benchmark : Benchmark.

(** [~ThreadPool] returns once every scheduled closure has run to its end. *)
Definition joined (th : Thread) : bool :=
  match pc th with Idle | Finished => true | _ => false end.

Definition finished (th : Thread) : bool :=
  match pc th with Finished => true | _ => false end.

Definition return_from_Run (st : Status) (w : World) (tr : Trace) (s : State)
    : State :=
  {| world := w; summaries := summaries s; main := Done st;
     workload_index := workload_index s; op_per_thread := op_per_thread s;
     stores := stores s; approx_total_done := approx_total_done s;
     threads := threads s; trace := tr |}.

Definition set_main (m : MainPC) (s : State) : State :=
  {| world := world s; summaries := summaries s; main := m;
     workload_index := workload_index s; op_per_thread := op_per_thread s;
     stores := stores s; approx_total_done := approx_total_done s;
     threads := threads s; trace := trace s |}.

(** One action of the main thread.  [None]: the main thread is blocked in
    [~ThreadPool], has returned, or the behaviour of the C++ is undefined
    (an array of [num_threads_ <= 0] slots, a report without entry [i]). *)
Definition main_step (s : State) : option State :=
  let i := workload_index s in
  match main s with
  | AtWorkload =>
      (* lines 122-132: from the loop test to the creation of the pool *)
      match benchmark !! i with
      | None => Some (set_main (Done Status_OK) s)
      | Some workload =>
          if num_threads_ runner <=? 0 then None else
          let '(w1, st1, tr1) :=
            SetUpWorkload i (mlmd_config_ runner) workload (world s) (trace s) in
          if negb (ok st1) then Some (return_from_Run st1 w1 tr1 s) else
          let op := Z.quot (num_operations workload) (num_threads_ runner) in
          let '(w2, st2, sts, tr2) :=
            PrepareStoresForThreads i (mlmd_config_ runner)
              (num_threads_ runner) w1 tr1 in
          if negb (ok st2) then Some (return_from_Run st2 w2 tr2 s) else
          match summaries s !! i with
          | None => None
          | Some _ =>
              Some {| world := w2; summaries := summaries s;
                      main := AtSchedule 0; workload_index := i;
                      op_per_thread := op; stores := sts;
                      approx_total_done := 0;
                      threads :=
                        replicate (Z.to_nat (num_threads_ runner)) Thread_new;
                      trace := tr2 |}
          end
      end
  | AtSchedule t =>
      (* lines 139-152: [pool.Schedule]; line 155: the pool block ends *)
      if Z.of_nat t <? num_threads_ runner then
        match threads s !! t with
        | None => None
        | Some th =>
            Some {| world := world s; summaries := summaries s;
                    main := AtCheck t; workload_index := i;
                    op_per_thread := op_per_thread s; stores := stores s;
                    approx_total_done := approx_total_done s;
                    threads := <[t := set_pc Queued th]> (threads s);
                    trace := EvSchedule i t :: trace s |}
        end
      else if forallb finished (threads s) then Some (set_main AtTearDown s)
      else None
  | AtCheck t =>
      (* line 153: [TF_RETURN_IF_ERROR(curr_status)] *)
      match threads s !! t with
      | None => None
      | Some th =>
          if negb (ok (curr_status th))
          then Some (set_main (Unwinding (curr_status th)) s)
          else Some (set_main (AtSchedule (S t)) s)
      end
  | Unwinding st =>
      (* the [return] of line 153 destroys the pool, which joins *)
      if forallb joined (threads s) then Some (set_main (Done st) s) else None
  | AtTearDown =>
      (* lines 156-158 *)
      match benchmark !! i with
      | None => None
      | Some workload =>
          let '(w', st) := TearDown workload (world s) in
          let tr' := EvTearDown i st :: trace s in
          if negb (ok st) then Some (return_from_Run st w' tr' s) else
          match summaries s !! i with
          | None => None
          | Some workload_summary =>
              match MergeThreadStatsAndReport (GetName workload)
                      (curr_thread_stats <$> threads s) workload_summary with
              | None => None
              | Some summary' =>
                  Some {| world := w';
                          summaries := <[i := summary']> (summaries s);
                          main := AtWorkload; workload_index := S i;
                          op_per_thread := op_per_thread s;
                          (* the locals of the loop body leave scope *)
                          stores := [];
                          approx_total_done := approx_total_done s;
                          threads := [];
                          trace := EvReport i :: tr' |}
              end
          end
      end
  | Done _ => None
  end.

(** One action of worker [t]: [thread_step] on the shared state. *)
Definition worker_step (t : nat) (s : State) : option State :=
  match benchmark !! workload_index s, threads s !! t with
  | Some workload, Some th =>
      match thread_step workload (workload_index s) t (op_per_thread s)
              (mjoin (stores s !! t)) (world s) (approx_total_done s) th with
      | Some (w', done', th', evs) =>
          Some {| world := w'; summaries := summaries s; main := main s;
                  workload_index := workload_index s;
                  op_per_thread := op_per_thread s; stores := stores s;
                  approx_total_done := done';
                  threads := <[t := th']> (threads s);
                  trace := evs ++ trace s |}
      | None => None
      end
  | _, _ => None
  end.

Definition step (tid : Tid) (s : State) : option State :=
  match tid with
  | MainThread => main_step s
  | Worker t => worker_step t s
  end.

(** The state in which [Run(benchmark, mlmd_bench_report)] is entered. *)
Definition initial (w : World) (report : list WorkloadConfigResult) : State :=
  {| world := w; summaries := report; main := AtWorkload;
     workload_index := 0%nat; op_per_thread := 0; stores := [];
     approx_total_done := 0; threads := []; trace := [] |}.

(** Runs a schedule; [None] if some thread of the schedule cannot act. *)
Fixpoint exec (sched : list Tid) (s : State) : option State :=
  match sched with
  | [] => Some s
  | tid :: sched' =>
      match step tid s with
      | Some s' => exec sched' s'
      | None => None
      end
  end.

(** The states some schedule reaches from the entry of [Run]. *)
Inductive reachable : State -> Prop :=
| reachable_initial w report : reachable (initial w report)
| reachable_step s tid s' :
    reachable s -> step tid s = Some s' -> reachable s'.

(** [Run] returns [st] under the schedule [sched]. *)
Definition Run_returns (sched : list Tid) (w : World)
    (report : list WorkloadConfigResult) (st : Status) (s : State) : Prop :=
  exec sched (initial w report) = Some s /\ main s = Done st.

End Engine.

(** ** Observations on traces *)

(** The workload an event belongs to. *)
Definition ev_workload (e : Event) : nat :=
  match e with
  | EvCreateStore i _ | EvSetUp i _ | EvSchedule i _ | EvStart i _
  | EvRunOp i _ _ _ | EvIncrement i _ _ | EvUpdate i _ _ | EvStop i _
  | EvTearDown i _ | EvReport i => i
  end.

(** The worker that performed the event, if a worker did. *)
Definition ev_thread (e : Event) : option nat :=
  match e with
  | EvStart _ t | EvRunOp _ t _ _ | EvIncrement _ t _ | EvUpdate _ t _
  | EvStop _ t => Some t
  | _ => None
  end.

Definition of_thread (i t : nat) (e : Event) : bool :=
  (ev_workload e =? i)%nat &&
  match ev_thread e with Some t' => (t' =? t)%nat | None => false end.

(** The actions of worker [t] of workload [i], newest first. *)
Definition thread_log (i t : nat) (tr : Trace) : list Event :=
  List.filter (of_thread i t) tr.
Global Arguments thread_log : simpl never.

Definition ok_index (e : Event) : option Z :=
  match e with
  | EvRunOp _ _ index st => if ok st then Some index else None
  | _ => None
  end.

Definition run_call (e : Event) : option (Z * Status) :=
  match e with EvRunOp _ _ index st => Some (index, st) | _ => None end.

Definition is_start (e : Event) : bool :=
  match e with EvStart _ _ => true | _ => false end.
Definition is_stop (e : Event) : bool :=
  match e with EvStop _ _ => true | _ => false end.
Definition is_update (e : Event) : bool :=
  match e with EvUpdate _ _ _ => true | _ => false end.
Definition is_increment (e : Event) : bool :=
  match e with EvIncrement _ _ _ => true | _ => false end.
Definition is_ok_run (e : Event) : bool :=
  match e with EvRunOp _ _ _ st => ok st | _ => false end.
Definition is_create_store (e : Event) : bool :=
  match e with EvCreateStore _ _ => true | _ => false end.
Definition is_tear_down (i : nat) (e : Event) : bool :=
  match e with EvTearDown i' _ => (i' =? i)%nat | _ => false end.

Definition count (p : Event -> bool) (l : list Event) : Z :=
  Z.of_nat (length (List.filter p l)).

(** The indices worker [t] ran successfully, in the order it ran them. *)
Definition succeeded (i t : nat) (tr : Trace) : list Z :=
  reverse (omap ok_index (thread_log i t tr)).

(** All the calls of [RunOp] by worker [t], in order: the index and the
    status returned. *)
Definition attempted (i t : nat) (tr : Trace) : list (Z * Status) :=
  reverse (omap run_call (thread_log i t tr)).

(** The number of calls of [Update] by worker [t]. *)
Definition updates (i t : nat) (tr : Trace) : Z :=
  count is_update (thread_log i t tr).

(** The operations of workload [i] completed by all workers together. *)
Definition completed (i : nat) (tr : Trace) : Z :=
  count (fun e => (ev_workload e =? i)%nat && is_ok_run e) tr.

(** The writes to [approx_total_done] while running workload [i]. *)
Definition increments (i : nat) (tr : Trace) : Z :=
  count (fun e => (ev_workload e =? i)%nat && is_increment e) tr.


(** ** The shape of a worker's log

    [loop_log i t start k c l]: [l] is what the loop of [ExecuteWorkload]
    has logged when it is back at its test with cursor [c]: from [start],
    each index was retried while [RunOp] said ABORTED, then succeeded, was
    counted and recorded. *)
Inductive loop_log (i t : nat) (start k : Z) : Z -> list Event -> Prop :=
| loop_log_nil : loop_log i t start k start []
| loop_log_retry c l st :
    loop_log i t start k c l -> c < start + k ->
    ok st = false -> not_aborted st = false ->
    loop_log i t start k c (EvRunOp i t c st :: l)
| loop_log_next c l st v d :
    loop_log i t start k c l -> c < start + k -> ok st = true ->
    loop_log i t start k (c + 1)
      (EvUpdate i t d :: EvIncrement i t v :: EvRunOp i t c st :: l).

(** What the loop has logged when [ExecuteWorkload] returns [st] with
    cursor [c]. *)
Definition exit_log (i t : nat) (start k : Z) (st : Status) (c : Z)
    (l : list Event) : Prop :=
  (st = Status_OK /\ loop_log i t start k c l /\ start + k <= c) \/
  (ok st = false /\ not_aborted st = true /\ c < start + k /\
   exists l', l = EvRunOp i t c st :: l' /\ loop_log i t start k c l').

Section ThreadInvariant.
Context `{Collaborators}.

(** The log of a worker determines where it stands, and conversely. *)
Definition thread_inv (i t : nat) (k : Z) (th : Thread) (log : list Event)
    : Prop :=
  let start := k * Z.of_nat t in
  let c := work_items_index th in
  match pc th with
  | Idle | Queued => log = [] /\ curr_status th = Status_OK
  | AtLoop =>
      curr_status th = Status_OK /\
      exists l, log = l ++ [EvStart i t] /\ loop_log i t start k c l
  | AtLoad _ | AtStore _ _ =>
      curr_status th = Status_OK /\ c - 1 < start + k /\
      exists l st, log = EvRunOp i t (c - 1) st :: l ++ [EvStart i t] /\
                   ok st = true /\ loop_log i t start k (c - 1) l
  | AtUpdate _ =>
      curr_status th = Status_OK /\ c - 1 < start + k /\
      exists l st v,
        log = EvIncrement i t v :: EvRunOp i t (c - 1) st :: l
              ++ [EvStart i t] /\
        ok st = true /\ loop_log i t start k (c - 1) l
  | Returned st =>
      curr_status th = Status_OK /\
      exists l, log = l ++ [EvStart i t] /\ exit_log i t start k st c l
  | AtStop =>
      exists l, log = l ++ [EvStart i t] /\
                exit_log i t start k (curr_status th) c l
  | Finished =>
      exists l, log = EvStop i t :: l ++ [EvStart i t] /\
                exit_log i t start k (curr_status th) c l
  end.

End ThreadInvariant.

(** ** The invariant of the engine *)

Definition is_provision (i : nat) (e : Event) : bool :=
  match e with
  | EvCreateStore i' _ | EvSetUp i' _ => (i' =? i)%nat
  | _ => false
  end.

Section Invariant.
Context `{Collaborators}.
Variable runner : ThreadRunner.
Variable benchmark : Benchmark.

(** The arrays of the loop body exist: a workload is being run. *)
Definition pool_ok (s : State) : Prop :=
  0 < num_threads_ runner /\
  length (threads s) = Z.to_nat (num_threads_ runner) /\
  is_Some (summaries s !! workload_index s) /\
  exists workload,
    benchmark !! workload_index s = Some workload /\
    op_per_thread s = Z.quot (num_operations workload) (num_threads_ runner).

Definition main_inv (s : State) : Prop :=
  match main s with
  | AtWorkload =>
      threads s = [] /\
      Forall (fun e => (ev_workload e < workload_index s)%nat) (trace s)
  | AtSchedule t =>
      pool_ok s /\ Z.of_nat t <= num_threads_ runner /\
      forall t' th, (t <= t')%nat -> threads s !! t' = Some th -> pc th = Idle
  | AtCheck t =>
      pool_ok s /\ Z.of_nat t < num_threads_ runner /\
      forall t' th, (t < t')%nat -> threads s !! t' = Some th -> pc th = Idle
  | Unwinding st => pool_ok s /\ ok st = false
  | AtTearDown => pool_ok s /\ Forall (fun th => finished th = true) (threads s)
  | Done st => Forall (fun th => joined th = true) (threads s)
  end.

Record Inv (s : State) : Prop := {
  inv_pool : threads s = [] \/ pool_ok s;
  inv_threads : forall t th,
    threads s !! t = Some th ->
    thread_inv (workload_index s) t (op_per_thread s) th
      (thread_log (workload_index s) t (trace s));
  inv_main : main_inv s;
  inv_trace :
    Forall (fun e => (ev_workload e <= workload_index s)%nat) (trace s);
  inv_owner :
    Forall (fun e => ev_workload e = workload_index s ->
                     forall t, ev_thread e = Some t ->
                               (t < length (threads s))%nat) (trace s)
}.

End Invariant.

(** ** Further notions used to state the properties *)

(** [sumZ f n] is [f 0 + ... + f (n-1)]. *)
Fixpoint sumZ (f : nat -> Z) (n : nat) : Z :=
  match n with
  | O => 0
  | S n' => sumZ f n' + f n'
  end.

(** [before marker Q tr]: whenever an event [e] with [marker e] occurs in
    [tr], [Q e B] holds of the events [B] that are older than [e]. *)
Definition before (marker : Event -> bool) (Q : Event -> Trace -> Prop)
    (tr : Trace) : Prop :=
  forall A e B, tr = A ++ e :: B -> marker e = true -> Q e B.

Section Runs.
Context `{Collaborators}.

(** The status [ExecuteWorkload] returned to the closure of a worker, once
    it has. *)
Definition returned (th : Thread) : option Status :=
  match pc th with
  | Returned st => Some st
  | AtStop | Finished => Some (curr_status th)
  | _ => None
  end.

(** The cases of [pc] in which an operation has succeeded and is not yet
    counted in [approx_total_done], or not yet recorded by [Update]. *)
Definition uncounted (th : Thread) : Z :=
  match pc th with AtLoad _ | AtStore _ _ => 1 | _ => 0 end.
Definition unrecorded (th : Thread) : Z :=
  match pc th with AtLoad _ | AtStore _ _ | AtUpdate _ => 1 | _ => 0 end.

(** How a call of [ExecuteWorkload] that returned [st] has gone, for worker
    [t] with [k] operations of its own: all [k] indices were run in
    increasing order and recorded; or [st] is a fatal status, the call that
    returned it is the last call of [RunOp] by the worker, and every index
    before it was run and recorded. *)
Definition outcome (i t : nat) (k : Z) (st : Status) (th : Thread)
    (tr : Trace) : Prop :=
  let start := k * Z.of_nat t in
  let c := work_items_index th in
  (ok st = true ->
     c = start + k /\ succeeded i t tr = seqZ start k /\
     updates i t tr = k) /\
  (ok st = false ->
     not_aborted st = true /\ (start <= c < start + k) /\
     succeeded i t tr = seqZ start (c - start) /\
     updates i t tr = c - start /\
     last (attempted i t tr) = Some (c, st)).

(** The worker has called [Start()]. *)
Definition started (th : Thread) : bool :=
  match pc th with Idle | Queued => false | _ => true end.

(** [n] consecutive actions of one worker, no other thread acting. *)
Fixpoint thread_steps (n : nat) (workload : WorkloadBase) (i t : nat)
    (op_per_thread : Z) (curr_store : option MetadataStore)
    (w : World) (done : Z) (th : Thread) (tr : Trace)
    : option (World * Z * Thread * Trace) :=
  match n with
  | O => Some (w, done, th, tr)
  | S n' =>
      match thread_step workload i t op_per_thread curr_store w done th with
      | Some (w', done', th', evs) =>
          thread_steps n' workload i t op_per_thread curr_store
            w' done' th' (evs ++ tr)
      | None => None
      end
  end.

(** [ExecuteWorkload] run without interruption by other threads: the actions
    of the worker from the loop test until the function returns; [fuel]
    bounds their number. *)
Fixpoint ExecuteWorkload (fuel : nat) (workload : WorkloadBase) (i t : nat)
    (op_per_thread : Z) (curr_store : option MetadataStore)
    (w : World) (done : Z) (th : Thread) (tr : Trace)
    : option (Status * World * Z * Thread * Trace) :=
  match pc th with
  | Returned st => Some (st, w, done, th, tr)
  | _ =>
      match fuel with
      | O => None
      | S fuel' =>
          match thread_step workload i t op_per_thread curr_store w done th
          with
          | Some (w', done', th', evs) =>
              ExecuteWorkload fuel' workload i t op_per_thread curr_store
                w' done' th' (evs ++ tr)
          | None => None
          end
      end
  end.

(** The next [n] calls of [RunOp] at [index] all return ABORTED. *)
Fixpoint aborts (n : nat) (workload : WorkloadBase) (index : Z)
    (curr_store : option MetadataStore) (w : World) : Prop :=
  match n with
  | O => True
  | S n' =>
      let '(w', st, _) := RunOp workload index curr_store w in
      code st = ABORTED /\ aborts n' workload index curr_store w'
  end.

(** [RunOp] of [workload] cannot return ABORTED for ever: every ABORTED
    answer uses up some of the finite [budget] of the world, and no answer
    refills it. *)
Definition aborts_bounded (workload : WorkloadBase) (budget : World -> nat)
    : Prop :=
  forall index curr_store w,
    let '(w', st, _) := RunOp workload index curr_store w in
    (budget w' <= budget w)%nat /\
    (code st = ABORTED -> (budget w' < budget w)%nat).

(** Two workers are between the read and the write of their
    [approx_total_done++] at the same time. *)
Definition racing (s : State) : Prop :=
  exists t1 t2 th1 th2 op1 v1 op2 v2,
    t1 <> t2 /\
    threads s !! t1 = Some th1 /\ pc th1 = AtStore op1 v1 /\
    threads s !! t2 = Some th2 /\ pc th2 = AtStore op2 v2.

(** The states reached by schedules under which the increments of
    [approx_total_done] never overlap. *)
Inductive serial_reachable (runner : ThreadRunner) (benchmark : Benchmark)
    : State -> Prop :=
| serial_initial w report :
    serial_reachable runner benchmark (initial w report)
| serial_step s tid s' :
    serial_reachable runner benchmark s ->
    step runner benchmark tid s = Some s' -> ~ racing s' ->
    serial_reachable runner benchmark s'.

End Runs.

(** ** The actions of the main thread, case by case

    [main_action s s']: what [main_step] does in [s], one constructor per
    path through [Run] (see [main_step_action]). *)
Section MainActions.
Context `{Collaborators}.
Variable runner : ThreadRunner.
Variable benchmark : Benchmark.

Inductive main_action (s : State) : State -> Prop :=
| act_end :
    main s = AtWorkload -> benchmark !! workload_index s = None ->
    main_action s (set_main (Done Status_OK) s)
| act_fail st w evs :
    main s = AtWorkload -> ok st = false ->
    Forall (fun e => is_provision (workload_index s) e = true) evs ->
    (exists tr, evs ++ trace s = EvSetUp (workload_index s) st :: tr \/
                evs ++ trace s = EvCreateStore (workload_index s) st :: tr) ->
    main_action s (return_from_Run st w (evs ++ trace s) s)
| act_pool w evs op sts :
    main s = AtWorkload ->
    Forall (fun e => is_provision (workload_index s) e = true) evs ->
    main_action s
      {| world := w; summaries := summaries s; main := AtSchedule 0;
         workload_index := workload_index s; op_per_thread := op;
         stores := sts; approx_total_done := 0;
         threads := replicate (Z.to_nat (num_threads_ runner)) Thread_new;
         trace := evs ++ trace s |}
| act_schedule t th :
    main s = AtSchedule t -> threads s !! t = Some th ->
    main_action s
      {| world := world s; summaries := summaries s; main := AtCheck t;
         workload_index := workload_index s;
         op_per_thread := op_per_thread s; stores := stores s;
         approx_total_done := approx_total_done s;
         threads := <[t := set_pc Queued th]> (threads s);
         trace := EvSchedule (workload_index s) t :: trace s |}
| act_join t :
    main s = AtSchedule t ->
    Forall (fun th => finished th = true) (threads s) ->
    main_action s (set_main AtTearDown s)
| act_check_ok t th :
    main s = AtCheck t -> threads s !! t = Some th ->
    ok (curr_status th) = true ->
    main_action s (set_main (AtSchedule (S t)) s)
| act_check_fail t th :
    main s = AtCheck t -> threads s !! t = Some th ->
    ok (curr_status th) = false ->
    main_action s (set_main (Unwinding (curr_status th)) s)
| act_unwind st :
    main s = Unwinding st ->
    Forall (fun th => joined th = true) (threads s) ->
    main_action s (set_main (Done st) s)
| act_tear_down_fail w st :
    main s = AtTearDown -> ok st = false ->
    main_action s
      (return_from_Run st w (EvTearDown (workload_index s) st :: trace s) s)
| act_tear_down_ok w st summary :
    main s = AtTearDown -> ok st = true ->
    main_action s
      {| world := w;
         summaries := <[workload_index s := summary]> (summaries s);
         main := AtWorkload; workload_index := S (workload_index s);
         op_per_thread := op_per_thread s; stores := [];
         approx_total_done := approx_total_done s; threads := [];
         trace := EvReport (workload_index s)
                  :: EvTearDown (workload_index s) st :: trace s |}.

End MainActions.

(** The status [st] in the trace came from [CreateMetadataStore], [SetUp]
    or [TearDown]. *)
Definition from_collaborator (st : Status) (tr : Trace) : Prop :=
  exists i, EvCreateStore i st ∈ tr \/ EvSetUp i st ∈ tr \/
            EvTearDown i st ∈ tr.

(** ** Notions used in the proofs *)

(** What a log of the loop says in numbers. *)
Record loop_facts (start k c : Z) (l : list Event) : Prop := {
  lf_cursor : start <= c <= start + k;
  lf_succeeded : reverse (omap ok_index l) = seqZ start (c - start);
  lf_updates : count is_update l = c - start;
  lf_increments : count is_increment l = c - start;
  lf_ok_runs : count is_ok_run l = c - start;
  lf_starts : count is_start l = 0;
  lf_stops : count is_stop l = 0
}.

Section ProofNotions.
Context `{Collaborators}.

(** What the log of a worker says in numbers, by where the worker stands. *)
Record thread_facts (i t : nat) (k : Z) (th : Thread) (log : list Event)
    : Prop := {
  tf_cursor :
    k * Z.of_nat t <= work_items_index th <= k * Z.of_nat t + k;
  tf_succeeded :
    reverse (omap ok_index log)
    = seqZ (k * Z.of_nat t) (work_items_index th - k * Z.of_nat t);
  tf_ok_runs : count is_ok_run log = work_items_index th - k * Z.of_nat t;
  tf_increments :
    count is_increment log
    = work_items_index th - k * Z.of_nat t - uncounted th;
  tf_updates :
    count is_update log
    = work_items_index th - k * Z.of_nat t - unrecorded th;
  tf_starts : count is_start log = 1;
  tf_stops : count is_stop log = if finished th then 1 else 0;
  tf_first : exists l, log = l ++ [EvStart i t]
}.

(** The number of actions left until [ExecuteWorkload] returns, for worker
    [t] with [k] operations of its own, when [RunOp] can still answer
    ABORTED [b] times. *)
Definition actions_left (t : nat) (k : Z) (th : Thread) (b : nat) : nat :=
  let rem := Z.to_nat (k * Z.of_nat t + k - work_items_index th) in
  match pc th with
  | AtLoop => 4 * rem + b + 1
  | AtLoad _ => 4 * rem + b + 4
  | AtStore _ _ => 4 * rem + b + 3
  | AtUpdate _ => 4 * rem + b + 2
  | _ => 0
  end%nat.

(** The worker is inside [ExecuteWorkload], or back from it. *)
Definition in_loop (th : Thread) : bool :=
  match pc th with
  | AtLoop | AtLoad _ | AtStore _ _ | AtUpdate _ | Returned _ => true
  | _ => false
  end.

(** How often [TearDown] of each workload has been called. *)
Definition tear_down_counts (s : State) : Prop :=
  (forall j, (j < workload_index s)%nat ->
             count (is_tear_down j) (trace s) = 1) /\
  (forall j, (workload_index s < j)%nat ->
             count (is_tear_down j) (trace s) = 0) /\
  match main s with
  | Done _ => count (is_tear_down (workload_index s)) (trace s) <= 1
  | _ => count (is_tear_down (workload_index s)) (trace s) = 0
  end.

(** How [approx_total_done], and the values workers have read from it and
    not yet written back, relate to the number of writes so far. *)
Definition counter_inv (R : Z -> Z -> Prop) (s : State) : Prop :=
  threads s <> [] ->
  R (approx_total_done s) (increments (workload_index s) (trace s)) /\
  forall t th op v,
    threads s !! t = Some th -> pc th = AtStore op v ->
    R v (increments (workload_index s) (trace s)).

End ProofNotions.

(** ** Further notions: provisioning, the control flow of [Run], progress

    *** The calls of [CreateMetadataStore] in a row *)

Section Provisioning.
Context `{Collaborators}.

(** The world after [n] successive calls of [CreateMetadataStore]. *)
Fixpoint after_creates (mlmd_config : ConnectionConfig) (n : nat) (w : World)
    : World :=
  match n with
  | O => w
  | S n' => after_creates mlmd_config n' (CreateMetadataStore mlmd_config w).1.1
  end.

(** The status and the handle that call number [j] (from 0) of a row of
    calls of [CreateMetadataStore] started in [w] returns. *)
Definition create_status (mlmd_config : ConnectionConfig) (w : World) (j : nat)
    : Status :=
  (CreateMetadataStore mlmd_config (after_creates mlmd_config j w)).1.2.
Definition create_handle (mlmd_config : ConnectionConfig) (w : World) (j : nat)
    : option MetadataStore :=
  (CreateMetadataStore mlmd_config (after_creates mlmd_config j w)).2.

(** The events of the first [calls] calls, newest first. *)
Definition create_events (wi : nat) (mlmd_config : ConnectionConfig)
    (w : World) (calls : nat) : Trace :=
  reverse ((fun j => EvCreateStore wi (create_status mlmd_config w j))
             <$> seq 0 calls).

End Provisioning.

(** *** Events of the main thread *)

Definition is_schedule (e : Event) : bool :=
  match e with EvSchedule _ _ => true | _ => false end.
Definition is_schedule_of (i t : nat) (e : Event) : bool :=
  match e with
  | EvSchedule i' t' => (i' =? i)%nat && (t' =? t)%nat
  | _ => false
  end.
Definition is_report (i : nat) (e : Event) : bool :=
  match e with EvReport i' => (i' =? i)%nat | _ => false end.
Definition is_create_of (i : nat) (e : Event) : bool :=
  match e with EvCreateStore i' _ => (i' =? i)%nat | _ => false end.
Definition any_event (e : Event) : bool := true.

Definition is_set_up (i : nat) (e : Event) : bool :=
  match e with EvSetUp i' _ => (i' =? i)%nat | _ => false end.

(** The events only the main thread logs. *)
Definition by_main (e : Event) : bool :=
  match ev_thread e with None => true | Some _ => false end.

(** *** The control flow of [Run] *)

Section RunNotions.
Context `{Collaborators}.
Variable runner : ThreadRunner.
Variable benchmark : Benchmark.

(** Workload [i] is provisioned in [tr]: [SetUp] has succeeded and the
    [num_threads_ + 1] client handles were created, all with success. *)
Definition provisioned (i : nat) (tr : Trace) : Prop :=
  (exists st, ok st = true /\ EvSetUp i st ∈ tr) /\
  count (is_create_of i) tr = num_threads_ runner + 1 /\
  forall st, EvCreateStore i st ∈ tr -> ok st = true.

(** Workload [j] has been processed to its end in [tr]. *)
Definition processed (j : nat) (tr : Trace) : Prop :=
  provisioned j tr /\
  (forall t, Z.of_nat t < num_threads_ runner -> EvSchedule j t ∈ tr) /\
  (exists st, ok st = true /\ EvTearDown j st ∈ tr) /\
  EvReport j ∈ tr.

(** The workers scheduled so far are those below [n]. *)
Definition scheduled_below (n : nat) (s : State) : Prop :=
  forall t, EvSchedule (workload_index s) t ∈ trace s <-> (t < n)%nat.

(** The invariant of the control flow of [Run]: what the main thread has
    done, by where it stands. *)
Record Run_inv (s : State) : Prop := {
  ri_index : (workload_index s <= length benchmark)%nat;
  ri_done : forall st, main s = Done st ->
    if ok st
    then st = Status_OK /\ benchmark !! workload_index s = None /\
         threads s = []
    else is_Some (benchmark !! workload_index s);
  ri_sched :
    match main s with
    | AtSchedule t => scheduled_below t s
    | AtCheck t => scheduled_below (S t) s
    | _ => True
    end;
  ri_queued : forall t th,
    threads s !! t = Some th ->
    (pc th <> Idle <-> EvSchedule (workload_index s) t ∈ trace s);
  ri_once : forall j t, count (is_schedule_of j t) (trace s) <= 1;
  ri_unwinding : forall st,
    main s = Unwinding st ->
    exists t th,
      threads s !! t = Some th /\ curr_status th = st /\
      forall t', (t < t')%nat -> EvSchedule (workload_index s) t' ∉ trace s;
  ri_provisioned : threads s <> [] -> provisioned (workload_index s) (trace s);
  ri_past : forall j, (j < workload_index s)%nat -> processed j (trace s);
  ri_reports : forall j,
    count (is_report j) (trace s)
    = if (j <? workload_index s)%nat then 1 else 0
}.

End RunNotions.

Section EffortNotions.
Context `{Collaborators}.
Variable runner : ThreadRunner.

(** What provisioning a workload may cost: one call of [SetUp] that
    directly follows the successful creation of its client handle, the
    first event of the workload, and at most [num_threads_ + 1] calls of
    [CreateMetadataStore]. *)
Definition provisioning_bounded (tr : Trace) : Prop :=
  (forall j, count (is_create_of j) tr <= num_threads_ runner + 1 /\
             count (is_set_up j) tr <= 1) /\
  before (fun e => match e with EvSetUp _ _ => true | _ => false end)
    (fun e B => exists st B',
       B = EvCreateStore (ev_workload e) st :: B' /\ ok st = true /\
       Forall (fun e' => (ev_workload e' < ev_workload e)%nat) B') tr.

End EffortNotions.

(** *** Progress values *)

(** The progress value an event carries, if it is an event of workload [i]
    that carries one, lies between 1 and [hi]. *)
Definition progress_in_range (i : nat) (hi : Z) (e : Event) : Prop :=
  ev_workload e = i ->
  match e with
  | EvUpdate _ _ d => 1 <= d <= hi
  | EvIncrement _ _ v => 1 <= v <= hi
  | _ => True
  end.

Section ProgressNotions.
Context `{Collaborators}.
Variable runner : ThreadRunner.

(** Once [approx_total_done] has been written it is at least 1, and the
    progress values logged so far are in range. *)
Definition progress_inv (s : State) : Prop :=
  threads s <> [] ->
  (1 <= increments (workload_index s) (trace s) -> 1 <= approx_total_done s) /\
  Forall (progress_in_range (workload_index s)
            (num_threads_ runner * op_per_thread s)) (trace s).

End ProgressNotions.

(** *** A measure that every action decreases *)

(** [sum_nat f n] is [f 0 + ... + f (n-1)]. *)
Fixpoint sum_nat (f : nat -> nat) (n : nat) : nat :=
  match n with
  | O => 0
  | S n' => sum_nat f n' + f n'
  end.

Section Measure.
Context `{Collaborators}.
Variable runner : ThreadRunner.
Variable benchmark : Benchmark.

(** [s'] is the state after one action in [s]. *)
Definition after (s' s : State) : Prop :=
  exists tid, step runner benchmark tid s = Some s'.

(** A bound on the actions a worker has left, not counting the calls of
    [RunOp] that are answered ABORTED. *)
Definition worker_measure (t : nat) (k : Z) (th : Thread) : nat :=
  let rem := Z.to_nat (k * Z.of_nat t + k - work_items_index th) in
  match pc th with
  | Idle | Finished => 0
  | Queued => 4 * Z.to_nat k + 4
  | AtLoop => 4 * rem + 3
  | AtLoad _ => 4 * rem + 6
  | AtStore _ _ => 4 * rem + 5
  | AtUpdate _ => 4 * rem + 4
  | Returned _ => 2
  | AtStop => 1
  end%nat.

(** The actions the workers have left, all together, when [RunOp] can
    still answer ABORTED [budget (world s)] times. *)
Definition workers_measure (budget : World -> nat) (s : State) : nat :=
  (sum_nat (fun t => match threads s !! t with
                     | Some th => worker_measure t (op_per_thread s) th
                     | None => 0
                     end) (length (threads s))
   + budget (world s))%nat.

(** How far the main thread is from the end of the body of its loop. *)
Definition main_rank (m : MainPC) : nat :=
  let n := Z.to_nat (num_threads_ runner) in
  match m with
  | AtWorkload => 2 * n + 5
  | AtSchedule t => 2 * (n - t) + 3
  | AtCheck t => 2 * (n - t) + 2
  | Unwinding _ | AtTearDown => 1
  | Done _ => 0
  end%nat.

(** The order in which every action goes down: workloads left, then the
    place of the main thread, then the actions left to the workers. *)
Definition goes_down (budget : World -> nat) (s' s : State) : Prop :=
  let left_ s := (length benchmark - workload_index s)%nat in
  (left_ s' < left_ s)%nat \/
  (left_ s' = left_ s /\
   ((main_rank (main s') < main_rank (main s))%nat \/
    (main_rank (main s') = main_rank (main s) /\
     (workers_measure budget s' < workers_measure budget s)%nat))).

End Measure.

(** *** [ExecuteWorkload] as a sequential program *)

Section Sequential.
Context `{Collaborators}.

(** [ExecuteWorkload] (lines 60-86) read as a sequential program: one
    iteration of the [while] loop per call of [RunOp], with
    [approx_total_done++] as a single step.  The result is the status
    returned with the final world, counter, cursor, statistics and trace;
    [fuel] bounds the number of calls of [RunOp].  The [int64] values (the
    cursor, the bound [work_items_start_index + op_per_thread] and the
    counter) are computed in [Z]: the function is what the loop computes as
    long as none of them leaves the range of [int64] (a signed overflow is
    undefined in C++), and it is compared with the engine in that range
    only. *)
Fixpoint ExecuteWorkload_loop (fuel : nat) (workload : WorkloadBase)
    (i t : nat) (work_items_start_index op_per_thread : Z)
    (curr_store : option MetadataStore) (w : World) (approx_total_done : Z)
    (work_items_index : Z) (curr_thread_stats : ThreadStats) (tr : Trace)
    : option (Status * World * Z * Z * ThreadStats * Trace) :=
  if work_items_index <? work_items_start_index + op_per_thread then
    match fuel with
    | O => None
    | S fuel' =>
        let '(w', status, op_stats) :=
          RunOp workload work_items_index curr_store w in
        let tr' := EvRunOp i t work_items_index status :: tr in
        if negb (ok status) && not_aborted status then
          Some (status, w', approx_total_done, work_items_index,
                curr_thread_stats, tr')
        else if negb (ok status) then
          ExecuteWorkload_loop fuel' workload i t work_items_start_index
            op_per_thread curr_store w' approx_total_done work_items_index
            curr_thread_stats tr'
        else
          ExecuteWorkload_loop fuel' workload i t work_items_start_index
            op_per_thread curr_store w' (approx_total_done + 1)
            (work_items_index + 1)
            (Update op_stats (approx_total_done + 1) curr_thread_stats)
            (EvUpdate i t (approx_total_done + 1)
             :: EvIncrement i t (approx_total_done + 1) :: tr')
    end
  else
    Some (Status_OK, w, approx_total_done, work_items_index,
          curr_thread_stats, tr).

End Sequential.

(** *** The statistics objects and the calls made on them *)

(** The progress values passed to [Update] in a log, in the order of the
    calls. *)
Definition progress_values (log : list Event) : list Z :=
  reverse (omap (fun e => match e with
                          | EvUpdate _ _ d => Some d
                          | _ => None
                          end) log).

(** The log of a worker that has run to its end: [Start] first, [Stop]
    last, neither in between. *)
Definition bracketed (j t : nat) (log : list Event) : Prop :=
  exists l, log = EvStop j t :: l ++ [EvStart j t] /\
            Forall (fun e => is_start e = false /\ is_stop e = false) l.

Section Statistics.
Context `{Collaborators}.

(** [recorded log stats]: the statistics object [stats] is what the calls
    logged in [log] (newest first) have made of a default-constructed
    [ThreadStats]: every [EvStart] is one call of [Start()], every
    [EvUpdate] one call of [Update] with the progress value logged, every
    [EvStop] one call of [Stop()], in the order of the log; the other
    actions of a worker leave the object alone. *)
Inductive recorded : list Event -> ThreadStats -> Prop :=
| recorded_nil : recorded [] ThreadStats_new
| recorded_start i t w l stats :
    recorded l stats -> recorded (EvStart i t :: l) (Start w stats)
| recorded_update i t op_stats d l stats :
    recorded l stats ->
    recorded (EvUpdate i t d :: l) (Update op_stats d stats)
| recorded_stop i t w l stats :
    recorded l stats -> recorded (EvStop i t :: l) (Stop w stats)
| recorded_run i t index st l stats :
    recorded l stats -> recorded (EvRunOp i t index st :: l) stats
| recorded_increment i t v l stats :
    recorded l stats -> recorded (EvIncrement i t v :: l) stats.

(** The calls [Update(op_stats, done)] of [ups], in a row. *)
Definition updated (ups : list (OpStats * Z)) (stats : ThreadStats)
    : ThreadStats :=
  fold_left (fun s u => Update u.1 u.2 s) ups stats.

(** [stats] is a default-constructed object on which [Start()] was called
    once, then [Update] once per entry of [ups], then, if [stopped],
    [Stop()] once. *)
Definition statistics_of (stopped : bool) (ups : list (OpStats * Z))
    (stats : ThreadStats) : Prop :=
  exists w0,
    if stopped
    then exists w1, stats = Stop w1 (updated ups (Start w0 ThreadStats_new))
    else stats = updated ups (Start w0 ThreadStats_new).

End Statistics.

Section StatisticsNotions.
Context `{Collaborators}.
Variable runner : ThreadRunner.

(** What the statistics objects hold, and what the workers of the
    workloads run to their end have logged. *)
Record Stats_inv (s : State) : Prop := {
  si_current : forall t th,
    threads s !! t = Some th ->
    recorded (thread_log (workload_index s) t (trace s))
      (curr_thread_stats th);
  si_past : forall j t,
    (j < workload_index s)%nat -> Z.of_nat t < num_threads_ runner ->
    bracketed j t (thread_log j t (trace s))
}.

End StatisticsNotions.

(** *** A failure of provisioning *)

Section FailureNotions.
Context `{Collaborators}.
Variable runner : ThreadRunner.
Variable benchmark : Benchmark.

(** [Run] has returned [st] from [s] in the action that led to [s'],
    before any worker of the workload was spawned: the status is not OK,
    the report and the (empty) thread array are as in [s], the workload has
    logged nothing but provisioning calls, and nothing happens any more. *)
Definition returned_unspawned (s s' : State) (st : Status) : Prop :=
  main_step runner benchmark s = Some s' /\
  main s' = Done st /\ ok st = false /\
  summaries s' = summaries s /\ threads s' = [] /\
  (forall e, e ∈ trace s' -> ev_workload e = workload_index s ->
             is_provision (workload_index s) e = true) /\
  forall tid, step runner benchmark tid s' = None.

End FailureNotions.

(** ** A scripted instance

    The world is a pair of scripts: the statuses the next calls of
    [CreateMetadataStore] and of [RunOp] return, in the order of the calls
    (whichever thread makes them); a call past the end of its script
    succeeds.  Statistics count bytes and operations. *)
Module Scripted.

Definition next (script : list Status) : Status * list Status :=
  match script with
  | [] => (Status_OK, [])
  | st :: rest => (st, rest)
  end.

#[export] Instance collaborators : Collaborators := {|
  World := list Status * list Status;
  ConnectionConfig := unit;
  MetadataStore := unit;
  OpStats := Z;
  ThreadStats := Z * Z;
  double := Z;
  CreateMetadataStore := fun _ w =>
    let '(st, rest) := next (fst w) in
    ((rest, snd w), st, if ok st then Some tt else None);
  ThreadStats_new := (0, 0);
  Start := fun _ s => s;
  Stop := fun _ s => s;
  Update := fun op _ s => (fst s + op, snd s + 1);
  Merge := fun a b => (fst a + fst b, snd a + snd b);
  Report := fun _ s => s
|}.

(** A workload of [n] operations of 8 bytes each whose [SetUp] and
    [TearDown] return the given statuses. *)
Definition workload (set_up tear_down : Status) (n : Z) : WorkloadBase :=
  {| SetUp := fun _ w => (w, set_up);
     RunOp := fun _ _ w =>
       let '(st, rest) := next (snd w) in ((fst w, rest), st, 8);
     TearDown := fun w => (w, tear_down);
     GetName := "scripted";
     num_operations := n |}.

Definition runner (n : Z) : ThreadRunner :=
  {| mlmd_config_ := tt; num_threads_ := n |}.

Definition empty_summary : WorkloadConfigResult :=
  {| bytes_per_second := None; microseconds_per_operation := None |}.

(** A summary with both fields set. *)
Definition summary (bytes micros : Z) : @WorkloadConfigResult collaborators :=
  {| bytes_per_second := Some bytes;
     microseconds_per_operation := Some micros |}.

Definition error (c : Code) : Status := {| code := c; error_message := EmptyString |}.

(** The state a schedule leads to (the entry of [Run] if it cannot be
    run). *)
Definition run (n : Z) (bench : Benchmark) (sched : list Tid) (w : World)
    (report : list WorkloadConfigResult) : State :=
  default (initial w report)
    (exec (runner n) bench sched (initial w report)).

(** Two workloads of one operation each, for one worker; the first call of
    [RunOp] fails with INTERNAL. *)
Definition two_workloads : Benchmark :=
  [workload Status_OK Status_OK 1; workload Status_OK Status_OK 1].
Definition fails_first : World := ([], [error INTERNAL]).

(** The main thread schedules the worker and checks its status before the
    worker has run; the worker then runs to its end; the main thread joins,
    tears down and reports; the second workload runs likewise. *)
Definition check_then_run : list Tid :=
  [MainThread; MainThread; MainThread]
  ++ replicate 4 (Worker 0)
  ++ [MainThread; MainThread]
  ++ [MainThread; MainThread; MainThread]
  ++ replicate 8 (Worker 0)
  ++ [MainThread; MainThread; MainThread].

(** The worker runs to its end before the main thread checks its status. *)
Definition run_then_check : list Tid :=
  [MainThread; MainThread] ++ replicate 4 (Worker 0)
  ++ [MainThread; MainThread].

(** One workload of two operations for two workers that act in turn, so
    that both read [approx_total_done] before either writes it. *)
Definition one_workload (n : Z) : Benchmark :=
  [workload Status_OK Status_OK n].
Definition all_succeed : World := ([], []).
Definition in_turn : list Tid :=
  replicate 5 MainThread
  ++ mjoin (replicate 8 [Worker 0; Worker 1])
  ++ [MainThread].

(** Five operations for two workers that run one after the other, up to
    the point where the main thread has left the pool block. *)
Definition one_by_one : list Tid :=
  replicate 5 MainThread
  ++ replicate 12 (Worker 0) ++ replicate 12 (Worker 1)
  ++ [MainThread].

(** A workload whose [SetUp] fails, and a world in which the third call of
    [CreateMetadataStore] fails. *)
Definition set_up_fails : Benchmark :=
  [workload (error UNAVAILABLE) Status_OK 4].
Definition third_store_fails : World :=
  ([Status_OK; Status_OK; error UNAVAILABLE], []).

(** A world in which the first two calls of [RunOp] answer ABORTED. *)
Definition aborts_twice : World := ([], [error ABORTED; error ABORTED]).

(** The states these schedules lead to. *)
Definition missed_state : State :=
  run 1 two_workloads check_then_run fails_first
    [empty_summary; empty_summary].
Definition seen_state : State :=
  run 1 two_workloads run_then_check fails_first
    [empty_summary; empty_summary].
Definition raced_state : State :=
  run 2 (one_workload 2) in_turn all_succeed [empty_summary].
Definition joined_state : State :=
  run 2 (one_workload 5) one_by_one all_succeed [empty_summary].
Definition retry_state : State :=
  run 1 (one_workload 1) [MainThread; MainThread; Worker 0] aborts_twice
    [empty_summary].


(** Worker 0 in [joined_state] and in [retry_state]. *)
Definition joined_worker : Thread :=
  default Thread_new (threads joined_state !! 0%nat).
Definition retry_worker : Thread :=
  default Thread_new (threads retry_state !! 0%nat).

(** The world with the given scripts. *)
Definition scripts (creates runs : list Status) : @World collaborators :=
  (creates, runs).

(** Statistics of [bytes] bytes in [n] operations. *)
Definition stats (bytes n : Z) : @ThreadStats collaborators := (bytes, n).


(** The run of [seen_state] when the main thread is about to check the
    status of the worker it has just scheduled, and when it has seen the
    fatal status. *)
Definition check_state : State :=
  run 1 two_workloads [MainThread; MainThread] fails_first
    [empty_summary; empty_summary].
Definition unwinding_state : State :=
  run 1 two_workloads
    ([MainThread; MainThread] ++ replicate 4 (Worker 0) ++ [MainThread])
    fails_first [empty_summary; empty_summary].
Definition check_worker : Thread :=
  default Thread_new (threads check_state !! 0%nat).

(** One declared operation for two workers, both run to their end. *)
Definition few_state : State :=
  run 2 (one_workload 1)
    (replicate 5 MainThread ++ replicate 4 (Worker 0)
     ++ replicate 4 (Worker 1))
    all_succeed [empty_summary].

(** The answers [RunOp] can still take from its script. *)
Definition budget (w : World) : nat := length (snd w).

End Scripted.

(** * Facts

    ** The log of a worker *)

Section Logs.
Context `{Collaborators}.

Lemma not_aborted_code st : not_aborted st = false <-> code st = ABORTED.
Proof. unfold not_aborted. destruct (code st); split; congruence. Qed.

(** Every action of a worker keeps its log in shape, whatever the other
    threads have done to the world and to the counter. *)
Lemma thread_step_inv workload i t k curr_store w done th w' done' th' evs log :
  thread_step workload i t k curr_store w done th = Some (w', done', th', evs) ->
  thread_inv i t k th log ->
  thread_inv i t k th' (evs ++ log).
Proof.
  unfold thread_step, thread_inv.
  destruct (pc th) eqn:Hpc; intros Hstep Hinv; try discriminate.
  - (* Queued *)
    injection Hstep as <- <- <- <-. destruct Hinv as [-> Hst]. simpl.
    split; [done|]. exists []. split; [done|]. constructor.
  - (* AtLoop *)
    destruct Hinv as [Hst (l & -> & Hl)].
    destruct (work_items_index th <? k * Z.of_nat t + k) eqn:Hlt.
    + apply Z.ltb_lt in Hlt.
      destruct (RunOp workload (work_items_index th) curr_store w)
        as [[w1 st] op] eqn:Hrun.
      destruct (ok st) eqn:Hok; simpl in Hstep.
      * injection Hstep as <- <- <- <-. simpl.
        replace (work_items_index th + 1 - 1) with (work_items_index th) by lia.
        split; [done|]. split; [done|]. by exists l, st.
      * destruct (not_aborted st) eqn:Hab; simpl in Hstep;
          injection Hstep as <- <- <- <-; simpl.
        -- split; [done|]. exists (EvRunOp i t (work_items_index th) st :: l).
           split; [done|]. right. repeat split; try done. by exists l.
        -- rewrite Hpc. split; [done|].
           exists (EvRunOp i t (work_items_index th) st :: l).
           split; [done|]. by constructor.
    + apply Z.ltb_ge in Hlt. injection Hstep as <- <- <- <-. simpl.
      split; [done|]. exists l. split; [done|]. left. done.
  - (* AtLoad *)
    injection Hstep as <- <- <- <-. simpl. done.
  - (* AtStore *)
    injection Hstep as <- <- <- <-. simpl.
    destruct Hinv as (Hst & Hlt & l & st & -> & Hok & Hl).
    split; [done|]. split; [done|]. by exists l, st, (loaded + 1).
  - (* AtUpdate *)
    injection Hstep as <- <- <- <-. simpl.
    destruct Hinv as (Hst & Hlt & l & st & v & -> & Hok & Hl).
    split; [done|].
    exists (EvUpdate i t done :: EvIncrement i t v
              :: EvRunOp i t (work_items_index th - 1) st :: l).
    split; [done|].
    replace (work_items_index th) with (work_items_index th - 1 + 1) at 1 by lia.
    by constructor.
  - (* Returned *)
    injection Hstep as <- <- <- <-. simpl.
    destruct Hinv as (-> & l & -> & Hl). by exists l.
  - (* AtStop *)
    injection Hstep as <- <- <- <-. simpl.
    destruct Hinv as (l & -> & Hl). by exists l.
Qed.

(** A worker only logs actions of its own. *)
Lemma thread_step_events workload i t k curr_store w done th w' done' th' evs :
  thread_step workload i t k curr_store w done th = Some (w', done', th', evs) ->
  Forall (fun e => ev_workload e = i /\ ev_thread e = Some t) evs.
Proof.
  unfold thread_step. intros Hstep.
  destruct (pc th); try discriminate;
    repeat match type of Hstep with
    | context [if ?b then _ else _] => destruct b
    | context [let '(_, _) := ?p in _] => destruct p as [[? ?] ?]
    end; injection Hstep as <- <- <- <-; repeat constructor.
Qed.

Lemma thread_log_app i t l1 l2 :
  thread_log i t (l1 ++ l2) = thread_log i t l1 ++ thread_log i t l2.
Proof. apply List.filter_app. Qed.

Lemma thread_log_own i t evs :
  Forall (fun e => ev_workload e = i /\ ev_thread e = Some t) evs ->
  thread_log i t evs = evs.
Proof.
  induction 1 as [|e evs [Hi Ht] _ IH]; [done|].
  unfold thread_log in *. simpl. unfold of_thread at 1.
  rewrite Hi, Ht, !Nat.eqb_refl. simpl. by rewrite IH.
Qed.

Lemma thread_log_other i t i' t' evs :
  Forall (fun e => ev_workload e = i /\ ev_thread e = Some t) evs ->
  (i', t') <> (i, t) ->
  thread_log i' t' evs = [].
Proof.
  intros Hevs Hne. induction Hevs as [|e evs [Hi Ht] _ IH]; [done|].
  unfold thread_log in *. simpl. unfold of_thread at 1. rewrite Hi, Ht.
  destruct (Nat.eqb_spec i i'), (Nat.eqb_spec t t'); simpl; try done.
  congruence.
Qed.

Lemma thread_log_main i t evs :
  Forall (fun e => ev_thread e = None) evs -> thread_log i t evs = [].
Proof.
  induction 1 as [|e evs He _ IH]; [done|].
  unfold thread_log in *. simpl. unfold of_thread at 1. rewrite He.
  by rewrite andb_false_r.
Qed.

Lemma thread_log_older i t tr :
  Forall (fun e => (ev_workload e < i)%nat) tr -> thread_log i t tr = [].
Proof.
  induction 1 as [|e evs He _ IH]; [done|].
  unfold thread_log in *. simpl. unfold of_thread at 1.
  destruct (Nat.eqb_spec (ev_workload e) i); [lia|done].
Qed.

Lemma elem_of_thread_log i t e tr :
  e ∈ thread_log i t tr -> e ∈ tr.
Proof.
  unfold thread_log. rewrite !list_elem_of_In, List.filter_In. tauto.
Qed.

(** ** What the shape of a log gives *)

Lemma loop_log_cursor i t start k c l :
  loop_log i t start k c l -> start <= c /\ (c <= start + k \/ c = start).
Proof. induction 1; lia. Qed.

Lemma loop_log_succeeded i t start k c l :
  loop_log i t start k c l ->
  reverse (omap ok_index l) = seqZ start (c - start).
Proof.
  induction 1 as [|c l st Hl IH Hc Hok Hab|c l st v d Hl IH Hc Hok].
  - by rewrite Z.sub_diag.
  - cbn [omap list_omap ok_index]. by rewrite Hok.
  - cbn [omap list_omap ok_index]. rewrite Hok. rewrite reverse_cons, IH.
    apply loop_log_cursor in Hl.
    replace (c + 1 - start) with ((c - start) + 1) by lia.
    rewrite seqZ_app by lia. f_equal.
    rewrite seqZ_cons, seqZ_nil by lia. f_equal. lia.
Qed.

Lemma loop_log_count (p : Event -> bool) i t start k c l :
  (forall i t c st, p (EvRunOp i t c st) = false) ->
  (forall i t v d, count p [EvUpdate i t d; EvIncrement i t v] = 1) ->
  loop_log i t start k c l ->
  count p l = c - start.
Proof.
  intros Hrun Hnext.
  induction 1 as [|c l st Hl IH Hc Hok Hab|c l st v d Hl IH Hc Hok].
  - unfold count. simpl. lia.
  - unfold count in *. simpl. by rewrite Hrun.
  - specialize (Hnext i t v d). unfold count in *. simpl in *.
    rewrite Hrun. destruct (p (EvUpdate i t d)), (p (EvIncrement i t v));
      simpl in *; lia.
Qed.

Lemma loop_log_attempted i t start k c l e :
  loop_log i t start k c l -> e ∈ l ->
  match e with
  | EvRunOp i' t' index st => i' = i /\ t' = t /\ start <= index < start + k /\
                              index <= c
  | EvIncrement i' t' _ | EvUpdate i' t' _ => i' = i /\ t' = t
  | _ => False
  end.
Proof.
  induction 1 as [|c l st Hl IH Hc Hok Hab|c l st v d Hl IH Hc Hok].
  - by intros ?%elem_of_nil.
  - pose proof (loop_log_cursor _ _ _ _ _ _ Hl).
    intros [->|He]%elem_of_cons; [lia|]. by apply IH.
  - pose proof (loop_log_cursor _ _ _ _ _ _ Hl).
    intros [->|[->|[->|He]%elem_of_cons]%elem_of_cons]%elem_of_cons;
      [done|done|lia|].
    specialize (IH He). destruct e; try done. lia.
Qed.

(** *** Counting events *)

Lemma count_app p l1 l2 : count p (l1 ++ l2) = count p l1 + count p l2.
Proof. unfold count. rewrite List.filter_app, length_app. lia. Qed.

Lemma count_cons p e l :
  count p (e :: l) = (if p e then 1 else 0) + count p l.
Proof. unfold count. simpl. destruct (p e); simpl; lia. Qed.

Lemma count_nonneg p l : 0 <= count p l.
Proof. unfold count. lia. Qed.

Lemma count_none p l : Forall (fun e => p e = false) l -> count p l = 0.
Proof.
  induction 1 as [|e l He _ IH]; [done|]. by rewrite count_cons, He, IH.
Qed.


(** *** Logs in numbers *)

Lemma loop_log_no_bracket i t start k c l :
  loop_log i t start k c l ->
  Forall (fun e => is_start e = false /\ is_stop e = false) l.
Proof.
  intros Hl. apply Forall_forall. intros e He.
  pose proof (loop_log_attempted _ _ _ _ _ _ _ Hl He). by destruct e.
Qed.

Lemma count_is_ok_run l :
  count is_ok_run l = Z.of_nat (length (omap ok_index l)).
Proof.
  unfold count. f_equal. induction l as [|e l IH]; [done|].
  cbn [omap list_omap List.filter]. destruct e; simpl; try done.
  destruct (ok st); simpl; by rewrite IH.
Qed.

Lemma loop_log_facts i t start k c l :
  0 <= k -> loop_log i t start k c l -> loop_facts start k c l.
Proof.
  intros Hk Hl. pose proof (loop_log_cursor _ _ _ _ _ _ Hl) as Hc.
  pose proof (loop_log_succeeded _ _ _ _ _ _ Hl) as Hsucc.
  split.
  - lia.
  - done.
  - by eapply loop_log_count.
  - by eapply loop_log_count.
  - rewrite count_is_ok_run, <- length_reverse, Hsucc, length_seqZ. lia.
  - apply count_none. eapply Forall_impl; [by eapply loop_log_no_bracket|].
    by intros e [? ?].
  - apply count_none. eapply Forall_impl; [by eapply loop_log_no_bracket|].
    by intros e [? ?].
Qed.

Lemma loop_facts_retry i t start k c l st :
  ok st = false -> loop_facts start k c l ->
  loop_facts start k c (EvRunOp i t c st :: l).
Proof.
  intros Hok [? ? ? ? ? ? ?].
  split; rewrite ?count_cons; cbn [omap list_omap ok_index is_update
    is_increment is_ok_run is_start is_stop]; rewrite ?Hok; try done.
Qed.

Lemma exit_log_facts i t start k st c l :
  0 <= k -> exit_log i t start k st c l ->
  loop_facts start k c l /\
  (ok st = true -> c = start + k) /\
  (ok st = false ->
     not_aborted st = true /\ c < start + k /\
     exists l', l = EvRunOp i t c st :: l').
Proof.
  intros Hk [(-> & Hl & Hc)|(Hok & Hab & Hc & l' & -> & Hl)].
  - apply (loop_log_facts _ _ _ _ _ _ Hk) in Hl as Hf. split; [done|].
    destruct Hf as [Hlc _ _ _ _ _ _]. split; [simpl; lia|done].
  - apply (loop_log_facts _ _ _ _ _ _ Hk) in Hl as Hf.
    split; [by apply loop_facts_retry|]. split; [congruence|eauto].
Qed.

Lemma reverse_omap_snoc {A} (f : Event -> option A) l e :
  f e = None -> reverse (omap f (l ++ [e])) = reverse (omap f l).
Proof.
  intros He. rewrite omap_app. cbn [omap list_omap]. rewrite He.
  by rewrite app_nil_r.
Qed.

Lemma thread_inv_idle i t k th log :
  thread_inv i t k th log -> started th = false ->
  log = [] /\ curr_status th = Status_OK.
Proof. unfold thread_inv, started. by destruct (pc th). Qed.

(** The counts of the events of a log given piece by piece. *)
Ltac count_events Hpc :=
  unfold uncounted, unrecorded, finished; rewrite ?Hpc;
  rewrite ?count_cons, ?count_app;
  cbn [is_update is_increment is_ok_run is_start is_stop];
  try match goal with
  | Hok : ok ?st = true |- context [ok ?st] => rewrite Hok
  end;
  try (unfold count at 2; simpl; lia).

(** The indices run successfully, one success after a log of the loop. *)
Ltac succeeded_after Hok Hls :=
  cbn [omap list_omap ok_index]; rewrite Hok, reverse_cons, Hls;
  match goal with
  | |- _ = seqZ ?start (?c - ?start) =>
      replace (c - start) with ((c - 1 - start) + 1) by lia
  end;
  rewrite seqZ_app by lia; f_equal;
  rewrite seqZ_cons, seqZ_nil by lia; f_equal; lia.

Lemma thread_inv_facts i t k th log :
  0 <= k -> thread_inv i t k th log -> started th = true ->
  thread_facts i t k th log.
Proof.
  intros Hk. unfold thread_inv, started.
  destruct (pc th) eqn:Hpc; try done; intros Hinv _.
  - (* AtLoop *)
    destruct Hinv as (_ & l & -> & Hl).
    destruct (loop_log_facts _ _ _ _ _ _ Hk Hl)
      as [Hlc Hls Hlu Hli Hlr Hla Hlo].
    split; count_events Hpc;
      rewrite ?reverse_omap_snoc by done; try done. by exists l.
  - (* AtLoad *)
    destruct Hinv as (_ & Hc & l & st & -> & Hok & Hl).
    destruct (loop_log_facts _ _ _ _ _ _ Hk Hl)
      as [Hlc Hls Hlu Hli Hlr Hla Hlo].
    split; count_events Hpc.
    + lia.
    + rewrite app_comm_cons, reverse_omap_snoc by done.
      succeeded_after Hok Hls.
    + by exists (EvRunOp i t (work_items_index th - 1) st :: l).
  - (* AtStore *)
    destruct Hinv as (_ & Hc & l & st & -> & Hok & Hl).
    destruct (loop_log_facts _ _ _ _ _ _ Hk Hl)
      as [Hlc Hls Hlu Hli Hlr Hla Hlo].
    split; count_events Hpc.
    + lia.
    + rewrite app_comm_cons, reverse_omap_snoc by done.
      succeeded_after Hok Hls.
    + by exists (EvRunOp i t (work_items_index th - 1) st :: l).
  - (* AtUpdate *)
    destruct Hinv as (_ & Hc & l & st & v & -> & Hok & Hl).
    destruct (loop_log_facts _ _ _ _ _ _ Hk Hl)
      as [Hlc Hls Hlu Hli Hlr Hla Hlo].
    split; count_events Hpc.
    + lia.
    + rewrite 2!app_comm_cons, reverse_omap_snoc by done.
      succeeded_after Hok Hls.
    + by exists (EvIncrement i t v
                   :: EvRunOp i t (work_items_index th - 1) st :: l).
  - (* Returned *)
    destruct Hinv as (_ & l & -> & Hl).
    destruct (exit_log_facts _ _ _ _ _ _ _ Hk Hl) as [[] _].
    split; count_events Hpc;
      rewrite ?reverse_omap_snoc by done; try done. by exists l.
  - (* AtStop *)
    destruct Hinv as (l & -> & Hl).
    destruct (exit_log_facts _ _ _ _ _ _ _ Hk Hl) as [[] _].
    split; count_events Hpc;
      rewrite ?reverse_omap_snoc by done; try done. by exists l.
  - (* Finished *)
    destruct Hinv as (l & -> & Hl).
    destruct (exit_log_facts _ _ _ _ _ _ _ Hk Hl) as [[] _].
    split; count_events Hpc.
    + done.
    + by rewrite app_comm_cons, reverse_omap_snoc.
    + by exists (EvStop i t :: l).
Qed.

(** *** What the invariant of a worker gives *)

(** Splits a membership in a list built with [::] and [++]. *)
Ltac split_elem He :=
  repeat match type of He with
  | _ ∈ _ :: _ => apply elem_of_cons in He as [He|He]
  | _ ∈ _ ++ _ => apply elem_of_app in He as [He|He]
  | _ ∈ [] => by apply elem_of_nil in He
  end.

(** The log of a worker that has called [Start()]: the loop between the
    bracket of [Start] and, once it has finished, [Stop]. *)
Lemma thread_inv_bracket i t k th log :
  thread_inv i t k th log -> started th = true ->
  exists l,
    log = (if finished th then [EvStop i t] else []) ++ l ++ [EvStart i t] /\
    Forall (fun e => is_start e = false /\ is_stop e = false) l.
Proof.
  assert (Hexit : forall st c l, exit_log i t (k * Z.of_nat t) k st c l ->
            Forall (fun e => is_start e = false /\ is_stop e = false) l).
  { intros st c l [(_ & Hl & _)|(_ & _ & _ & l' & -> & Hl)].
    - by eapply loop_log_no_bracket.
    - constructor; [done|]. by eapply loop_log_no_bracket. }
  unfold thread_inv, started, finished.
  destruct (pc th) eqn:Hpc; try done; intros Hinv _.
  - destruct Hinv as (_ & l & -> & Hl). exists l. split; [done|].
    by eapply loop_log_no_bracket.
  - destruct Hinv as (_ & _ & l & st & -> & _ & Hl).
    exists (EvRunOp i t (work_items_index th - 1) st :: l). split; [done|].
    constructor; [done|]. by eapply loop_log_no_bracket.
  - destruct Hinv as (_ & _ & l & st & -> & _ & Hl).
    exists (EvRunOp i t (work_items_index th - 1) st :: l). split; [done|].
    constructor; [done|]. by eapply loop_log_no_bracket.
  - destruct Hinv as (_ & _ & l & st & v & -> & _ & Hl).
    exists (EvIncrement i t v :: EvRunOp i t (work_items_index th - 1) st :: l).
    split; [done|]. do 2 (constructor; [done|]). by eapply loop_log_no_bracket.
  - destruct Hinv as (_ & l & -> & Hl). exists l. eauto.
  - destruct Hinv as (l & -> & Hl). exists l. eauto.
  - destruct Hinv as (l & -> & Hl). exists l. eauto.
Qed.

(** The log of a worker whose [ExecuteWorkload] has returned. *)
Lemma thread_inv_exit i t k th log st :
  thread_inv i t k th log -> returned th = Some st ->
  exists l,
    exit_log i t (k * Z.of_nat t) k st (work_items_index th) l /\
    log = (if finished th then [EvStop i t] else []) ++ l ++ [EvStart i t].
Proof.
  unfold thread_inv, returned, finished.
  destruct (pc th) eqn:Hpc; try done; intros Hinv [= <-].
  - destruct Hinv as (_ & l & -> & Hl). by exists l.
  - destruct Hinv as (l & -> & Hl). by exists l.
  - destruct Hinv as (l & -> & Hl). by exists l.
Qed.

(** A status a worker holds is never ABORTED. *)
Lemma thread_inv_status i t k th log :
  thread_inv i t k th log ->
  not_aborted (curr_status th) = true /\
  forall st, returned th = Some st -> not_aborted st = true.
Proof.
  assert (Hexit : forall st c l, exit_log i t (k * Z.of_nat t) k st c l ->
            not_aborted st = true).
  { by intros st c l [(-> & _)|(_ & ? & _)]. }
  unfold thread_inv, returned.
  destruct (pc th) eqn:Hpc; intros Hinv;
    try (destruct Hinv as [? Hst]; rewrite ?Hst; by split);
    try (destruct Hinv as [Hst ?]; rewrite ?Hst; by split).
  - destruct Hinv as (-> & l & _ & Hl). split; [done|].
    intros st [= <-]. eauto.
  - destruct Hinv as (l & _ & Hl). split; [eauto|].
    intros st [= <-]. eauto.
  - destruct Hinv as (l & _ & Hl). split; [eauto|].
    intros st [= <-]. eauto.
Qed.

(** Every action in the log of worker [t] is its own, and every index it
    has passed to [RunOp] lies in the range it owns. *)
Lemma thread_inv_events i t k th log e :
  thread_inv i t k th log -> e ∈ log ->
  ev_workload e = i /\ ev_thread e = Some t /\
  match e with
  | EvRunOp _ _ index _ => k * Z.of_nat t <= index < k * Z.of_nat t + k
  | _ => True
  end.
Proof.
  assert (Hloop : forall c l, loop_log i t (k * Z.of_nat t) k c l -> e ∈ l ->
    ev_workload e = i /\ ev_thread e = Some t /\
    match e with
    | EvRunOp _ _ index _ => k * Z.of_nat t <= index < k * Z.of_nat t + k
    | _ => True
    end).
  { intros c l Hl He. pose proof (loop_log_attempted _ _ _ _ _ _ _ Hl He).
    destruct e; simpl in *; try done;
      repeat match goal with H : _ /\ _ |- _ => destruct H end; subst;
      repeat split; lia. }
  assert (Hexit : forall st c l, exit_log i t (k * Z.of_nat t) k st c l ->
    e ∈ l ->
    ev_workload e = i /\ ev_thread e = Some t /\
    match e with
    | EvRunOp _ _ index _ => k * Z.of_nat t <= index < k * Z.of_nat t + k
    | _ => True
    end).
  { intros st c l [(_ & Hl & _)|(_ & _ & Hc & l' & -> & Hl)]; [by eauto|].
    pose proof (loop_log_cursor _ _ _ _ _ _ Hl).
    intros [->|He]%elem_of_cons; [simpl; repeat split; lia|by eauto]. }
  unfold thread_inv. destruct (pc th) eqn:Hpc; intros Hinv He.
  - destruct Hinv as [-> _]. split_elem He.
  - destruct Hinv as [-> _]. split_elem He.
  - destruct Hinv as (_ & l & -> & Hl).
    split_elem He; [by eauto|by subst].
  - destruct Hinv as (_ & Hc & l & st & -> & _ & Hl).
    pose proof (loop_log_cursor _ _ _ _ _ _ Hl).
    split_elem He; [subst; simpl; repeat split; lia|by eauto|by subst].
  - destruct Hinv as (_ & Hc & l & st & -> & _ & Hl).
    pose proof (loop_log_cursor _ _ _ _ _ _ Hl).
    split_elem He; [subst; simpl; repeat split; lia|by eauto|by subst].
  - destruct Hinv as (_ & Hc & l & st & v & -> & _ & Hl).
    pose proof (loop_log_cursor _ _ _ _ _ _ Hl).
    split_elem He;
      [by subst|subst; simpl; repeat split; lia|by eauto|by subst].
  - destruct Hinv as (_ & l & -> & Hl). split_elem He; [by eauto|by subst].
  - destruct Hinv as (l & -> & Hl). split_elem He; [by eauto|by subst].
  - destruct Hinv as (l & -> & Hl).
    split_elem He; [by subst|by eauto|by subst].
Qed.

(** How [ExecuteWorkload] has gone, read off the log. *)
Lemma thread_inv_outcome i t k th tr st :
  0 <= k -> thread_inv i t k th (thread_log i t tr) ->
  returned th = Some st -> outcome i t k st th tr.
Proof.
  intros Hk Hinv Hret.
  assert (Hstarted : started th = true).
  { unfold returned, started in *. by destruct (pc th). }
  assert (Hrec : unrecorded th = 0).
  { unfold returned, unrecorded in *. by destruct (pc th). }
  destruct (thread_inv_facts _ _ _ _ _ Hk Hinv Hstarted)
    as [Hc Hsucc _ _ Hupd _ _ _].
  destruct (thread_inv_exit _ _ _ _ _ _ Hinv Hret) as (l & Hl & Hlog).
  destruct (exit_log_facts _ _ _ _ _ _ _ Hk Hl) as (_ & Hok & Hfatal).
  unfold outcome, succeeded, updates. rewrite Hsucc, Hupd, Hrec. split.
  - intros Hst. specialize (Hok Hst). repeat split; [done| |lia].
    f_equal. lia.
  - intros Hst. destruct (Hfatal Hst) as (Hab & Hlt & l' & ->).
    repeat split; [done|lia|done|lia|].
    unfold attempted. rewrite last_reverse, Hlog.
    by destruct (finished th).
Qed.

(** *** Running a worker alone *)

Section Alone.
Variable workload : WorkloadBase.
Variables (i t : nat) (k : Z) (curr_store : option MetadataStore).

Lemma ExecuteWorkload_inv fuel w done th tr st w' done' th' tr' :
  ExecuteWorkload fuel workload i t k curr_store w done th tr
    = Some (st, w', done', th', tr') ->
  thread_inv i t k th (thread_log i t tr) ->
  pc th' = Returned st /\ thread_inv i t k th' (thread_log i t tr').
Proof.
  revert w done th tr. induction fuel as [|fuel IH]; intros w done th tr.
  - simpl. destruct (pc th) eqn:Hpc; try done. by intros [= <- <- <- <- <-].
  - simpl. intros Hrun Hinv.
    destruct (thread_step workload i t k curr_store w done th)
      as [[[[w1 done1] th1] evs]|] eqn:Hstep.
    + assert (Hinv1 : thread_inv i t k th1 (thread_log i t (evs ++ tr))).
      { rewrite thread_log_app, thread_log_own
          by by eapply thread_step_events.
        by eapply thread_step_inv. }
      destruct (pc th) eqn:Hpc; try by eauto.
      by injection Hrun as <- <- <- <- <-.
    + destruct (pc th) eqn:Hpc; try done.
      by injection Hrun as <- <- <- <- <-.
Qed.

Lemma ExecuteWorkload_returns budget fuel w done th tr :
  aborts_bounded workload budget ->
  in_loop th = true -> (actions_left t k th (budget w) <= fuel)%nat ->
  is_Some (ExecuteWorkload fuel workload i t k curr_store w done th tr).
Proof.
  intros Hbound. revert w done th tr.
  induction fuel as [|fuel IH]; intros w done th tr Hin Hfuel.
  - unfold actions_left, in_loop in *. simpl.
    destruct (pc th); try done; lia.
  - simpl. unfold in_loop in Hin.
    destruct (pc th) eqn:Hpc; try done; try by eexists.
    + (* AtLoop *)
      unfold thread_step. rewrite Hpc.
      unfold actions_left in Hfuel. rewrite Hpc in Hfuel.
      destruct (Z.ltb_spec (work_items_index th) (k * Z.of_nat t + k)).
      * specialize (Hbound (work_items_index th) curr_store w).
        destruct (RunOp workload (work_items_index th) curr_store w)
          as [[w1 st] op].
        destruct Hbound as [Hle Hlt].
        destruct (ok st) eqn:Hok; simpl.
        -- apply IH; [by unfold in_loop|].
           unfold actions_left. simpl. lia.
        -- destruct (not_aborted st) eqn:Hab; simpl.
           ++ apply IH; [by unfold in_loop|]. unfold actions_left. simpl. lia.
           ++ apply not_aborted_code in Hab. specialize (Hlt Hab).
              apply IH; [by unfold in_loop; rewrite Hpc|].
              unfold actions_left. rewrite Hpc. lia.
      * apply IH; [by unfold in_loop|]. unfold actions_left. simpl. lia.
    + unfold thread_step. rewrite Hpc.
      unfold actions_left in Hfuel. rewrite Hpc in Hfuel.
      apply IH; [by unfold in_loop|]. unfold actions_left. simpl. lia.
    + unfold thread_step. rewrite Hpc.
      unfold actions_left in Hfuel. rewrite Hpc in Hfuel.
      apply IH; [by unfold in_loop|]. unfold actions_left. simpl. lia.
    + unfold thread_step. rewrite Hpc.
      unfold actions_left in Hfuel. rewrite Hpc in Hfuel.
      apply IH; [by unfold in_loop|]. unfold actions_left. simpl. lia.
Qed.

End Alone.

(** *** ABORTED answers *)

Lemma omap_none {A B} (f : A -> option B) (l : list A) :
  Forall (fun x => f x = None) l -> omap f l = [].
Proof.
  induction 1 as [|x l Hx _ IH]; [done|]. cbn [omap list_omap].
  by rewrite Hx.
Qed.

Lemma thread_log_cons_own i t e tr :
  ev_workload e = i -> ev_thread e = Some t ->
  thread_log i t (e :: tr) = e :: thread_log i t tr.
Proof.
  intros Hi Ht. unfold thread_log. simpl. unfold of_thread at 1.
  by rewrite Hi, Ht, !Nat.eqb_refl.
Qed.

(** An ABORTED answer leaves the worker where it was. *)
Lemma thread_step_aborted workload i t k curr_store w done th w' st op :
  pc th = AtLoop -> work_items_index th < k * Z.of_nat t + k ->
  RunOp workload (work_items_index th) curr_store w = (w', st, op) ->
  code st = ABORTED ->
  thread_step workload i t k curr_store w done th
  = Some (w', done, th, [EvRunOp i t (work_items_index th) st]).
Proof.
  intros Hpc Hc Hrun Hab. unfold thread_step. rewrite Hpc.
  destruct (Z.ltb_spec (work_items_index th) (k * Z.of_nat t + k)); [|lia].
  rewrite Hrun. unfold ok, not_aborted. rewrite Hab. simpl.
  done.
Qed.

Lemma thread_steps_aborted n workload i t k curr_store w done th tr :
  pc th = AtLoop -> work_items_index th < k * Z.of_nat t + k ->
  aborts n workload (work_items_index th) curr_store w ->
  exists w' tr' calls,
    thread_steps n workload i t k curr_store w done th tr
    = Some (w', done, th, tr') /\
    length calls = n /\
    Forall (fun call => call.1 = work_items_index th /\
                        code call.2 = ABORTED) calls /\
    attempted i t tr' = attempted i t tr ++ calls /\
    succeeded i t tr' = succeeded i t tr /\
    updates i t tr' = updates i t tr.
Proof.
  intros Hpc Hc. revert w tr. induction n as [|n IH]; intros w tr; simpl.
  - intros _. exists w, tr, []. by rewrite app_nil_r.
  - destruct (RunOp workload (work_items_index th) curr_store w)
      as [[w1 st] op] eqn:Hrun.
    intros [Hab Hn].
    rewrite (thread_step_aborted _ _ _ _ _ _ _ _ _ _ _ Hpc Hc Hrun Hab).
    destruct (IH w1 ([EvRunOp i t (work_items_index th) st] ++ tr) Hn)
      as (w' & tr' & calls & -> & Hlen & Hcalls & Hatt & Hsucc & Hupd).
    exists w', tr', ((work_items_index th, st) :: calls).
    split; [done|]. split; [by rewrite <- Hlen|]. split; [by constructor|].
    rewrite Hatt, Hsucc, Hupd. unfold attempted, succeeded, updates. simpl.
    rewrite thread_log_cons_own by done.
    cbn [omap list_omap run_call ok_index]. rewrite count_cons. simpl.
    unfold ok. rewrite Hab. rewrite reverse_cons, <- app_assoc. done.
Qed.

End Logs.

(** ** Orderings in a trace *)

Lemma before_cons_other marker Q e tr :
  marker e = false -> before marker Q tr -> before marker Q (e :: tr).
Proof.
  intros He Htr [|e' A] e0 B; simpl; intros [= -> ->] Hm.
  - congruence.
  - by eapply Htr.
Qed.

Lemma before_app_other marker Q evs tr :
  Forall (fun e => marker e = false) evs ->
  before marker Q tr -> before marker Q (evs ++ tr).
Proof.
  induction 1 as [|e evs He _ IH]; [done|]. intros Htr. simpl.
  apply before_cons_other; auto.
Qed.

Lemma before_cons_marker marker (Q : Event -> Trace -> Prop) e tr :
  Q e tr -> before marker Q tr -> before marker Q (e :: tr).
Proof.
  intros He Htr [|e' A] e0 B; simpl; intros [= -> ->] Hm.
  - done.
  - by eapply Htr.
Qed.

Lemma thread_log_suffix i t A B :
  thread_log i t (A ++ B) = [] -> thread_log i t B = [].
Proof. rewrite thread_log_app. by intros [_ ?]%app_eq_nil. Qed.

Lemma before_no_thread_events marker i tr :
  (forall t, thread_log i t tr = []) ->
  before marker (fun _ B => forall t, thread_log i t B = []) tr.
Proof.
  intros Htr A e B -> _ t. specialize (Htr t).
  apply thread_log_suffix in Htr.
  by apply (thread_log_suffix i t [e] B) in Htr.
Qed.

Lemma worker_event_kinds i t evs :
  Forall (fun e => ev_workload e = i /\ ev_thread e = Some t) evs ->
  Forall (fun e => is_create_store e = false) evs /\
  forall j, Forall (fun e => is_tear_down j e = false) evs.
Proof.
  intros Hevs. split; [|intros j];
    (eapply Forall_impl; [exact Hevs|]); by intros [] [_ ?].
Qed.

(** ** Sums over the workers *)

Lemma sumZ_ext f g n :
  (forall t, (t < n)%nat -> f t = g t) -> sumZ f n = sumZ g n.
Proof.
  induction n as [|n IH]; [done|]. intros Hfg. simpl.
  rewrite IH, Hfg by (intros; try apply Hfg; lia). done.
Qed.

Lemma sumZ_le f g n :
  (forall t, (t < n)%nat -> f t <= g t) -> sumZ f n <= sumZ g n.
Proof.
  induction n as [|n IH]; [done|]. intros Hfg. simpl.
  assert (sumZ f n <= sumZ g n) by (apply IH; intros; apply Hfg; lia).
  assert (f n <= g n) by (apply Hfg; lia). lia.
Qed.

Lemma sumZ_const k n : sumZ (fun _ => k) n = Z.of_nat n * k.
Proof. induction n as [|n IH]; simpl; lia. Qed.

Lemma sumZ_add f g n :
  sumZ (fun t => f t + g t) n = sumZ f n + sumZ g n.
Proof. induction n as [|n IH]; simpl; lia. Qed.

Lemma sumZ_one t0 n :
  sumZ (fun t => if (t0 =? t)%nat then 1 else 0) n
  = if (t0 <? n)%nat then 1 else 0.
Proof.
  induction n as [|n IH]; [done|]. simpl. rewrite IH.
  destruct (Nat.ltb_spec t0 n), (Nat.eqb_spec t0 n),
    (Nat.ltb_spec t0 (S n)); lia.
Qed.

(** Counting the actions of a workload over all workers is summing the
    counts of the workers. *)
Lemma count_by_thread (q : Event -> bool) i n tr :
  (forall e, q e = true -> is_Some (ev_thread e)) ->
  Forall (fun e => ev_workload e = i ->
                   forall t, ev_thread e = Some t -> (t < n)%nat) tr ->
  count (fun e => (ev_workload e =? i)%nat && q e) tr
  = sumZ (fun t => count q (thread_log i t tr)) n.
Proof.
  intros Hq. induction 1 as [|e tr He _ IH].
  - rewrite (sumZ_ext _ (fun _ => 0)) by done.
    by rewrite sumZ_const, Z.mul_0_r.
  - rewrite count_cons, IH.
    rewrite (sumZ_ext (fun t => count q (thread_log i t (e :: tr)))
      (fun t => (if of_thread i t e && q e then 1 else 0)
                + count q (thread_log i t tr))).
    2:{ intros t _. unfold thread_log. simpl.
        destruct (of_thread i t e); simpl; [by rewrite count_cons|done]. }
    rewrite sumZ_add. f_equal.
    destruct (q e) eqn:Hqe.
    + destruct (Hq _ Hqe) as [t0 Ht0]. unfold of_thread. rewrite Ht0.
      destruct (Nat.eqb_spec (ev_workload e) i) as [Hi|Hi]; simpl.
      * rewrite (sumZ_ext _ (fun t => if (t0 =? t)%nat then 1 else 0))
          by (intros; by rewrite andb_true_r).
        rewrite sumZ_one. specialize (He Hi _ Ht0).
        by destruct (Nat.ltb_spec t0 n); [|lia].
      * by rewrite sumZ_const, Z.mul_0_r.
    + rewrite andb_false_r.
      rewrite (sumZ_ext _ (fun _ => 0))
        by (intros; by rewrite andb_false_r).
      by rewrite sumZ_const, Z.mul_0_r.
Qed.


(** ** The reachable states *)

Section Reachable.
Context `{Collaborators}.
Variable runner : ThreadRunner.
Variable benchmark : Benchmark.

Local Abbreviation step := (step runner benchmark).
Local Abbreviation main_step := (main_step runner benchmark).
Local Abbreviation worker_step := (worker_step benchmark).
Local Abbreviation exec := (exec runner benchmark).
Local Abbreviation reachable := (reachable runner benchmark).
Local Abbreviation serial_reachable := (serial_reachable runner benchmark).
Local Abbreviation main_action := (main_action runner benchmark).
Local Abbreviation Inv := (Inv runner benchmark).
Local Abbreviation pool_ok := (pool_ok runner benchmark).
Local Abbreviation N := (num_threads_ runner).
Local Abbreviation cfg := (mlmd_config_ runner).

(** *** The invariant is kept by every action *)

(** *** The events of provisioning *)

Lemma is_provision_spec i e :
  is_provision i e = true ->
  ev_workload e = i /\ ev_thread e = None /\ is_tear_down i e = false.
Proof. destruct e; simpl; try done; by intros ->%Nat.eqb_eq. Qed.

Lemma SetUpWorkload_trace i cfg workload w tr w1 st1 tr1 :
  SetUpWorkload i cfg workload w tr = (w1, st1, tr1) ->
  exists evs, tr1 = evs ++ tr /\ Forall (fun e => is_provision i e = true) evs.
Proof.
  unfold SetUpWorkload.
  destruct (CreateMetadataStore cfg w) as [[w' st'] store].
  destruct (negb (ok st')).
  - intros [= <- <- <-]. exists [EvCreateStore i st'].
    split; [done|]. repeat constructor; simpl; apply Nat.eqb_refl.
  - destruct (SetUp workload store w') as [w2 st2].
    destruct (negb (ok st2)); intros [= <- <- <-];
      exists [EvSetUp i st2; EvCreateStore i st'];
      (split; [done|]); repeat constructor; simpl; apply Nat.eqb_refl.
Qed.

Lemma PrepareStores_loop_trace i cfg n j w sts tr w' st' sts' tr' :
  PrepareStores_loop i cfg n j w sts tr = (w', st', sts', tr') ->
  length sts' = length sts /\
  exists evs, tr' = evs ++ tr /\ Forall (fun e => is_provision i e = true) evs.
Proof.
  revert j w sts tr. induction n as [|n IH]; intros j w sts tr; simpl.
  - intros [= <- <- <- <-]. split; [done|]. by exists [].
  - destruct (CreateMetadataStore cfg w) as [[w1 st1] store].
    destruct (negb (ok st1)).
    + intros [= <- <- <- <-]. split; [done|]. exists [EvCreateStore i st1].
      split; [done|]. repeat constructor; simpl; apply Nat.eqb_refl.
    + intros Hloop. apply IH in Hloop as (Hlen & evs & -> & Hevs).
      rewrite length_insert in Hlen. split; [done|].
      exists (evs ++ [EvCreateStore i st1]). rewrite <- app_assoc.
      split; [done|]. apply Forall_app. split; [done|].
      repeat constructor; simpl; apply Nat.eqb_refl.
Qed.

Lemma PrepareStoresForThreads_trace i cfg n w tr w' st' sts' tr' :
  PrepareStoresForThreads i cfg n w tr = (w', st', sts', tr') ->
  length sts' = Z.to_nat n /\
  exists evs, tr' = evs ++ tr /\ Forall (fun e => is_provision i e = true) evs.
Proof.
  unfold PrepareStoresForThreads. intros Hloop.
  apply PrepareStores_loop_trace in Hloop as [Hlen Hevs].
  by rewrite length_replicate in Hlen.
Qed.

(** *** Workers that can act *)

Lemma thread_step_active workload i t k curr_store w done th r :
  thread_step workload i t k curr_store w done th = Some r ->
  joined th = false /\ finished th = false /\ pc th <> Idle.
Proof. unfold thread_step, joined, finished. by destruct (pc th). Qed.

Lemma Forall_lookup_joined (ths : list Thread) t th :
  Forall (fun th => joined th = true) ths -> ths !! t = Some th ->
  joined th = true.
Proof. intros Hall Hth. by eapply (Forall_lookup_1 _ ths) in Hall. Qed.

Lemma Forall_lookup_finished (ths : list Thread) t th :
  Forall (fun th => finished th = true) ths -> ths !! t = Some th ->
  finished th = true.
Proof. intros Hall Hth. by eapply (Forall_lookup_1 _ ths) in Hall. Qed.

(** *** The invariant holds in every reachable state *)

Lemma Inv_initial w report : Inv (initial w report).
Proof.
  split; simpl.
  - by left.
  - intros t th. by rewrite lookup_nil.
  - unfold main_inv. simpl. split; [done|]. constructor.
  - constructor.
  - constructor.
Qed.

Lemma Inv_worker_step t s s' :
  Inv s -> worker_step t s = Some s' -> Inv s'.
Proof.
  intros [Hpool Hths Hmain Htr Hown]. unfold worker_step.
  destruct (benchmark !! workload_index s) as [workload|] eqn:Hwl; [|done].
  destruct (threads s !! t) as [th|] eqn:Hth; [|done].
  destruct (thread_step _ _ _ _ _ _ _ _) as [[[[w' done'] th'] evs]|] eqn:Hstep;
    [|done].
  intros [= <-].
  pose proof (thread_step_events _ _ _ _ _ _ _ _ _ _ _ _ Hstep) as Hevs.
  pose proof (thread_step_active _ _ _ _ _ _ _ _ _ Hstep) as (Hj & Hf & Hidle).
  pose proof (lookup_lt_Some _ _ _ Hth) as Hlt.
  split; simpl.
  - right. destruct Hpool as [Hnil|(? & ? & ? & ?)].
    + by rewrite Hnil in Hth.
    + unfold pool_ok. simpl. by rewrite length_insert.
  - intros t0 th0. rewrite thread_log_app.
    destruct (decide (t0 = t)) as [->|Hne].
    + rewrite list_lookup_insert_eq by done. intros [= <-].
      rewrite (thread_log_own _ _ _ Hevs).
      eapply thread_step_inv; [exact Hstep|]. by apply Hths.
    + rewrite list_lookup_insert_ne by done. intros Hth0.
      rewrite (thread_log_other _ _ _ _ _ Hevs) by congruence.
      by apply Hths.
  - unfold main_inv, pool_ok in *. simpl.
    destruct (main s) as [|tm|tm|st| |st]; rewrite ?length_insert.
    + destruct Hmain as [Hnil _]. by rewrite Hnil in Hth.
    + destruct Hmain as (Hp & Hle & Hidl).
      split; [exact Hp|]. split; [exact Hle|]. intros t' th0 Hge. destruct (decide (t' = t)) as [->|Hne].
      * by specialize (Hidl _ _ Hge Hth).
      * rewrite list_lookup_insert_ne by done. by apply Hidl.
    + destruct Hmain as (Hp & Hle & Hidl).
      split; [exact Hp|]. split; [exact Hle|]. intros t' th0 Hge. destruct (decide (t' = t)) as [->|Hne].
      * by specialize (Hidl _ _ Hge Hth).
      * rewrite list_lookup_insert_ne by done. by apply Hidl.
    + done.
    + destruct Hmain as [_ Hfin].
      pose proof (Forall_lookup_finished _ _ _ Hfin Hth). congruence.
    + pose proof (Forall_lookup_joined _ _ _ Hmain Hth). congruence.
  - apply Forall_app. split; [|done].
    eapply Forall_impl; [exact Hevs|]. simpl. intros e [-> _]. done.
  - rewrite length_insert. apply Forall_app. split; [|done].
    eapply Forall_impl; [exact Hevs|]. simpl. intros e [_ He] _ t0.
    rewrite He. by intros [= <-].
Qed.

Lemma forallb_Forall_true {A} (f : A -> bool) (l : list A) :
  forallb f l = true <-> Forall (fun x => f x = true) l.
Proof.
  induction l as [|x l IH]; simpl.
  - split; [constructor|done].
  - rewrite andb_true_iff, Forall_cons, IH. done.
Qed.

Lemma finished_joined (th : Thread) : finished th = true -> joined th = true.
Proof. unfold finished, joined. by destruct (pc th). Qed.

Lemma thread_log_cons_main i t e tr :
  ev_thread e = None -> thread_log i t (e :: tr) = thread_log i t tr.
Proof.
  intros He. unfold thread_log. simpl. unfold of_thread at 1. rewrite He.
  by rewrite andb_false_r.
Qed.

Lemma Inv_main_step s s' :
  Inv s -> main_step s = Some s' -> Inv s'.
Proof.
  intros [Hpool Hths Hmain Htr Hown]. unfold main_step, main_inv in *.
  destruct (main s) as [|tm|tm|st| |st] eqn:Hm.
  - (* AtWorkload *)
    destruct Hmain as [Hnil Hold].
    destruct (benchmark !! workload_index s) as [workload|] eqn:Hwl.
    2:{ intros [= <-]. split; simpl; try done.
        unfold main_inv. simpl. rewrite Hnil. constructor. }
    destruct (Z.leb_spec N 0) as [|HN]; [done|].
    destruct (SetUpWorkload _ _ _ _ _) as [[w1 st1] tr1] eqn:Hsetup.
    apply SetUpWorkload_trace in Hsetup as (evs1 & -> & Hevs1).
    assert (Hnew : forall evs,
      Forall (fun e => is_provision (workload_index s) e = true) evs ->
      Forall (fun e => (ev_workload e <= workload_index s)%nat)
        (evs ++ trace s) /\
      Forall (fun e => ev_workload e = workload_index s ->
                       forall t, ev_thread e = Some t ->
                                 (t < length (threads s))%nat)
        (evs ++ trace s) /\
      forall t, thread_log (workload_index s) t (evs ++ trace s) = []).
    { intros evs Hevs. rewrite !Forall_app. repeat split.
      - eapply Forall_impl; [exact Hevs|]. simpl.
        intros e (-> & _)%is_provision_spec. done.
      - done.
      - eapply Forall_impl; [exact Hevs|]. simpl.
        intros e (_ & -> & _)%is_provision_spec. done.
      - done.
      - intros t. rewrite thread_log_app, (thread_log_older _ _ _ Hold).
        rewrite thread_log_main; [done|].
        eapply Forall_impl; [exact Hevs|]. simpl.
        by intros e (_ & -> & _)%is_provision_spec. }
    destruct (negb (ok st1)).
    { intros [= <-]. destruct (Hnew _ Hevs1) as (? & ? & ?).
      split; simpl; try done;
        [intros t th; by rewrite Hnil, lookup_nil|].
      unfold main_inv. simpl. rewrite Hnil. constructor. }
    destruct (PrepareStoresForThreads _ _ _ _ _) as [[[w2 st2] sts] tr2] eqn:Hprep.
    apply PrepareStoresForThreads_trace in Hprep as (Hlen & evs2 & -> & Hevs2).
    rewrite app_assoc.
    assert (Hevs : Forall (fun e => is_provision (workload_index s) e = true)
                     (evs2 ++ evs1)) by by apply Forall_app.
    destruct (Hnew _ Hevs) as (Hle & Ho & Hlog).
    destruct (negb (ok st2)).
    { intros [= <-]. split; simpl; try done;
        [intros t th; by rewrite Hnil, lookup_nil|].
      unfold main_inv. simpl. rewrite Hnil. constructor. }
    destruct (summaries s !! workload_index s) as [summary|] eqn:Hsum; [|done].
    intros [= <-].
    assert (Hp : 0 < N /\
      length (replicate (Z.to_nat N) Thread_new) = Z.to_nat N /\
      is_Some (summaries s !! workload_index s) /\
      exists workload0,
        benchmark !! workload_index s = Some workload0 /\
        Z.quot (num_operations workload) N = Z.quot (num_operations workload0) N).
    { rewrite length_replicate, Hsum. repeat split; eauto. }
    split; simpl.
    + by right.
    + intros t th [-> _]%lookup_replicate. rewrite Hlog. by unfold thread_inv.
    + unfold main_inv. simpl. split; [exact Hp|]. split; [lia|].
      by intros t' th _ [-> _]%lookup_replicate.
    + done.
    + eapply Forall_impl; [exact Ho|]. simpl. intros e He Hi t Ht.
      specialize (He Hi t Ht). rewrite Hnil in He. simpl in He. lia.
  - (* AtSchedule *)
    destruct Hmain as (Hp & Hle & Hidl).
    destruct (Z.ltb_spec (Z.of_nat tm) N) as [Hlt|Hge].
    + destruct (threads s !! tm) as [th|] eqn:Hth; [|done].
      intros [= <-]. pose proof (Hidl _ _ (Nat.le_refl tm) Hth) as Hpc.
      split; simpl.
      * right. unfold pool_ok. simpl. by rewrite length_insert.
      * intros t th0. rewrite thread_log_cons_main by done.
        destruct (decide (t = tm)) as [->|Hne].
        -- rewrite list_lookup_insert_eq by by eapply lookup_lt_Some.
           intros [= <-]. specialize (Hths _ _ Hth).
           unfold thread_inv in *. simpl. by rewrite Hpc in Hths.
        -- rewrite list_lookup_insert_ne by done. apply Hths.
      * unfold main_inv, pool_ok. simpl. rewrite length_insert.
        split; [exact Hp|]. split; [done|]. intros t' th0 Hlt'.
        rewrite list_lookup_insert_ne by lia. apply Hidl. lia.
      * constructor; [done|]. done.
      * rewrite length_insert. constructor; [done|]. done.
    + destruct (forallb finished (threads s)) eqn:Hfin; [|done].
      intros [= <-]. apply forallb_Forall_true in Hfin.
      split; simpl; try done.
  - (* AtCheck *)
    destruct Hmain as (Hp & Hlt & Hidl).
    destruct (threads s !! tm) as [th|] eqn:Hth; [|done].
    destruct (ok (curr_status th)) eqn:Hok; simpl; intros [= <-].
    + split; simpl; try done. unfold main_inv. simpl.
      split; [exact Hp|]. split; [lia|]. intros t' th0 Hle. apply Hidl. lia.
    + split; simpl; try done.
  - (* Unwinding *)
    destruct (forallb joined (threads s)) eqn:Hj; [|done].
    intros [= <-]. apply forallb_Forall_true in Hj.
    split; simpl; try done.
  - (* AtTearDown *)
    destruct Hmain as (Hp & Hfin).
    destruct (benchmark !! workload_index s) as [workload|] eqn:Hwl; [|done].
    destruct (TearDown workload (world s)) as [w' st].
    destruct (negb (ok st)).
    + intros [= <-]. split; simpl.
      * done.
      * intros t th. rewrite thread_log_cons_main by done. apply Hths.
      * unfold main_inv. simpl.
        eapply Forall_impl; [exact Hfin|]. apply finished_joined.
      * by constructor.
      * by constructor.
    + destruct (summaries s !! workload_index s) as [summary|]; [|done].
      destruct (MergeThreadStatsAndReport _ _ _) as [summary'|]; [|done].
      intros [= <-]. split; simpl.
      * by left.
      * intros t th. by rewrite lookup_nil.
      * unfold main_inv. simpl. split; [done|].
        repeat (constructor; [simpl; lia|]).
        eapply Forall_impl; [exact Htr|]. simpl. lia.
      * repeat (constructor; [simpl; lia|]).
        eapply Forall_impl; [exact Htr|]. simpl. lia.
      * repeat (constructor; [simpl; lia|]).
        eapply Forall_impl; [exact Htr|]. simpl. lia.
  - done.
Qed.

Lemma Inv_step tid s s' : Inv s -> step tid s = Some s' -> Inv s'.
Proof.
  destruct tid; simpl; eauto using Inv_main_step, Inv_worker_step.
Qed.

Lemma reachable_Inv s : reachable s -> Inv s.
Proof. induction 1; eauto using Inv_initial, Inv_step. Qed.

(** *** Failures before the pool exists *)

Lemma exec_reachable sched s s' :
  reachable s -> exec sched s = Some s' -> reachable s'.
Proof.
  revert s. induction sched as [|tid sched IH]; simpl; intros s Hs.
  - by intros [= <-].
  - destruct (step tid s) as [s1|] eqn:Hstep; [|done].
    apply IH. by eapply reachable_step.
Qed.

Lemma exec_app sched1 sched2 s :
  exec (sched1 ++ sched2) s = exec sched1 s ≫= exec sched2.
Proof.
  revert s. induction sched1 as [|tid sched1 IH]; intros s; simpl; [done|].
  by destruct (step tid s).
Qed.

(** The reachable states are the states schedules lead to. *)
Lemma reachable_exec s :
  reachable s <->
  exists sched w report, exec sched (initial w report) = Some s.
Proof.
  split.
  - induction 1 as [w report|s tid s' _ (sched & w & report & Hexec) Hstep].
    + by exists [], w, report.
    + exists (sched ++ [tid]), w, report. rewrite exec_app, Hexec. simpl.
      by rewrite Hstep.
  - intros (sched & w & report & Hexec).
    eapply exec_reachable; [apply reachable_initial|exact Hexec].
Qed.

Lemma thread_step_joined workload i t k curr_store w done th :
  joined th = true -> thread_step workload i t k curr_store w done th = None.
Proof. unfold joined, thread_step. by destruct (pc th). Qed.

(** Once [Run] has returned nothing happens any more. *)
Lemma Done_stuck s st tid :
  reachable s -> main s = Done st -> step tid s = None.
Proof.
  intros [_ _ Hmain _ _]%reachable_Inv Hm.
  unfold main_inv in Hmain. rewrite Hm in Hmain.
  destruct tid as [|t]; simpl.
  - unfold main_step. by rewrite Hm.
  - unfold worker_step.
    destruct (benchmark !! workload_index s); [|done].
    destruct (threads s !! t) as [th|] eqn:Hth; [|done].
    rewrite thread_step_joined; [done|].
    by eapply Forall_lookup_joined.
Qed.

Lemma SetUpWorkload_fail i workload w tr w1 st1 tr1 :
  SetUpWorkload i cfg workload w tr = (w1, st1, tr1) -> ok st1 = false ->
  exists tr', tr1 = EvSetUp i st1 :: tr' \/ tr1 = EvCreateStore i st1 :: tr'.
Proof.
  unfold SetUpWorkload.
  destruct (CreateMetadataStore cfg w) as [[w' st'] store].
  destruct (ok st') eqn:Hok'; simpl.
  - destruct (SetUp workload store w') as [w2 st2].
    destruct (ok st2) eqn:Hok2; simpl; intros [= <- <- <-]; [done|]. eauto.
  - intros [= <- <- <-]. eauto.
Qed.

Lemma SetUpWorkload_ok i workload w tr w1 st1 tr1 :
  SetUpWorkload i cfg workload w tr = (w1, st1, tr1) -> ok st1 = true ->
  exists st st', ok st = true /\
    tr1 = EvSetUp i st :: EvCreateStore i st' :: tr.
Proof.
  unfold SetUpWorkload.
  destruct (CreateMetadataStore cfg w) as [[w' st'] store].
  destruct (ok st') eqn:Hok'; simpl.
  - destruct (SetUp workload store w') as [w2 st2].
    destruct (ok st2) eqn:Hok2; simpl; intros [= <- <- <-]; [|congruence].
    eauto.
  - intros [= <- <- <-]. congruence.
Qed.

Lemma PrepareStores_loop_fail i n j w sts tr w' st' sts' tr' :
  PrepareStores_loop i cfg n j w sts tr = (w', st', sts', tr') ->
  ok st' = false -> exists tr0, tr' = EvCreateStore i st' :: tr0.
Proof.
  revert j w sts tr. induction n as [|n IH]; intros j w sts tr; simpl.
  - intros [= <- <- <- <-]. done.
  - destruct (CreateMetadataStore cfg w) as [[w1 st1] store].
    destruct (ok st1) eqn:Hok1; simpl.
    + apply IH.
    + intros [= <- <- <- <-]. eauto.
Qed.

Lemma PrepareStoresForThreads_fail i w tr w' st' sts' tr' :
  PrepareStoresForThreads i cfg N w tr = (w', st', sts', tr') ->
  ok st' = false -> exists tr0, tr' = EvCreateStore i st' :: tr0.
Proof. apply PrepareStores_loop_fail. Qed.

Lemma provision_only i evs tr e :
  Forall (fun e => is_provision i e = true) evs ->
  Forall (fun e => (ev_workload e < i)%nat) tr ->
  e ∈ evs ++ tr -> ev_workload e = i -> is_provision i e = true.
Proof.
  intros Hevs Htr [He|He]%elem_of_app Hi.
  - by eapply (proj1 (Forall_forall _ _)) in Hevs.
  - eapply (proj1 (Forall_forall _ _)) in Htr; [|done]. simpl in Htr. lia.
Qed.

Lemma no_tear_down_yet i evs tr :
  Forall (fun e => is_provision i e = true) evs ->
  Forall (fun e => (ev_workload e < i)%nat) tr ->
  count (is_tear_down i) (evs ++ tr) = 0.
Proof.
  intros Hevs Htr. rewrite count_app, !count_none; [done| |].
  - eapply Forall_impl; [exact Htr|]. intros [] Hlt; simpl in *; try done.
    apply Nat.eqb_neq. lia.
  - eapply Forall_impl; [exact Hevs|]. simpl.
    by intros e (_ & _ & ?)%is_provision_spec.
Qed.

(** If [SetUp] (or the creation of its client handle) fails, or the
    creation of one of the per-worker client handles fails, [Run] returns
    that very status at once: the failing call is the last thing that
    happened, the report is untouched, no worker exists, the workload has
    logged nothing but provisioning calls (no [Schedule], no [RunOp]), and
    nothing happens afterwards. *)
Lemma failed_provisioning_returns
    s workload w1 st1 tr1 w2 st2 sts tr2 :
  reachable s -> main s = AtWorkload ->
  benchmark !! workload_index s = Some workload -> 0 < N ->
  SetUpWorkload (workload_index s) cfg workload (world s) (trace s)
    = (w1, st1, tr1) ->
  PrepareStoresForThreads (workload_index s) cfg N w1 tr1
    = (w2, st2, sts, tr2) ->
  ok st1 = false \/ ok st2 = false ->
  let st := if ok st1 then st2 else st1 in
  exists s',
    main_step s = Some s' /\ main s' = Done st /\
    (exists tr, trace s' = EvSetUp (workload_index s) st :: tr \/
                trace s' = EvCreateStore (workload_index s) st :: tr) /\
    summaries s' = summaries s /\ threads s' = [] /\
    (forall e, e ∈ trace s' -> ev_workload e = workload_index s ->
               is_provision (workload_index s) e = true) /\
    forall tid, step tid s' = None.
Proof.
  intros Hs Hm Hwl HN Hsetup Hprep Hfail st.
  pose proof (reachable_Inv _ Hs) as [_ _ Hmain _ _].
  unfold main_inv in Hmain. rewrite Hm in Hmain. destruct Hmain as [Hnil Hold].
  assert (Hstep : main_step s = Some
            (if ok st1 then return_from_Run st2 w2 tr2 s
             else return_from_Run st1 w1 tr1 s)).
  { unfold main_step. rewrite Hm, Hwl.
    destruct (Z.leb_spec N 0) as [|_]; [lia|]. rewrite Hsetup.
    destruct (ok st1); simpl; [|done]. rewrite Hprep.
    destruct Hfail as [?|Hok2]; [done|]. by rewrite Hok2. }
  destruct (SetUpWorkload_trace _ _ _ _ _ _ _ _ Hsetup) as (evs1 & Htr1 & Hevs1).
  destruct (PrepareStoresForThreads_trace _ _ _ _ _ _ _ _ _ Hprep)
    as (_ & evs2 & Htr2 & Hevs2).
  eexists. split; [exact Hstep|].
  assert (Hdone : main (if ok st1 then return_from_Run st2 w2 tr2 s
                        else return_from_Run st1 w1 tr1 s)
                  = Done st) by (subst st; by destruct (ok st1)).
  split; [exact Hdone|].
  split; [|split; [|split; [|split]]].
  - subst st. destruct (ok st1) eqn:Hok1; simpl.
    + destruct Hfail as [|Hok2]; [done|].
      destruct (PrepareStoresForThreads_fail _ _ _ _ _ _ _ Hprep Hok2) as [tr0 ->].
      eauto.
    + destruct (SetUpWorkload_fail _ _ _ _ _ _ _ Hsetup Hok1) as [tr0 [->| ->]];
        eauto.
  - by destruct (ok st1).
  - by destruct (ok st1).
  - intros e. destruct (ok st1); simpl.
    + rewrite Htr2, Htr1, app_assoc. apply provision_only; [|done].
      by apply Forall_app.
    + rewrite Htr1. by apply provision_only.
  - intros tid. eapply Done_stuck; [|exact Hdone].
    apply (reachable_step _ _ s MainThread); [exact Hs|exact Hstep].
Qed.

(** C10: if the creation of a per-worker client handle fails after [SetUp]
    has succeeded, [Run] returns the status of the failed creation and
    [TearDown] of that workload is never called: the trace holds its
    successful [SetUp] and no [TearDown], and nothing happens afterwards. *)
Theorem provisioning_failure_skips_tear_down
    s workload w1 st1 tr1 w2 st2 sts tr2 :
  reachable s -> main s = AtWorkload ->
  benchmark !! workload_index s = Some workload -> 0 < N ->
  SetUpWorkload (workload_index s) cfg workload (world s) (trace s)
    = (w1, st1, tr1) ->
  ok st1 = true ->
  PrepareStoresForThreads (workload_index s) cfg N w1 tr1
    = (w2, st2, sts, tr2) ->
  ok st2 = false ->
  exists s',
    main_step s = Some s' /\ main s' = Done st2 /\
    (exists tr, trace s' = EvCreateStore (workload_index s) st2 :: tr) /\
    (exists st, ok st = true /\ EvSetUp (workload_index s) st ∈ trace s') /\
    count (is_tear_down (workload_index s)) (trace s') = 0 /\
    forall tid, step tid s' = None.
Proof.
  intros Hs Hm Hwl HN Hsetup Hok1 Hprep Hok2.
  pose proof (reachable_Inv _ Hs) as [_ _ Hmain _ _].
  unfold main_inv in Hmain. rewrite Hm in Hmain. destruct Hmain as [Hnil Hold].
  assert (Hstep : main_step s = Some (return_from_Run st2 w2 tr2 s)).
  { unfold main_step. rewrite Hm, Hwl.
    destruct (Z.leb_spec N 0) as [|_]; [lia|]. rewrite Hsetup, Hok1. simpl.
    by rewrite Hprep, Hok2. }
  exists (return_from_Run st2 w2 tr2 s). split; [exact Hstep|].
  split; [done|]. simpl.
  destruct (PrepareStoresForThreads_fail _ _ _ _ _ _ _ Hprep Hok2) as [tr0 Htr0].
  split; [by exists tr0|].
  destruct (SetUpWorkload_ok _ _ _ _ _ _ _ Hsetup Hok1) as (st & st' & Hok & Htr1).
  destruct (PrepareStoresForThreads_trace _ _ _ _ _ _ _ _ _ Hprep)
    as (_ & evs2 & Htr2 & Hevs2).
  split; [|split].
  - exists st. split; [done|]. rewrite Htr2, Htr1.
    apply elem_of_app. right. by left.
  - destruct (SetUpWorkload_trace _ _ _ _ _ _ _ _ Hsetup) as (evs1 & Hevs1' & Hevs1).
    rewrite Htr2, Hevs1', app_assoc. apply no_tear_down_yet; [|done].
    by apply Forall_app.
  - intros tid. eapply Done_stuck with (st := st2); [|done].
    apply (reachable_step _ _ s MainThread); [exact Hs|exact Hstep].
Qed.

(** *** Induction over the reachable states *)

Lemma main_step_action s s' : main_step s = Some s' -> main_action s s'.
Proof.
  unfold main_step.
  destruct (main s) as [|tm|tm|st| |st] eqn:Hm.
  - destruct (benchmark !! workload_index s) as [workload|] eqn:Hwl.
    2:{ intros [= <-]. by constructor. }
    destruct (num_threads_ runner <=? 0); [done|].
    destruct (SetUpWorkload _ _ _ _ _) as [[w1 st1] tr1] eqn:Hsetup.
    destruct (SetUpWorkload_trace _ _ _ _ _ _ _ _ Hsetup) as (evs1 & Htr1 & Hevs1).
    destruct (ok st1) eqn:Hok1; simpl.
    2:{ intros [= <-]. rewrite Htr1. constructor; try done.
        rewrite <- Htr1. by eapply SetUpWorkload_fail. }
    destruct (PrepareStoresForThreads _ _ _ _ _) as [[[w2 st2] sts] tr2] eqn:Hprep.
    destruct (PrepareStoresForThreads_trace _ _ _ _ _ _ _ _ _ Hprep)
      as (_ & evs2 & Htr2 & Hevs2).
    assert (Htr : tr2 = (evs2 ++ evs1) ++ trace s)
      by by rewrite <- app_assoc, <- Htr1.
    assert (Hevs : Forall (fun e => is_provision (workload_index s) e = true)
                     (evs2 ++ evs1)) by by apply Forall_app.
    destruct (ok st2) eqn:Hok2; simpl.
    2:{ intros [= <-]. rewrite Htr. constructor; try done.
        rewrite <- Htr.
        destruct (PrepareStoresForThreads_fail _ _ _ _ _ _ _ Hprep Hok2)
          as [tr0 ->]. eauto. }
    destruct (summaries s !! workload_index s); [|done].
    intros [= <-]. rewrite Htr. by constructor.
  - destruct (Z.of_nat tm <? num_threads_ runner).
    + destruct (threads s !! tm) as [th|] eqn:Hth; [|done].
      intros [= <-]. by econstructor.
    + destruct (forallb finished (threads s)) eqn:Hfin; [|done].
      intros [= <-]. econstructor; [done|]. by apply forallb_Forall_true.
  - destruct (threads s !! tm) as [th|] eqn:Hth; [|done].
    destruct (ok (curr_status th)) eqn:Hok; simpl; intros [= <-].
    + by econstructor.
    + by econstructor.
  - destruct (forallb joined (threads s)) eqn:Hj; [|done].
    intros [= <-]. constructor; [done|]. by apply forallb_Forall_true.
  - destruct (benchmark !! workload_index s) as [workload|]; [|done].
    destruct (TearDown workload (world s)) as [w' st].
    destruct (ok st) eqn:Hok; simpl.
    + destruct (summaries s !! workload_index s); [|done].
      destruct (MergeThreadStatsAndReport _ _ _); [|done].
      intros [= <-]. by constructor.
    + intros [= <-]. by constructor.
  - done.
Qed.

(** Induction over the reachable states, with the invariant at hand. *)
Lemma reachable_induction (P : State -> Prop) :
  (forall w report, P (initial w report)) ->
  (forall s s', reachable s -> Inv s -> Inv s' -> P s ->
                main_action s s' -> P s') ->
  (forall s t s', reachable s -> Inv s -> Inv s' -> P s ->
                  worker_step t s = Some s' -> P s') ->
  forall s, reachable s -> P s.
Proof.
  intros Hinit Hmain Hworker s Hs.
  induction Hs as [|s tid s' Hs IH Hstep]; [done|].
  pose proof (reachable_Inv _ Hs) as HI.
  pose proof (Inv_step _ _ _ HI Hstep) as HI'.
  destruct tid as [|t]; simpl in Hstep.
  - eapply Hmain; eauto using main_step_action.
  - eapply Hworker; eauto.
Qed.

(** *** Orderings the engine keeps *)

(** What an action of a worker leaves alone. *)
Lemma worker_step_effect t s s' :
  worker_step t s = Some s' ->
  main s' = main s /\ workload_index s' = workload_index s /\
  summaries s' = summaries s /\ op_per_thread s' = op_per_thread s /\
  length (threads s') = length (threads s) /\
  exists evs,
    trace s' = evs ++ trace s /\
    Forall (fun e => ev_workload e = workload_index s /\
                     ev_thread e = Some t) evs.
Proof.
  unfold worker_step.
  destruct (benchmark !! workload_index s) as [workload|]; [|done].
  destruct (threads s !! t) as [th|]; [|done].
  destruct (thread_step _ _ _ _ _ _ _ _) as [[[[w' done'] th'] evs]|] eqn:Hstep;
    [|done].
  intros [= <-]. simpl. rewrite length_insert. repeat split; try done.
  exists evs. split; [done|]. by eapply thread_step_events.
Qed.

Lemma from_collaborator_app st evs tr :
  from_collaborator st tr -> from_collaborator st (evs ++ tr).
Proof.
  intros [j Hj]. exists j. rewrite !elem_of_app. tauto.
Qed.

(** The status [Run] returns is OK, a fatal status of [RunOp], or a status
    returned by [CreateMetadataStore], [SetUp] or [TearDown]. *)
Lemma status_provenance s :
  reachable s ->
  match main s with
  | Unwinding st => not_aborted st = true
  | Done st => not_aborted st = true \/ from_collaborator st (trace s)
  | _ => True
  end.
Proof.
  revert s. apply reachable_induction.
  - done.
  - intros s s' _ HI _ IH Hact.
    destruct Hact as [Hm Hwl|st w evs Hm Hok Hevs [tr Htr]|w evs op sts Hm Hevs
      |t th Hm Hth|t Hm Hfin|t th Hm Hth Hok|t th Hm Hth Hok|st Hm Hj
      |w st Hm Hok|w st summary Hm Hok]; simpl; try done.
    + by left.
    + right. exists (workload_index s).
      destruct Htr as [Htr|Htr]; rewrite Htr, !elem_of_cons; tauto.
    + destruct HI as [_ Hths _ _ _].
      by destruct (thread_inv_status _ _ _ _ _ (Hths _ _ Hth)).
    + rewrite Hm in IH. by left.
    + right. exists (workload_index s). rewrite !elem_of_cons. tauto.
  - intros s t s' _ _ _ IH (Hm & _ & _ & _ & _ & evs & -> & _)%worker_step_effect.
    rewrite Hm. destruct (main s); try done.
    destruct IH as [|IH]; [by left|right]. by apply from_collaborator_app.
Qed.

(** Every call of [CreateMetadataStore] is older than every action of a
    worker of the workload being run. *)
Lemma provisioning_first s :
  reachable s ->
  before is_create_store
    (fun _ B => forall t, thread_log (workload_index s) t B = []) (trace s).
Proof.
  revert s. apply reachable_induction.
  - intros w report A e B Heq. by destruct A.
  - intros s s' _ HI HI' IH Hact.
    destruct Hact as [Hm Hwl|st w evs Hm Hok Hevs [tr Htr]|w evs op sts Hm Hevs
      |t th Hm Hth|t Hm Hfin|t th Hm Hth Hok|t th Hm Hth Hok|st Hm Hj
      |w st Hm Hok|w st summary Hm Hok]; simpl; try done.
    + destruct HI as [_ _ Hmain _ _]. unfold main_inv in Hmain.
      rewrite Hm in Hmain. destruct Hmain as [_ Hold].
      apply before_no_thread_events. intros t.
      rewrite thread_log_app, (thread_log_older _ _ _ Hold).
      rewrite thread_log_main; [done|].
      eapply Forall_impl; [exact Hevs|]. simpl.
      by intros e (_ & -> & _)%is_provision_spec.
    + destruct HI as [_ _ Hmain _ _]. unfold main_inv in Hmain.
      rewrite Hm in Hmain. destruct Hmain as [_ Hold].
      apply before_no_thread_events. intros t.
      rewrite thread_log_app, (thread_log_older _ _ _ Hold).
      rewrite thread_log_main; [done|].
      eapply Forall_impl; [exact Hevs|]. simpl.
      by intros e (_ & -> & _)%is_provision_spec.
    + by apply before_cons_other.
    + by apply before_cons_other.
    + destruct HI' as [_ _ Hmain _ _]. unfold main_inv in Hmain.
      simpl in Hmain. destruct Hmain as [_ Hold].
      apply before_no_thread_events. intros t. by apply thread_log_older.
  - intros s t s' _ _ _ IH (_ & -> & _ & _ & _ & evs & -> & Hevs)%worker_step_effect.
    apply before_app_other; [|done].
    by destruct (worker_event_kinds _ _ _ Hevs).
Qed.

(** *** The workers: retry, outcome, bracket *)

(** C3: when [RunOp] answers ABORTED the worker's action leaves its cursor,
    its statistics and the shared counter as they were and the worker at
    the loop test, so that its next action is [RunOp] at the same index;
    this holds for any number [n] of ABORTED answers in a row; the status
    [ExecuteWorkload] returns is never ABORTED, no worker's status slot
    holds one, and if [Run] returns an ABORTED status, it is one that
    [CreateMetadataStore], [SetUp] or [TearDown] returned. *)
Theorem aborted_is_retried s t th :
  reachable s -> threads s !! t = Some th ->
  let i := workload_index s in
  let k := op_per_thread s in
  let c := work_items_index th in
  (forall workload curr_store w done w' st op,
     pc th = AtLoop -> c < k * Z.of_nat t + k ->
     RunOp workload c curr_store w = (w', st, op) -> code st = ABORTED ->
     thread_step workload i t k curr_store w done th
     = Some (w', done, th, [EvRunOp i t c st])) /\
  (forall n workload curr_store w done tr,
     pc th = AtLoop -> c < k * Z.of_nat t + k ->
     aborts n workload c curr_store w ->
     exists w' tr' calls,
       thread_steps n workload i t k curr_store w done th tr
       = Some (w', done, th, tr') /\
       length calls = n /\
       Forall (fun call => call.1 = c /\ code call.2 = ABORTED) calls /\
       attempted i t tr' = attempted i t tr ++ calls /\
       succeeded i t tr' = succeeded i t tr /\
       updates i t tr' = updates i t tr) /\
  (forall st, returned th = Some st -> code st <> ABORTED) /\
  code (curr_status th) <> ABORTED /\
  (forall st, main s = Done st -> code st = ABORTED ->
              from_collaborator st (trace s)).
Proof.
  intros Hs Hth i k c.
  pose proof (reachable_Inv _ Hs) as [_ Hths _ _ _].
  destruct (thread_inv_status _ _ _ _ _ (Hths _ _ Hth)) as [Hcur Hret].
  split; [|split; [|split; [|split]]].
  - intros. by eapply thread_step_aborted.
  - intros. by apply thread_steps_aborted.
  - intros st Hst Hab. apply not_aborted_code in Hab.
    specialize (Hret _ Hst). congruence.
  - intros Hab. apply not_aborted_code in Hab. congruence.
  - intros st Hm Hab. pose proof (status_provenance _ Hs) as Hprov.
    rewrite Hm in Hprov. destruct Hprov as [Hna|]; [|done].
    apply not_aborted_code in Hab. congruence.
Qed.

(** For a worker that owns [k >= 0] operations, whenever
    [ExecuteWorkload] has returned, its [outcome] holds: either the status
    is OK, the cursor is at the end of the range, the indices run
    successfully are the [k] owned ones in increasing order and [Update]
    was called [k] times; or the status is fatal, the failing call is the
    last call of [RunOp] by the worker and the indices before it were run
    and recorded.  When [k = 0], [RunOp] and [Update] are never called and
    the first action at the loop test returns OK.  And [ExecuteWorkload]
    does return, with that outcome, when the worker runs alone and [RunOp]
    cannot answer ABORTED for ever. *)
Lemma outcome_in_log s t th :
  reachable s -> threads s !! t = Some th -> 0 <= op_per_thread s ->
  let i := workload_index s in
  let k := op_per_thread s in
  (forall st, returned th = Some st -> outcome i t k st th (trace s)) /\
  (k = 0 ->
     attempted i t (trace s) = [] /\ updates i t (trace s) = 0 /\
     (pc th = AtLoop -> forall workload curr_store w done,
        thread_step workload i t k curr_store w done th
        = Some (w, done, set_pc (Returned Status_OK) th, []))) /\
  (forall workload budget curr_store,
     aborts_bounded workload budget -> pc th = AtLoop ->
     exists st w' done' th' tr',
       ExecuteWorkload
         (4 * Z.to_nat (k * Z.of_nat t + k - work_items_index th)
          + budget (world s) + 1)
         workload i t k curr_store (world s) (approx_total_done s) th
         (trace s)
       = Some (st, w', done', th', tr') /\
       pc th' = Returned st /\ outcome i t k st th' tr').
Proof.
  intros Hs Hth Hk i k.
  pose proof (reachable_Inv _ Hs) as [_ Hths _ _ _].
  specialize (Hths _ _ Hth). fold i k in Hths.
  split; [|split].
  - intros st Hst. by apply thread_inv_outcome.
  - intros Hk0.
    assert (Hatt : attempted i t (trace s) = []).
    { unfold attempted. rewrite omap_none; [done|].
      apply Forall_forall. intros e He.
      destruct (thread_inv_events _ _ _ _ _ _ Hths He) as (_ & _ & Hr).
      destruct e; try done. lia. }
    split; [done|].
    destruct (started th) eqn:Hst.
    + destruct (thread_inv_facts _ _ _ _ _ Hk Hths Hst)
        as [Hc _ _ _ Hupd _ _ _].
      pose proof (count_nonneg is_update (thread_log i t (trace s))) as Hge.
      split.
      * unfold updates. rewrite Hupd in *. unfold unrecorded in *.
        destruct (pc th); lia.
      * intros Hpc workload curr_store w done. unfold thread_step.
        rewrite Hpc.
        destruct (Z.ltb_spec (work_items_index th) (k * Z.of_nat t + k));
          [lia|done].
    + destruct (thread_inv_idle _ _ _ _ _ Hths Hst) as [Hlog _].
      split; [unfold updates; by rewrite Hlog|].
      intros Hpc. unfold started in Hst. by rewrite Hpc in Hst.
  - intros workload budget curr_store Hbound Hpc.
    destruct (ExecuteWorkload_returns workload i t k curr_store budget
                (4 * Z.to_nat (k * Z.of_nat t + k - work_items_index th)
                 + budget (world s) + 1)
                (world s) (approx_total_done s) th (trace s) Hbound)
      as [[[[[st w'] done'] th'] tr'] Hrun].
    { unfold in_loop. by rewrite Hpc. }
    { unfold actions_left. rewrite Hpc. lia. }
    exists st, w', done', th', tr'. split; [done|].
    destruct (ExecuteWorkload_inv _ _ _ _ _ _ _ _ _ _ _ _ _ _ _ Hrun Hths)
      as [Hpc' Hinv'].
    split; [done|]. apply thread_inv_outcome; [done|done|].
    unfold returned. by rewrite Hpc'.
Qed.

(** In the log of every worker [Start] occurs exactly once if the
    worker has begun and is then its oldest action, [Stop] occurs exactly
    once if the worker has finished and is then its newest action, whatever
    the status [ExecuteWorkload] returned; every [Update] is younger than
    [Start] and has no [Stop] before it; the action after [Start] is the
    loop test, the two actions after the return of [ExecuteWorkload] store
    the status and call [Stop]; and every call of [CreateMetadataStore] is
    older than all the actions of the worker. *)
Lemma bracket_in_log s t th :
  reachable s -> threads s !! t = Some th ->
  let i := workload_index s in
  let k := op_per_thread s in
  let log := thread_log i t (trace s) in
  count is_start log = (if started th then 1 else 0) /\
  count is_stop log = (if finished th then 1 else 0) /\
  (started th = true -> exists l, log = l ++ [EvStart i t]) /\
  (finished th = true -> exists l, log = EvStop i t :: l) /\
  (forall A d B, log = A ++ EvUpdate i t d :: B ->
                 EvStart i t ∈ B /\ EvStop i t ∉ B) /\
  (forall workload curr_store w done,
     (pc th = Queued ->
      exists th', thread_step workload i t k curr_store w done th
                  = Some (w, done, th', [EvStart i t]) /\ pc th' = AtLoop) /\
     (forall st, pc th = Returned st ->
      exists th', thread_step workload i t k curr_store w done th
                  = Some (w, done, th', []) /\ pc th' = AtStop) /\
     (pc th = AtStop ->
      exists th', thread_step workload i t k curr_store w done th
                  = Some (w, done, th', [EvStop i t]) /\
                  pc th' = Finished)) /\
  before is_create_store (fun _ B => thread_log i t B = []) (trace s).
Proof.
  intros Hs Hth i k log.
  pose proof (reachable_Inv _ Hs) as [_ Hths _ _ _].
  specialize (Hths _ _ Hth). fold i k log in Hths.
  assert (Hshape : started th = true ->
    exists l, log = (if finished th then [EvStop i t] else [])
                    ++ l ++ [EvStart i t] /\
              count is_start l = 0 /\ count is_stop l = 0).
  { intros Hst. destruct (thread_inv_bracket _ _ _ _ _ Hths Hst)
      as (l & Hlog & Hl).
    exists l. split; [done|].
    split; apply count_none; (eapply Forall_impl; [exact Hl|]);
      by intros e [? ?]. }
  assert (Hidle : started th = false -> log = [] /\ finished th = false).
  { intros Hst. destruct (thread_inv_idle _ _ _ _ _ Hths Hst) as [Hlog _].
    split; [done|]. unfold started, finished in *. by destruct (pc th). }
  split; [|split; [|split; [|split; [|split; [|split]]]]].
  - destruct (started th) eqn:Hst.
    + destruct (Hshape eq_refl) as (l & -> & Hl & _).
      rewrite !count_app, Hl. destruct (finished th); by vm_compute.
    + destruct (Hidle eq_refl) as [-> _]. done.
  - destruct (started th) eqn:Hst.
    + destruct (Hshape eq_refl) as (l & -> & _ & Hl).
      rewrite !count_app, Hl. destruct (finished th); by vm_compute.
    + destruct (Hidle eq_refl) as [-> ->]. done.
  - intros Hst. destruct (Hshape Hst) as (l & -> & _).
    eexists. by rewrite app_assoc.
  - intros Hfin. assert (Hst : started th = true).
    { unfold started, finished in *. by destruct (pc th). }
    destruct (Hshape Hst) as (l & -> & _). rewrite Hfin. by eexists.
  - intros A d B Hlog. destruct (started th) eqn:Hst.
    2:{ destruct (Hidle eq_refl) as [Hnil _]. rewrite Hnil in Hlog.
        by destruct A. }
    destruct (Hshape eq_refl) as (l & Hl & _ & Hstops). split.
    + assert (Hlast : last log = Some (EvStart i t)).
      { by rewrite Hl, !app_assoc, last_snoc. }
      rewrite Hlog, last_app_cons in Hlast.
      destruct (last B) as [e|] eqn:HB.
      * rewrite last_cons, HB in Hlast. injection Hlast as ->.
        by eapply last_Some_elem_of.
      * apply last_None in HB as ->. done.
    + intros HB. apply list_elem_of_split in HB as (B1 & B2 & ->).
      assert (Hcount : count is_stop log = if finished th then 1 else 0).
      { rewrite Hl, !count_app, Hstops. destruct (finished th); by vm_compute. }
      rewrite Hlog in Hcount, Hl.
      rewrite !count_app, !count_cons, count_app, count_cons in Hcount.
      simpl in Hcount.
      pose proof (count_nonneg is_stop A). pose proof (count_nonneg is_stop B1).
      pose proof (count_nonneg is_stop B2).
      destruct (finished th); [|lia].
      destruct A as [|e A]; [done|]. injection Hl as -> _.
      rewrite count_cons in Hcount. simpl in Hcount.
      pose proof (count_nonneg is_stop A). lia.
  - intros workload curr_store w done. unfold thread_step.
    split; [|split].
    + intros ->. by eexists.
    + intros st ->. by eexists.
    + intros ->. by eexists.
  - pose proof (provisioning_first _ Hs) as Hprov.
    intros A e B Heq He. by eapply Hprov.
Qed.

(** *** The partition of the operations *)

(** The pool of a workload that is being run. *)
Lemma pool_facts s workload :
  Inv s -> threads s <> [] ->
  benchmark !! workload_index s = Some workload ->
  0 < N /\ length (threads s) = Z.to_nat N /\
  op_per_thread s = Z.quot (num_operations workload) N.
Proof.
  intros [[Hnil|(HN & Hlen & _ & wl & Hwl & Hop)] _ _ _ _] Hne Hw; [done|].
  rewrite Hw in Hwl. by injection Hwl as <-.
Qed.

(** Every call of [RunOp] in the trace was made by a worker of the pool on
    an index of its own range. *)
Lemma RunOp_in_range s t index st :
  Inv s -> EvRunOp (workload_index s) t index st ∈ trace s ->
  (t < length (threads s))%nat /\
  op_per_thread s * Z.of_nat t <= index
    < op_per_thread s * Z.of_nat t + op_per_thread s.
Proof.
  intros [_ Hths _ _ Hown] He.
  pose proof (proj1 (Forall_forall _ _) Hown _ He eq_refl t eq_refl) as Hlt.
  split; [done|].
  destruct (lookup_lt_is_Some_2 _ _ Hlt) as [th Hth].
  assert (He' : EvRunOp (workload_index s) t index st
                ∈ thread_log (workload_index s) t (trace s)).
  { unfold thread_log. apply list_elem_of_In, List.filter_In.
    split; [by apply list_elem_of_In|].
    unfold of_thread. simpl. by rewrite !Nat.eqb_refl. }
  by destruct (thread_inv_events _ _ _ _ _ _ (Hths _ _ Hth) He') as (_ & _ & ?).
Qed.

(** The cursor of a worker and the bounds of its range stay between 0 and
    the declared number of operations: no [int64] of [ExecuteWorkload]
    overflows, which is why the model computes in [Z]. *)
Lemma indices_fit_int64 s workload t th :
  reachable s -> benchmark !! workload_index s = Some workload ->
  0 <= num_operations workload < 2 ^ 63 ->
  threads s !! t = Some th -> started th = true ->
  let k := op_per_thread s in
  0 <= k * Z.of_nat t /\
  k * Z.of_nat t + k <= num_operations workload /\
  0 <= work_items_index th <= num_operations workload.
Proof.
  intros Hs Hwl HT Hth Hst k.
  pose proof (reachable_Inv _ Hs) as HI.
  assert (Hne : threads s <> []) by (intros Hnil; by rewrite Hnil in Hth).
  destruct (pool_facts _ _ HI Hne Hwl) as (HN & Hlen & Hop). fold k in Hop.
  assert (Hk : 0 <= k) by (rewrite Hop; apply Z.quot_pos; lia).
  pose proof (lookup_lt_Some _ _ _ Hth) as Hlt. rewrite Hlen in Hlt.
  pose proof (Z.quot_rem' (num_operations workload) N) as Hqr.
  pose proof (Z.rem_nonneg (num_operations workload) N) as Hrem.
  rewrite <- Hop in Hqr. destruct HI as [_ Hths _ _ _].
  destruct (thread_inv_facts _ _ _ _ _ Hk (Hths _ _ Hth) Hst) as [Hc _ _ _ _ _ _ _].
  fold k in Hc. nia.
Qed.


(** *** TearDown *)

Lemma provision_no_tear_down i j evs :
  Forall (fun e => is_provision i e = true) evs ->
  count (is_tear_down j) evs = 0.
Proof.
  intros Hevs. apply count_none. eapply Forall_impl; [exact Hevs|].
  by intros [].
Qed.

Lemma reachable_tear_down_counts s : reachable s -> tear_down_counts s.
Proof.
  revert s. apply reachable_induction.
  - intros w report. unfold tear_down_counts. simpl.
    split; [|split]; [intros; lia|done|done].
  - intros s s' _ _ _ (IHa & IHb & IHc) Hact. unfold tear_down_counts.
    destruct Hact as [Hm Hwl|st w evs Hm Hok Hevs _|w evs op sts Hm Hevs
      |t th Hm Hth|t Hm Hfin|t th Hm Hth Hok|t th Hm Hth Hok|st Hm Hj
      |w st Hm Hok|w st summary Hm Hok]; simpl; rewrite Hm in IHc.
    all: (split; [|split]; [intros j Hlt|intros j Hlt|]);
      rewrite ?count_app, ?count_cons; simpl;
      try rewrite (provision_no_tear_down _ _ _ Hevs);
      try (pose proof (IHa j); pose proof (IHb j));
      pose proof (IHb (S (workload_index s)));
      repeat match goal with
      | |- context [(?a =? ?b)%nat] => destruct (Nat.eqb_spec a b); try subst
      end; lia.
  - intros s t s' _ _ _ (IHa & IHb & IHc)
      (Hm & Hi & _ & _ & _ & evs & Htr & Hevs)%worker_step_effect.
    unfold tear_down_counts. rewrite Hm, Hi, Htr.
    destruct (worker_event_kinds _ _ _ Hevs) as [_ Hnone].
    assert (Hc : forall j, count (is_tear_down j) (evs ++ trace s)
                           = count (is_tear_down j) (trace s)).
    { intros j. by rewrite count_app, (count_none _ _ (Hnone j)). }
    rewrite Hc. split; [|split; [|done]]; intros j Hj; rewrite Hc; auto.
Qed.

(** When [TearDown] of a workload is called, each of its [N] workers has
    called [Stop()]. *)
Lemma reachable_stops_first s j :
  reachable s ->
  before (is_tear_down j)
    (fun _ B => forall t, Z.of_nat t < N -> EvStop j t ∈ B) (trace s).
Proof.
  revert s. apply reachable_induction.
  - intros w report A e B Heq. by destruct A.
  - intros s s' _ HI _ IH Hact.
    assert (Hstops : main s = AtTearDown ->
      forall t, Z.of_nat t < N -> EvStop (workload_index s) t ∈ trace s).
    { intros Hm t Ht. destruct HI as [_ Hths Hmain _ _].
      unfold main_inv in Hmain. rewrite Hm in Hmain.
      destruct Hmain as [(_ & Hlen & _) Hfin].
      destruct (lookup_lt_is_Some_2 (threads s) t) as [th Hth]; [lia|].
      pose proof (Forall_lookup_finished _ _ _ Hfin Hth) as Hf.
      specialize (Hths _ _ Hth). unfold thread_inv, finished in *.
      destruct (pc th); try done. destruct Hths as (l & Hlog & _).
      eapply elem_of_thread_log. rewrite Hlog. by left. }
    destruct Hact as [Hm Hwl|st w evs Hm Hok Hevs _|w evs op sts Hm Hevs
      |t th Hm Hth|t Hm Hfin|t th Hm Hth Hok|t th Hm Hth Hok|st Hm Hj
      |w st Hm Hok|w st summary Hm Hok]; simpl; try done.
    + apply before_app_other; [|done].
      eapply Forall_impl; [exact Hevs|]. by intros [].
    + apply before_app_other; [|done].
      eapply Forall_impl; [exact Hevs|]. by intros [].
    + by apply before_cons_other.
    + destruct (Nat.eqb_spec (workload_index s) j) as [<-|Hne].
      * apply before_cons_marker; auto.
      * apply before_cons_other; [|done]. simpl. by apply Nat.eqb_neq.
    + apply before_cons_other; [done|].
      destruct (Nat.eqb_spec (workload_index s) j) as [<-|Hne].
      * apply before_cons_marker; auto.
      * apply before_cons_other; [|done]. simpl. by apply Nat.eqb_neq.
  - intros s t s' _ _ _ IH (_ & _ & _ & _ & _ & evs & -> & Hevs)%worker_step_effect.
    apply before_app_other; [|done].
    by destruct (worker_event_kinds _ _ _ Hevs) as [_ ?].
Qed.

(** C6, as the code has it: [TearDown] of a workload is called at most
    once, and exactly once for every workload the engine has gone past;
    whenever it is called, all [N] workers of that workload have called
    [Stop()] before.  Once the main thread has left the pool block it does
    call [TearDown]; if that fails, [Run] returns the status, the report is
    as before and nothing happens afterwards.  If, instead, a status check
    in the scheduling loop sees the fatal status of a worker, [Run] returns
    it without calling [TearDown]. *)
Theorem TearDown_after_workers s :
  reachable s ->
  let i := workload_index s in
  (forall j, count (is_tear_down j) (trace s) <= 1) /\
  (forall j, (j < i)%nat -> count (is_tear_down j) (trace s) = 1) /\
  (forall j, before (is_tear_down j)
               (fun _ B => forall t, Z.of_nat t < N -> EvStop j t ∈ B)
               (trace s)) /\
  (main s = AtTearDown ->
     Forall (fun th => finished th = true) (threads s) /\
     length (threads s) = Z.to_nat N /\
     count (is_tear_down i) (trace s) = 0 /\
     exists s' st,
       main_step s = Some s' /\
       count (is_tear_down i) (trace s') = 1 /\
       EvTearDown i st ∈ trace s' /\
       (ok st = true -> main s' = AtWorkload /\ workload_index s' = S i) /\
       (ok st = false ->
          main s' = Done st /\ summaries s' = summaries s /\
          forall tid, step tid s' = None)) /\
  (forall st, main s = Unwinding st ->
     count (is_tear_down i) (trace s) = 0 /\
     forall s', main_step s = Some s' ->
                main s' = Done st /\ trace s' = trace s).
Proof.
  intros Hs i.
  pose proof (reachable_tear_down_counts _ Hs) as (Ha & Hb & Hc).
  pose proof (reachable_Inv _ Hs) as HI.
  split; [|split; [|split; [|split]]].
  - intros j. destruct (Nat.lt_trichotomy j i) as [Hj|[->|Hj]].
    + rewrite Ha; [lia|done].
    + fold i in Hc. destruct (main s); lia.
    + rewrite Hb; [lia|done].
  - done.
  - intros j. by apply reachable_stops_first.
  - intros Hm. rewrite Hm in Hc. fold i in Hc.
    destruct HI as [_ _ Hmain _ _]. unfold main_inv in Hmain.
    rewrite Hm in Hmain.
    destruct Hmain as [(HN & Hlen & [summary Hsum] & workload & Hwl & _) Hfin].
    split; [done|]. split; [done|]. split; [done|].
    destruct (TearDown workload (world s)) as [w' st] eqn:Htd.
    destruct (MergeThreadStatsAndReport (GetName workload)
                (curr_thread_stats <$> threads s) summary)
      as [summary'|] eqn:Hmerge.
    2:{ unfold MergeThreadStatsAndReport, MergeThreadStats in Hmerge.
        destruct (threads s); [simpl in Hlen; lia|done]. }
    assert (Hstep : exists s', main_step s = Some s' /\
      (ok st = true -> s' =
         {| world := w'; summaries := <[i := summary']> (summaries s);
            main := AtWorkload; workload_index := S i;
            op_per_thread := op_per_thread s; stores := [];
            approx_total_done := approx_total_done s; threads := [];
            trace := EvReport i :: EvTearDown i st :: trace s |}) /\
      (ok st = false ->
         s' = return_from_Run st w' (EvTearDown i st :: trace s) s)).
    { unfold main_step. rewrite Hm, Hwl, Htd.
      destruct (ok st); simpl.
      - rewrite Hsum, Hmerge. eexists. split; [done|]. by split.
      - eexists. split; [done|]. by split. }
    destruct Hstep as (s' & Hstep & Hok & Hfail). exists s', st.
    split; [done|].
    destruct (ok st) eqn:Hst.
    + rewrite (Hok eq_refl). simpl. rewrite !count_cons. simpl.
      fold i. rewrite Nat.eqb_refl, Hc.
      repeat split; try done. right. by left.
    + rewrite (Hfail eq_refl). simpl. rewrite !count_cons. simpl.
      fold i. rewrite Nat.eqb_refl, Hc.
      repeat split; try done; [by left|].
      intros tid. eapply Done_stuck with (st := st).
      * apply (reachable_step _ _ s MainThread); [exact Hs|].
        simpl. rewrite Hstep. f_equal. exact (Hfail eq_refl).
      * done.
  - intros st Hm. rewrite Hm in Hc. split; [done|].
    intros s'. unfold main_step. rewrite Hm.
    destruct (forallb joined (threads s)); [|done]. by intros [= <-].
Qed.

(** *** The progress counter *)

Lemma increments_cons i e tr :
  increments i (e :: tr)
  = (if (ev_workload e =? i)%nat && is_increment e then 1 else 0)
    + increments i tr.
Proof. apply count_cons. Qed.

Lemma increments_fresh i evs tr :
  Forall (fun e => is_provision i e = true) evs ->
  Forall (fun e => (ev_workload e < i)%nat) tr ->
  increments i (evs ++ tr) = 0.
Proof.
  intros Hevs Htr. unfold increments. rewrite count_app, !count_none; [done| |].
  - eapply Forall_impl; [exact Htr|]. simpl. intros e He.
    destruct (Nat.eqb_spec (ev_workload e) i); [lia|done].
  - eapply Forall_impl; [exact Hevs|]. simpl. intros [] He; try done;
      by rewrite andb_false_r.
Qed.

Lemma insert_nonempty {A} (l : list A) t x : <[t := x]> l <> [] -> l <> [].
Proof. by destruct l. Qed.

(** A thread found in [<[t := th']> ths] at a [pc] that [th'] is not at is
    a thread of [ths]. *)
Ltac other_thread Hl Hp :=
  match type of Hl with
  | <[?t := _]> _ !! ?t' = Some _ =>
      destruct (decide (t' = t)) as [->|?];
      [rewrite list_lookup_insert_eq in Hl by (by eapply lookup_lt_Some);
       injection Hl as <-; simpl in Hp; try congruence
      |rewrite list_lookup_insert_ne in Hl by done]
  end.

Lemma counter_inv_step (R : Z -> Z -> Prop) tid s s' :
  (forall a b, R a b -> R (a + 1) (b + 1)) -> R 0 0 ->
  (forall a b, R a b -> R a (b + 1)) \/ ~ racing s ->
  Inv s -> counter_inv R s -> step tid s = Some s' -> counter_inv R s'.
Proof.
  intros Hsucc Hzero Hrace HI IH Hstep. unfold counter_inv in *.
  destruct tid as [|t]; simpl in Hstep.
  - apply main_step_action in Hstep.
    destruct HI as [_ _ Hmain _ _]. unfold main_inv in Hmain.
    destruct Hstep as [Hm Hwl|st w evs Hm Hok Hevs _|w evs op sts Hm Hevs
      |t th Hm Hth|t Hm Hfin|t th Hm Hth Hok|t th Hm Hth Hok|st Hm Hj
      |w st Hm Hok|w st summary Hm Hok]; simpl; try done;
      rewrite Hm in Hmain.
    + by destruct Hmain as [Hnil _].
    + destruct Hmain as [_ Hold]. intros _.
      rewrite (increments_fresh _ _ _ Hevs Hold). split; [done|].
      by intros t th op0 v [-> _]%lookup_replicate.
    + intros Hne%insert_nonempty. destruct (IH Hne) as [IH1 IH2].
      rewrite increments_cons. simpl. rewrite andb_false_r. simpl.
      split; [done|]. intros t' th0 op0 v Hl Hp. other_thread Hl Hp. eauto.
    + intros Hne. destruct (IH Hne) as [IH1 IH2].
      rewrite increments_cons. simpl. rewrite andb_false_r. simpl. eauto.
  - unfold worker_step in Hstep.
    destruct (benchmark !! workload_index s) as [workload|]; [|done].
    destruct (threads s !! t) as [th|] eqn:Hth; [|done].
    assert (Hne : threads s <> []) by (intros Hnil; by rewrite Hnil in Hth).
    destruct (IH Hne) as [IH1 IH2]. clear IH.
    unfold thread_step in Hstep.
    destruct (pc th) eqn:Hpc; try done.
    + (* Queued *)
      injection Hstep as <-. simpl. intros _.
      rewrite increments_cons. simpl. rewrite andb_false_r. simpl.
      split; [done|]. intros t' th0 op0 v Hl Hp. other_thread Hl Hp. eauto.
    + (* AtLoop *)
      destruct (work_items_index th <? _).
      * destruct (RunOp workload _ _ _) as [[w1 st] op1].
        destruct (negb (ok st) && not_aborted st);
          [|destruct (negb (ok st))]; injection Hstep as <-; simpl;
          intros _; rewrite increments_cons; simpl;
          rewrite andb_false_r; simpl; (split; [done|]);
          intros t' th0 op0 v Hl Hp; other_thread Hl Hp; eauto.
      * injection Hstep as <-. simpl. intros _. split; [done|].
        intros t' th0 op0 v Hl Hp. other_thread Hl Hp. eauto.
    + (* AtLoad *)
      injection Hstep as <-. simpl. intros _. split; [done|].
      intros t' th0 op0 v Hl Hp. other_thread Hl Hp. eauto.
    + (* AtStore *)
      injection Hstep as <-. simpl. intros _.
      rewrite increments_cons. simpl. rewrite Nat.eqb_refl. simpl.
      rewrite (Z.add_comm 1). split; [by eauto|].
      intros t' th0 op0 v Hl Hp. other_thread Hl Hp.
      destruct Hrace as [Hmono|Hnr].
      * apply Hmono. eauto.
      * destruct Hnr. by exists t', t, th0, th, op0, v, op_stats, loaded.
    + (* AtUpdate *)
      injection Hstep as <-. simpl. intros _.
      rewrite increments_cons. simpl. rewrite andb_false_r. simpl.
      split; [done|]. intros t' th0 op0 v Hl Hp. other_thread Hl Hp. eauto.
    + (* Returned *)
      injection Hstep as <-. simpl. intros _. split; [done|].
      intros t' th0 op0 v Hl Hp. other_thread Hl Hp. eauto.
    + (* AtStop *)
      injection Hstep as <-. simpl. intros _.
      rewrite increments_cons. simpl. rewrite andb_false_r. simpl.
      split; [done|]. intros t' th0 op0 v Hl Hp. other_thread Hl Hp. eauto.
Qed.

Lemma counter_inv_initial R w report : counter_inv R (initial w report).
Proof. by intros Hne. Qed.

(** The counter never exceeds the number of writes to it. *)
Lemma reachable_counter s : reachable s -> counter_inv Z.le s.
Proof.
  induction 1 as [|s tid s' Hs IH Hstep]; [apply counter_inv_initial|].
  eapply (counter_inv_step Z.le);
    [lia|done|left; lia| |exact IH|exact Hstep].
  by apply reachable_Inv.
Qed.

Lemma serial_reachable_reachable s : serial_reachable s -> reachable s.
Proof.
  induction 1; [constructor|]. by eapply reachable_step.
Qed.

Lemma serial_not_racing s : serial_reachable s -> ~ racing s.
Proof.
  destruct 1 as [w report|]; [|done].
  intros (t1 & t2 & th1 & ? & ? & ? & ? & ? & _ & Hth & _). by simpl in Hth.
Qed.

(** When increments do not overlap the counter is the number of writes. *)
Lemma serial_counter s : serial_reachable s -> counter_inv eq s.
Proof.
  induction 1 as [|s tid s' Hs IH Hstep Hnr]; [apply counter_inv_initial|].
  eapply (counter_inv_step eq);
    [lia|done|right; by apply serial_not_racing| |exact IH|exact Hstep].
  by apply reachable_Inv, serial_reachable_reachable.
Qed.

(** With one worker there is nobody to overlap with. *)
Lemma single_worker_not_racing s : Inv s -> N = 1 -> ~ racing s.
Proof.
  intros [Hpool _ _ _ _] HN
    (t1 & t2 & th1 & th2 & ? & ? & ? & ? & Hne & Hth1 & _ & Hth2 & _).
  apply lookup_lt_Some in Hth1, Hth2.
  destruct Hpool as [Hnil|(_ & Hlen & _)].
  - rewrite Hnil in Hth1. simpl in Hth1. lia.
  - rewrite Hlen, HN in Hth1, Hth2. lia.
Qed.

Lemma single_worker_serial s : N = 1 -> reachable s -> serial_reachable s.
Proof.
  intros HN. induction 1 as [|s tid s' Hs IH Hstep]; [constructor|].
  eapply serial_step; [exact IH|exact Hstep|].
  apply single_worker_not_racing; [|done].
  eapply Inv_step; [|exact Hstep]. by apply reachable_Inv.
Qed.

(** C8, as the code has it: [approx_total_done] is a plain integer.  A
    worker increments it in two actions, a read and later a write of the
    value read plus one, and no other action changes it while a workload
    runs.  It never exceeds the number of writes, which never exceeds the
    number of operations completed; when all [N] workers have finished
    without a fatal status there were [N*(T/N)] writes, so the counter is
    at most [N*(T/N)], and it is [N*(T/N)] if no two workers were between
    their read and their write at the same time, as is the case when
    [N = 1]. *)
Theorem progress_counter_bound s workload :
  reachable s -> 1 <= N ->
  benchmark !! workload_index s = Some workload ->
  0 <= num_operations workload ->
  threads s <> [] ->
  let i := workload_index s in
  let k := Z.quot (num_operations workload) N in
  (forall t th op s',
     threads s !! t = Some th -> pc th = AtLoad op ->
     step (Worker t) s = Some s' ->
     approx_total_done s' = approx_total_done s /\
     exists th', threads s' !! t = Some th' /\
                 pc th' = AtStore op (approx_total_done s)) /\
  (forall tid s',
     step tid s = Some s' -> approx_total_done s' <> approx_total_done s ->
     exists t th op v,
       tid = Worker t /\ threads s !! t = Some th /\
       pc th = AtStore op v /\ approx_total_done s' = v + 1) /\
  approx_total_done s <= increments i (trace s) /\
  increments i (trace s) <= completed i (trace s) /\
  (Forall (fun th => finished th = true /\ ok (curr_status th) = true)
     (threads s) ->
   increments i (trace s) = N * k /\
   approx_total_done s <= N * k /\
   (serial_reachable s -> approx_total_done s = N * k) /\
   (N = 1 -> approx_total_done s = N * k)).
Proof.
  intros Hs HN Hwl HT Hne i k.
  pose proof (reachable_Inv _ Hs) as HI.
  destruct (pool_facts _ _ HI Hne Hwl) as (_ & Hlen & Hop). fold k in Hop.
  assert (Hk : 0 <= k) by (apply Z.quot_pos; lia).
  destruct (reachable_counter _ Hs Hne) as [Hle _]. fold i in Hle.
  destruct HI as [_ Hths Hmain _ Hown].
  assert (Hsum : forall q, (forall e, q e = true -> is_Some (ev_thread e)) ->
    count (fun e => (ev_workload e =? i)%nat && q e) (trace s)
    = sumZ (fun t => count q (thread_log i t (trace s)))
        (length (threads s))).
  { intros q Hq. by apply count_by_thread. }
  assert (Hfacts : forall t th, threads s !! t = Some th ->
    (started th = false /\ thread_log i t (trace s) = []) \/
    thread_facts i t k th (thread_log i t (trace s))).
  { intros t th Hth. specialize (Hths _ _ Hth). fold i in Hths.
    rewrite Hop in Hths. destruct (started th) eqn:Hst.
    - right. by apply thread_inv_facts.
    - left. split; [done|]. by destruct (thread_inv_idle _ _ _ _ _ Hths Hst). }
  split; [|split; [|split; [done|split]]].
  - intros t th op s' Hth Hpc. simpl. unfold worker_step.
    rewrite Hwl, Hth. unfold thread_step. rewrite Hpc. intros [= <-]. simpl.
    split; [done|]. eexists.
    split; [apply list_lookup_insert_eq; by eapply lookup_lt_Some|done].
  - intros [|t] s'; simpl.
    + intros Hact%main_step_action Hdiff. unfold main_inv in Hmain.
      destruct Hact as [Hm Hwl'|st w evs Hm Hok Hevs _|w evs op sts Hm Hevs
        |t th Hm Hth|t Hm Hfin|t th Hm Hth Hok|t th Hm Hth Hok|st Hm Hj
        |w st Hm Hok|w st summary Hm Hok]; simpl in Hdiff; try done.
      rewrite Hm in Hmain. by destruct Hmain.
    + unfold worker_step. rewrite Hwl.
      destruct (threads s !! t) as [th|] eqn:Hth; [|done].
      unfold thread_step. destruct (pc th) eqn:Hpc; try done;
        repeat match goal with
        | |- context [if ?b then _ else _] => destruct b
        | |- context [let '(_, _) := ?p in _] => destruct p as [[? ?] ?]
        end; intros [= <-]; simpl; try done.
      intros _. by exists t, th, op_stats, loaded.
  - unfold increments, completed. rewrite !Hsum by by intros [].
    apply sumZ_le. intros t Hlt.
    destruct (lookup_lt_is_Some_2 _ _ Hlt) as [th Hth].
    destruct (Hfacts _ _ Hth) as [[_ ->]|[_ _ Hruns Hinc _ _ _ _]]; [done|].
    rewrite Hruns, Hinc. unfold uncounted. destruct (pc th); lia.
  - intros Hall.
    assert (Hinc : increments i (trace s) = N * k).
    { unfold increments. rewrite Hsum by by intros [].
      rewrite (sumZ_ext _ (fun _ => k)).
      { rewrite sumZ_const, Hlen. lia. }
      intros t Hlt. destruct (lookup_lt_is_Some_2 _ _ Hlt) as [th Hth].
      destruct (proj1 (Forall_forall _ _) Hall th) as [Hfin Hok].
      { by eapply list_elem_of_lookup_2. }
      assert (Hret : returned th = Some (curr_status th)).
      { unfold returned, finished in *. by destruct (pc th). }
      specialize (Hths _ _ Hth). fold i in Hths. rewrite Hop in Hths.
      destruct (thread_inv_outcome _ _ _ _ _ _ Hk Hths Hret) as [Hout _].
      destruct (Hout Hok) as (Hc & _ & _).
      destruct (Hfacts _ _ Hth) as [[Hst _]|[_ _ _ Hinc _ _ _ _]].
      { unfold started, finished in *. by destruct (pc th). }
      rewrite Hinc. unfold uncounted, finished in *. destruct (pc th); try done.
      lia. }
    assert (Hserial : serial_reachable s -> approx_total_done s = N * k).
    { intros Hserial. destruct (serial_counter _ Hserial Hne) as [Heq _].
      fold i in Heq. lia. }
    split; [done|]. split; [lia|]. split; [done|].
    intros HN1. by apply Hserial, single_worker_serial.
Qed.

End Reachable.

(** ** Merging in any order *)

Section MergeOrder.
Context `{Collaborators}.
Hypothesis Merge_comm : forall a b, Merge a b = Merge b a.
Hypothesis Merge_assoc : forall a b c, Merge (Merge a b) c = Merge a (Merge b c).

Lemma fold_Merge_Permutation (l l' : list ThreadStats) :
  l ≡ₚ l' -> forall a, fold_left Merge l a = fold_left Merge l' a.
Proof.
  induction 1 as [|x l l' _ IH|x y l|l l' l'' _ IH1 _ IH2]; intros a; simpl.
  - done.
  - apply IH.
  - f_equal. by rewrite !Merge_assoc, (Merge_comm y x).
  - by rewrite IH1.
Qed.

(** C7: when [Merge] is commutative and associative, the merged statistics
    and the summary written by [MergeThreadStatsAndReport] are the same
    for every order of the per-worker statistics. *)
Theorem Merge_order_irrelevant (l l' : list ThreadStats) :
  l ≡ₚ l' ->
  MergeThreadStats l = MergeThreadStats l' /\
  forall workload_name workload_summary,
    MergeThreadStatsAndReport workload_name l workload_summary
    = MergeThreadStatsAndReport workload_name l' workload_summary.
Proof.
  intros Hperm.
  assert (Hmerge : MergeThreadStats l = MergeThreadStats l').
  { induction Hperm as [|x l l' Hl _|x y l|l l' l'' _ IH1 _ IH2]; simpl.
    - done.
    - f_equal. by apply fold_Merge_Permutation.
    - f_equal. by rewrite (Merge_comm y x).
    - by rewrite IH1. }
  split; [done|]. intros name summary.
  unfold MergeThreadStatsAndReport. by rewrite Hmerge.
Qed.

End MergeOrder.

(** ** The provisioning loop *)

Section ProvisioningFacts.
Context `{Collaborators}.

Lemma create_events_S wi cfg w calls :
  create_events wi cfg w (S calls)
  = create_events wi cfg (CreateMetadataStore cfg w).1.1 calls
    ++ [EvCreateStore wi (CreateMetadataStore cfg w).1.2].
Proof.
  unfold create_events. simpl. rewrite reverse_cons. f_equal.
  f_equal. rewrite <- fmap_S_seq, <- list_fmap_compose. done.
Qed.

Lemma PrepareStores_loop_spec wi cfg n j w sts tr w' st sts' tr' :
  PrepareStores_loop wi cfg n j w sts tr = (w', st, sts', tr') ->
  (j + n <= length sts)%nat ->
  exists calls : nat,
    (calls <= n)%nat /\
    w' = after_creates cfg calls w /\
    tr' = create_events wi cfg w calls ++ tr /\
    (ok st = true ->
       st = Status_OK /\ calls = n /\
       (forall m, (m < n)%nat ->
          ok (create_status cfg w m) = true /\
          sts' !! (j + m)%nat = Some (create_handle cfg w m)) /\
       forall p, (p < j \/ j + n <= p)%nat -> sts' !! p = sts !! p) /\
    (ok st = false ->
       exists f : nat,
         calls = S f /\ st = create_status cfg w f /\
         (forall m, (m < f)%nat ->
            ok (create_status cfg w m) = true /\
            sts' !! (j + m)%nat = Some (create_handle cfg w m)) /\
         forall p, (p < j \/ j + f <= p)%nat -> sts' !! p = sts !! p).
Proof.
  revert j w sts tr. induction n as [|n IH]; intros j w sts tr; simpl.
  - intros [= <- <- <- <-] _. exists 0%nat.
    split; [done|]. split; [done|]. split; [done|]. split; [|done].
    intros _. split; [done|]. split; [done|]. split; [|done]. intros m Hm. lia.
  - destruct (CreateMetadataStore cfg w) as [[w1 st1] store] eqn:Hcall.
    destruct (ok st1) eqn:Hok1; simpl.
    + intros Hloop Hlen.
      apply IH in Hloop as (calls & Hcalls & Hw & Htr & Hok & Hfail);
        [|rewrite length_insert; lia].
      assert (Hshift : forall m,
        create_status cfg w (S m) = create_status cfg w1 m /\
        create_handle cfg w (S m) = create_handle cfg w1 m).
      { intros m. unfold create_status, create_handle. simpl.
        by rewrite Hcall. }
      assert (Hzero : create_status cfg w 0 = st1 /\
                      create_handle cfg w 0 = store).
      { unfold create_status, create_handle. simpl. by rewrite Hcall. }
      assert (Hj : forall sts0 : list (option MetadataStore),
        (forall p, (p < S j \/ False)%nat -> sts0 !! p = <[j := store]> sts !! p) ->
        sts0 !! (j + 0)%nat = Some (create_handle cfg w 0)).
      { intros sts0 Hsame. rewrite Nat.add_0_r, Hsame by lia.
        rewrite list_lookup_insert_eq by lia. by destruct Hzero as [_ ->]. }
      exists (S calls). split; [lia|].
      split; [simpl; by rewrite Hcall|].
      split.
      { rewrite create_events_S, Hcall, Htr, <- app_assoc. done. }
      split.
      * intros Hst. destruct (Hok Hst) as (-> & -> & Hfill & Hsame).
        split; [done|]. split; [done|]. split.
        -- intros [|m] Hm.
           ++ destruct Hzero as [-> _]. split; [done|].
              apply Hj. intros p Hp. apply Hsame. lia.
           ++ destruct (Hshift m) as [-> ->].
              replace (j + S m)%nat with (S j + m)%nat by lia.
              apply Hfill. lia.
        -- intros p Hp. rewrite Hsame by lia.
           apply list_lookup_insert_ne. lia.
      * intros Hst. destruct (Hfail Hst) as (f & -> & -> & Hfill & Hsame).
        exists (S f). split; [done|]. split; [by destruct (Hshift f) as [-> _]|].
        split.
        -- intros [|m] Hm.
           ++ destruct Hzero as [-> _]. split; [done|].
              apply Hj. intros p Hp. apply Hsame. lia.
           ++ destruct (Hshift m) as [-> ->].
              replace (j + S m)%nat with (S j + m)%nat by lia.
              apply Hfill. lia.
        -- intros p Hp. rewrite Hsame by lia.
           apply list_lookup_insert_ne. lia.
    + intros [= <- <- <- <-] Hlen. exists 1%nat.
      split; [lia|]. split; [simpl; by rewrite Hcall|].
      split.
      { unfold create_events, create_status. simpl. by rewrite Hcall. }
      split; [congruence|]. intros _. exists 0%nat.
      split; [done|]. split.
      { unfold create_status. simpl. by rewrite Hcall. }
      split; [|done]. intros m Hm. lia.
Qed.

(** The calls [PrepareStoresForThreads] makes, as events. *)
Lemma PrepareStoresForThreads_calls wi cfg num_threads w tr w' st stores tr' :
  PrepareStoresForThreads wi cfg num_threads w tr = (w', st, stores, tr') ->
  exists calls : nat,
    (calls <= Z.to_nat num_threads)%nat /\
    tr' = create_events wi cfg w calls ++ tr /\
    (ok st = true ->
       calls = Z.to_nat num_threads /\
       forall j, (j < calls)%nat -> ok (create_status cfg w j) = true).
Proof.
  unfold PrepareStoresForThreads. intros Hprep.
  apply PrepareStores_loop_spec in Hprep
    as (calls & Hcalls & _ & Htr & Hok & _);
    [|rewrite length_replicate; lia].
  exists calls. split; [done|]. split; [done|].
  intros Hst. destruct (Hok Hst) as (_ & -> & Hfill & _).
  split; [done|]. intros j Hj. by destruct (Hfill j Hj).
Qed.

(** X1: [PrepareStoresForThreads] for [num_threads >= 0] calls
    [CreateMetadataStore] in a row, each call in the world the previous one
    left, and stops at the first call that fails.  It returns a vector of
    [num_threads] entries.  If it returns OK, it has made exactly
    [num_threads] calls, all successful, entry [j] holds the handle of call
    [j], and the status is [Status::OK()] itself.  Otherwise the status is
    the one of the failing call [f], no call was made after it, the entries
    before [f] hold the handles of their calls and the entries from [f] on
    are still null. *)
Theorem PrepareStoresForThreads_in_order
    wi cfg num_threads w tr w' st stores tr' :
  0 <= num_threads ->
  PrepareStoresForThreads wi cfg num_threads w tr = (w', st, stores, tr') ->
  let n := Z.to_nat num_threads in
  exists calls : nat,
    (calls <= n)%nat /\ length stores = n /\
    w' = after_creates cfg calls w /\
    tr' = create_events wi cfg w calls ++ tr /\
    (ok st = true ->
       st = Status_OK /\ calls = n /\
       forall j, (j < n)%nat ->
         ok (create_status cfg w j) = true /\
         stores !! j = Some (create_handle cfg w j)) /\
    (ok st = false ->
       exists f : nat,
         calls = S f /\ st = create_status cfg w f /\
         (forall j, (j < f)%nat ->
            ok (create_status cfg w j) = true /\
            stores !! j = Some (create_handle cfg w j)) /\
         forall j, (f <= j < n)%nat -> stores !! j = Some None).
Proof.
  intros _ Hprep n.
  pose proof (PrepareStoresForThreads_trace _ _ _ _ _ _ _ _ _ Hprep) as [Hlen _].
  unfold PrepareStoresForThreads in Hprep. fold n in Hprep.
  apply PrepareStores_loop_spec in Hprep
    as (calls & Hcalls & Hw & Htr & Hok & Hfail);
    [|rewrite length_replicate; lia].
  exists calls. split; [done|]. split; [done|]. split; [done|].
  split; [done|]. split.
  - intros Hst. destruct (Hok Hst) as (-> & -> & Hfill & _).
    split; [done|]. split; [done|]. intros j Hj. by apply (Hfill j).
  - intros Hst. destruct (Hfail Hst) as (f & -> & -> & Hfill & Hsame).
    exists f. split; [done|]. split; [done|]. split.
    + intros j Hj. by apply (Hfill j).
    + intros j Hj. rewrite Hsame by lia.
      apply lookup_replicate. split; [done|]. lia.
Qed.

End ProvisioningFacts.

(** ** The control flow of [Run] *)

Section RunFacts.
Context `{Collaborators}.
Variable runner : ThreadRunner.
Variable benchmark : Benchmark.

Local Abbreviation step := (step runner benchmark).
Local Abbreviation main_step := (main_step runner benchmark).
Local Abbreviation worker_step := (worker_step benchmark).
Local Abbreviation exec := (exec runner benchmark).
Local Abbreviation reachable := (reachable runner benchmark).
Local Abbreviation main_action := (main_action runner benchmark).
Local Abbreviation Inv := (Inv runner benchmark).
Local Abbreviation Run_inv := (Run_inv runner benchmark).
Local Abbreviation provisioned := (provisioned runner).
Local Abbreviation processed := (processed runner).
Local Abbreviation N := (num_threads_ runner).
Local Abbreviation cfg := (mlmd_config_ runner).

(** An action of a worker, spelled out. *)
Lemma worker_step_shape t s s' :
  worker_step t s = Some s' ->
  exists workload th w' done' th' evs,
    benchmark !! workload_index s = Some workload /\
    threads s !! t = Some th /\
    thread_step workload (workload_index s) t (op_per_thread s)
      (mjoin (stores s !! t)) (world s) (approx_total_done s) th
    = Some (w', done', th', evs) /\
    s' = {| world := w'; summaries := summaries s; main := main s;
            workload_index := workload_index s;
            op_per_thread := op_per_thread s; stores := stores s;
            approx_total_done := done';
            threads := <[t := th']> (threads s);
            trace := evs ++ trace s |}.
Proof.
  unfold worker_step.
  destruct (benchmark !! workload_index s) as [workload|]; [|done].
  destruct (threads s !! t) as [th|]; [|done].
  destruct (thread_step _ _ _ _ _ _ _ _) as [[[[w' done'] th'] evs]|] eqn:Hstep;
    [|done].
  intros [= <-]. by exists workload, th, w', done', th', evs.
Qed.

(** What an action of a worker does to its slot. *)
Lemma thread_step_slot workload i t k curr_store w done th w' done' th' evs :
  thread_step workload i t k curr_store w done th = Some (w', done', th', evs) ->
  pc th <> Idle /\ pc th' <> Idle /\
  (ok (curr_status th) = false -> curr_status th' = curr_status th) /\
  (evs = [EvStart i t] /\ pc th = Queued \/
   Forall (fun e => is_start e = false) evs).
Proof.
  unfold thread_step. intros Hstep.
  destruct (pc th) eqn:Hpc; try discriminate;
    repeat match type of Hstep with
    | context [if ?b then _ else _] => destruct b
    | context [let '(_, _) := ?p in _] => destruct p as [[? ?] ?]
    end; injection Hstep as <- <- <- <-; simpl; rewrite ?Hpc;
    (split; [done|]); (split; [done|]);
    (split; [try done|try (right; by repeat constructor)]).
  - by left.
  - unfold Status_Update. by intros ->.
Qed.

Lemma elem_of_app_worker e t i evs tr :
  by_main e = true ->
  Forall (fun e => ev_workload e = i /\ ev_thread e = Some t) evs ->
  e ∈ evs ++ tr <-> e ∈ tr.
Proof.
  intros He Hevs. rewrite elem_of_app. split; [|by right].
  intros [Hin|Hin]; [|done].
  eapply (proj1 (Forall_forall _ _)) in Hevs as [_ Ht]; [|exact Hin].
  unfold by_main in He. by rewrite Ht in He.
Qed.

Lemma count_app_worker p t i evs tr :
  (forall e, p e = true -> by_main e = true) ->
  Forall (fun e => ev_workload e = i /\ ev_thread e = Some t) evs ->
  count p (evs ++ tr) = count p tr.
Proof.
  intros Hp Hevs. rewrite count_app, count_none; [done|].
  eapply Forall_impl; [exact Hevs|]. simpl. intros e [_ Ht].
  destruct (p e) eqn:Hpe; [|done]. apply Hp in Hpe.
  unfold by_main in Hpe. by rewrite Ht in Hpe.
Qed.

Lemma count_zero_not_elem p e l : count p l = 0 -> p e = true -> e ∉ l.
Proof.
  intros Hc Hp Hin. induction l as [|e' l IH]; [by apply elem_of_nil in Hin|].
  rewrite count_cons in Hc. pose proof (count_nonneg p l).
  apply elem_of_cons in Hin as [<-|Hin].
  - rewrite Hp in Hc. lia.
  - apply IH; [|done]. destruct (p e'); lia.
Qed.

Lemma not_elem_count_zero (p : Event -> bool) l :
  (forall e, e ∈ l -> p e = false) -> count p l = 0.
Proof. intros Hl. apply count_none. by apply Forall_forall. Qed.

Lemma is_schedule_of_spec i t e :
  is_schedule_of i t e = true <-> e = EvSchedule i t.
Proof.
  destruct e; simpl; try (split; [done|congruence]).
  rewrite andb_true_iff, !Nat.eqb_eq. split; [by intros [-> ->]|].
  by intros [= -> ->].
Qed.

(** Induction over the reachable states with the action at hand. *)
Lemma reachable_step_induction (P : State -> Prop) :
  (forall w report, P (initial w report)) ->
  (forall s s', reachable s -> Inv s -> Inv s' -> P s ->
                main_step s = Some s' -> P s') ->
  (forall s t s', reachable s -> Inv s -> Inv s' -> P s ->
                  worker_step t s = Some s' -> P s') ->
  forall s, reachable s -> P s.
Proof.
  intros Hinit Hmain Hworker s Hs.
  induction Hs as [|s tid s' Hs IH Hstep]; [done|].
  pose proof (reachable_Inv _ _ _ Hs) as HI.
  pose proof (Inv_step _ _ _ _ _ HI Hstep) as HI'.
  destruct tid as [|t]; simpl in Hstep; eauto.
Qed.


(** *** The events of provisioning, in full *)

Lemma create_events_elem wi w n e :
  e ∈ create_events wi cfg w n <->
  exists j, (j < n)%nat /\ e = EvCreateStore wi (create_status cfg w j).
Proof.
  unfold create_events. rewrite elem_of_reverse, list_elem_of_fmap.
  split.
  - intros (j & -> & Hj%elem_of_seq). exists j. split; [lia|done].
  - intros (j & Hj & ->). exists j. split; [done|]. apply elem_of_seq. lia.
Qed.

Lemma create_events_count wi w n :
  count (is_create_of wi) (create_events wi cfg w n) = Z.of_nat n.
Proof.
  revert w. induction n as [|n IH]; intros w; [done|].
  rewrite create_events_S, count_app, IH, count_cons. simpl.
  rewrite Nat.eqb_refl. unfold count at 1. simpl. lia.
Qed.

Lemma SetUpWorkload_ok_events i workload w tr w1 st1 tr1 :
  SetUpWorkload i cfg workload w tr = (w1, st1, tr1) -> ok st1 = true ->
  exists st st', ok st = true /\ ok st' = true /\
    tr1 = EvSetUp i st :: EvCreateStore i st' :: tr.
Proof.
  unfold SetUpWorkload.
  destruct (CreateMetadataStore cfg w) as [[w' st'] store].
  destruct (ok st') eqn:Hok'; simpl.
  - destruct (SetUp workload store w') as [w2 st2].
    destruct (ok st2) eqn:Hok2; simpl; intros [= <- <- <-]; [|congruence].
    eauto.
  - intros [= <- <- <-]. congruence.
Qed.

(** What the main thread does at the head of the loop over the workloads. *)
Lemma main_step_workload s s' :
  main s = AtWorkload -> main_step s = Some s' ->
  let i := workload_index s in
  match main s' with
  | Done st => if ok st then benchmark !! i = None
               else is_Some (benchmark !! i)
  | _ =>
      0 < N /\ is_Some (benchmark !! i) /\ is_Some (summaries s !! i) /\
      exists w1 st st',
        ok st = true /\ ok st' = true /\
        trace s' = create_events i cfg w1 (Z.to_nat N)
                   ++ EvSetUp i st :: EvCreateStore i st' :: trace s /\
        forall j, (j < Z.to_nat N)%nat -> ok (create_status cfg w1 j) = true
  end.
Proof.
  intros Hm Hstep i. unfold main_step in Hstep. rewrite Hm in Hstep.
  fold i in Hstep.
  destruct (benchmark !! i) as [workload|] eqn:Hwl.
  2:{ injection Hstep as <-. done. }
  destruct (N <=? 0) eqn:HN; [done|]. apply Z.leb_gt in HN.
  destruct (SetUpWorkload _ _ _ _ _) as [[w1 st1] tr1] eqn:Hsetup.
  destruct (ok st1) eqn:Hok1; simpl in Hstep.
  2:{ injection Hstep as <-. simpl. rewrite Hok1. by eexists. }
  destruct (PrepareStoresForThreads _ _ _ _ _) as [[[w2 st2] sts] tr2] eqn:Hprep.
  destruct (ok st2) eqn:Hok2; simpl in Hstep.
  2:{ injection Hstep as <-. simpl. rewrite Hok2. by eexists. }
  destruct (summaries s !! i) as [summary|] eqn:Hsum; [|done].
  injection Hstep as <-. simpl.
  split; [done|]. split; [by eexists|]. split; [by eexists|].
  destruct (SetUpWorkload_ok_events _ _ _ _ _ _ _ Hsetup Hok1)
    as (st & st' & Hst & Hst' & ->).
  destruct (PrepareStoresForThreads_calls _ _ _ _ _ _ _ _ _ Hprep)
    as (calls & _ & -> & Hok).
  destruct (Hok Hok2) as (-> & Hall).
  exists w1, st, st'. by repeat split.
Qed.

Lemma is_provision_other j e :
  ev_workload e <> j -> is_provision j e = false.
Proof.
  intros Hne. destruct (is_provision j e) eqn:Hp; [|done].
  by apply is_provision_spec in Hp as [? _].
Qed.

Lemma is_provision_worker i t e :
  ev_thread e = Some t -> is_provision i e = false.
Proof.
  intros Ht. destruct (is_provision i e) eqn:Hp; [|done].
  apply is_provision_spec in Hp as (_ & Hnone & _). congruence.
Qed.

Lemma provisioned_app i evs tr :
  Forall (fun e => is_provision i e = false) evs ->
  provisioned i tr -> provisioned i (evs ++ tr).
Proof.
  intros Hevs ((st & Hok & Hin) & Hc & Hall). split; [|split].
  - exists st. split; [done|]. apply elem_of_app. by right.
  - rewrite count_app, count_none; [done|].
    eapply Forall_impl; [exact Hevs|]. by intros [].
  - intros st0 [Hin0|Hin0]%elem_of_app; [|by eauto].
    eapply (proj1 (Forall_forall _ _)) in Hevs; [|exact Hin0].
    simpl in Hevs. by rewrite Nat.eqb_refl in Hevs.
Qed.

Lemma processed_app j evs tr :
  Forall (fun e => is_provision j e = false) evs ->
  processed j tr -> processed j (evs ++ tr).
Proof.
  intros Hevs (Hprov & Hsched & (st & Hok & Htd) & Hrep).
  split; [by apply provisioned_app|]. split; [|split].
  - intros t Ht. apply elem_of_app. right. auto.
  - exists st. split; [done|]. apply elem_of_app. by right.
  - apply elem_of_app. by right.
Qed.

(** *** The invariant of the control flow of [Run] *)

Lemma Run_inv_initial w report : Run_inv (initial w report).
Proof.
  split; simpl; try done; lia.
Qed.


Lemma elem_of_cons_other (e e' : Event) tr : e <> e' -> e ∈ e' :: tr <-> e ∈ tr.
Proof.
  intros Hne. rewrite elem_of_cons. split; [|by right]. by intros [?|?].
Qed.

Ltac run_inv_fields := split; unfold scheduled_below; simpl; try done.

Lemma Run_inv_main_step s s' :
  Inv s -> Run_inv s -> main_step s = Some s' -> Run_inv s'.
Proof.
  intros HI [Hidx Hdone Hsched Hq Honce Hunw Hprov Hpast Hrep] Hstep.
  pose proof (main_step_action _ _ _ _ Hstep) as Hact.
  destruct HI as [_ Hths Hmain Htrace _]. unfold main_inv in Hmain.
  unfold scheduled_below in Hsched.
  destruct Hact as [Hm Hwl|st w evs Hm Hok Hevs _|w evs op sts Hm Hevs
    |t th Hm Hth|t Hm Hfin|t th Hm Hth Hok|t th Hm Hth Hok|st Hm Hj
    |w st Hm Hok|w st summary Hm Hok]; rewrite Hm in Hmain, Hsched.
  - (* the benchmark is exhausted *)
    destruct Hmain as [Hnil _].
    run_inv_fields. by intros st [= <-].
  - (* set-up or provisioning fails *)
    destruct Hmain as [Hnil Hold].
    pose proof (main_step_workload _ _ Hm Hstep) as Hwl. simpl in Hwl.
    rewrite Hok in Hwl.
    assert (Hother : forall j, (j < workload_index s)%nat ->
      Forall (fun e => is_provision j e = false) evs).
    { intros j Hlt. eapply Forall_impl; [exact Hevs|]. simpl.
      intros e [He _]%is_provision_spec. apply is_provision_other. lia. }
    run_inv_fields.
    + intros st0 [= <-]. by rewrite Hok.
    + intros t th. by rewrite Hnil.
    + intros j t. rewrite count_app, count_none; [apply Honce|].
      eapply Forall_impl; [exact Hevs|]. by intros [].
    + intros j Hlt. apply processed_app; auto.
    + intros j. rewrite count_app, count_none; [apply Hrep|].
      eapply Forall_impl; [exact Hevs|]. by intros [].
  - (* the pool is created *)
    destruct Hmain as [Hnil Hold].
    pose proof (main_step_workload _ _ Hm Hstep) as Hwl. simpl in Hwl.
    destruct Hwl as (HN & _ & _ & w1 & st & st' & Hst & Hst' & Heq & Hall).
    assert (Hother : forall j, (j < workload_index s)%nat ->
      Forall (fun e => is_provision j e = false) evs).
    { intros j Hlt. eapply Forall_impl; [exact Hevs|]. simpl.
      intros e [He _]%is_provision_spec. apply is_provision_other. lia. }
    assert (Hnone : forall t, EvSchedule (workload_index s) t ∉ evs ++ trace s).
    { intros t [Hin|Hin]%elem_of_app.
      - eapply (proj1 (Forall_forall _ _)) in Hevs; [|exact Hin]. done.
      - eapply (proj1 (Forall_forall _ _)) in Hold; [|exact Hin].
        simpl in Hold. lia. }
    run_inv_fields.
    + intros t. split; [by intros ?%Hnone|lia].
    + intros t th [-> _]%lookup_replicate. simpl. split; [done|].
      by intros ?%Hnone.
    + intros j t. rewrite count_app, count_none; [apply Honce|].
      eapply Forall_impl; [exact Hevs|]. by intros [].
    + intros _. rewrite Heq.
      assert (Hzero : count (is_create_of (workload_index s)) (trace s) = 0).
      { apply count_none. eapply Forall_impl; [exact Hold|].
        intros [] Hlt; simpl in *; try done. apply Nat.eqb_neq. lia. }
      split; [|split].
      * exists st. split; [done|]. apply elem_of_app. right. by left.
      * rewrite count_app, create_events_count, !count_cons, Hzero. simpl.
        rewrite Nat.eqb_refl. lia.
      * intros st0 [Hin|Hin]%elem_of_app.
        -- apply create_events_elem in Hin as (j & Hj & [= ->]). auto.
        -- apply elem_of_cons in Hin as [?|Hin]; [done|].
           apply elem_of_cons in Hin as [[= ->]|Hin]; [done|].
           eapply (proj1 (Forall_forall _ _)) in Hold; [|exact Hin].
           simpl in Hold. lia.
    + intros j Hlt. apply processed_app; auto.
    + intros j. rewrite count_app, count_none; [apply Hrep|].
      eapply Forall_impl; [exact Hevs|]. by intros [].
  - (* a worker is scheduled *)
    destruct Hmain as (Hpool & Ht & Hidle).
    assert (Hfresh : EvSchedule (workload_index s) t ∉ trace s).
    { intros Hin%Hsched. lia. }
    run_inv_fields.
    + intros t'. rewrite elem_of_cons, Hsched. split.
      * intros [[= ->]|Hlt]; lia.
      * intros Hlt. destruct (decide (t' = t)) as [->|Hne]; [by left|].
        right. lia.
    + intros t' th'. destruct (decide (t' = t)) as [->|Hne].
      * rewrite list_lookup_insert_eq by by eapply lookup_lt_Some.
        intros [= <-]. simpl. split; [by left|done].
      * rewrite list_lookup_insert_ne by done. intros Hth'.
        rewrite elem_of_cons_other by congruence. by apply Hq.
    + intros j t'. rewrite count_cons.
      destruct (is_schedule_of j t' (EvSchedule (workload_index s) t)) eqn:He;
        [|apply Honce].
      apply is_schedule_of_spec in He. injection He as <- <-.
      rewrite not_elem_count_zero; [done|].
      intros e He. destruct (is_schedule_of (workload_index s) t e) eqn:Hs;
        [|done].
      apply is_schedule_of_spec in Hs as ->. done.
    + intros _. apply (provisioned_app _ [_]); [by repeat constructor|].
      apply Hprov. intros Hnil. by rewrite Hnil in Hth.
    + intros j Hlt. apply (processed_app _ [_]); [by repeat constructor|auto].
  - (* the pool block is left *)
    run_inv_fields.
  - (* the status check passes *)
    run_inv_fields.
  - (* the status check sees a fatal status *)
    run_inv_fields.
    intros st [= <-]. exists t, th. split; [done|]. split; [done|].
    intros t' Hlt Hin%Hsched. lia.
  - (* return from inside the pool block *)
    destruct Hmain as [(_ & _ & _ & workload & Hwl & _) Hst].
    run_inv_fields.
    intros st0 [= <-]. rewrite Hst. by eexists.
  - (* TearDown fails *)
    destruct Hmain as [(_ & _ & _ & workload & Hwl & _) _].
    run_inv_fields.
    + intros st0 [= <-]. rewrite Hok. by eexists.
    + intros t th Hth. rewrite elem_of_cons_other by done. by apply Hq.
    + intros Hne. apply (provisioned_app _ [_]); [by repeat constructor|auto].
    + intros j Hlt. apply (processed_app _ [_]); [by repeat constructor|auto].
  - (* TearDown succeeds: the summary is written *)
    destruct Hmain as [(HN & Hlen & _ & workload & Hwl & _) Hfin].
    assert (Hne : threads s <> []).
    { intros Hnil. rewrite Hnil in Hlen. simpl in Hlen. lia. }
    run_inv_fields.
    + apply lookup_lt_Some in Hwl. lia.
    + intros j Hlt.
      destruct (decide (j = workload_index s)) as [->|Hne'].
      * split; [|split; [|split]].
        -- apply (provisioned_app _ [_; _]); [by repeat constructor|auto].
        -- intros t Ht. do 2 right.
           destruct (lookup_lt_is_Some_2 (threads s) t) as [th Hth]; [lia|].
           apply (Hq _ _ Hth).
           pose proof (Forall_lookup_finished _ _ _ Hfin Hth) as Hf.
           unfold finished in Hf. by destruct (pc th).
        -- exists st. split; [done|]. right. by left.
        -- by left.
      * apply (processed_app _ [_; _]); [by repeat constructor|].
        apply Hpast. lia.
    + intros j. rewrite !count_cons. simpl. rewrite Hrep.
      destruct (Nat.eqb_spec (workload_index s) j),
        (Nat.ltb_spec j (workload_index s)),
        (Nat.ltb_spec j (S (workload_index s))); lia.
Qed.


Lemma Run_inv_worker_step t s s' :
  Inv s -> Run_inv s -> worker_step t s = Some s' -> Run_inv s'.
Proof.
  intros HI [Hidx Hdone Hsched Hq Honce Hunw Hprov Hpast Hrep] Hstep.
  apply worker_step_shape in Hstep
    as (workload & th & w' & done' & th' & evs & Hwl & Hth & Hstep & ->).
  pose proof (thread_step_events _ _ _ _ _ _ _ _ _ _ _ _ Hstep) as Hevs.
  destruct (thread_step_slot _ _ _ _ _ _ _ _ _ _ _ _ Hstep)
    as (Hpc & Hpc' & Hst & _).
  assert (Hin : forall e, by_main e = true ->
    e ∈ evs ++ trace s <-> e ∈ trace s).
  { intros e He. by eapply elem_of_app_worker. }
  assert (Hcount : forall p, (forall e, p e = true -> by_main e = true) ->
    count p (evs ++ trace s) = count p (trace s)).
  { intros p Hp. by eapply count_app_worker. }
  assert (Hnot : forall j, Forall (fun e => is_provision j e = false) evs).
  { intros j. eapply Forall_impl; [exact Hevs|]. simpl.
    intros e [_ He]. by eapply is_provision_worker. }
  destruct HI as [_ Hths Hmain _ _]. unfold main_inv in Hmain.
  unfold scheduled_below in Hsched.
  split; unfold scheduled_below; simpl; try done.
  - intros st Hm. specialize (Hdone st Hm). destruct (ok st); [|done].
    destruct Hdone as (_ & _ & Hnil). by rewrite Hnil in Hth.
  - destruct (main s); try done; intros t'; by rewrite Hin.
  - intros t' th0. rewrite Hin by done.
    destruct (decide (t' = t)) as [->|Hne].
    + rewrite list_lookup_insert_eq by by eapply lookup_lt_Some.
      intros [= <-]. split; [|done]. intros _. by apply (Hq _ _ Hth).
    + rewrite list_lookup_insert_ne by done. apply Hq.
  - intros j t'. rewrite Hcount; [apply Honce|]. by intros [].
  - intros st Hm. destruct (Hunw st Hm) as (t0 & th0 & Hth0 & Hst0 & Hlater).
    rewrite Hm in Hmain. destruct Hmain as [_ Hok].
    destruct (decide (t0 = t)) as [->|Hne].
    + exists t, th'. rewrite Hth in Hth0. injection Hth0 as <-.
      rewrite list_lookup_insert_eq by by eapply lookup_lt_Some.
      split; [done|]. split; [rewrite Hst; congruence|].
      intros t' Hlt. rewrite Hin by done. auto.
    + exists t0, th0. rewrite list_lookup_insert_ne by done.
      split; [done|]. split; [done|].
      intros t' Hlt. rewrite Hin by done. auto.
  - intros Hne%insert_nonempty. apply provisioned_app; auto.
  - intros j Hlt. apply processed_app; auto.
  - intros j. rewrite Hcount; [apply Hrep|]. by intros [].
Qed.

Lemma reachable_Run_inv s : reachable s -> Run_inv s.
Proof.
  induction 1 as [w report|s tid s' Hs IH Hstep]; [apply Run_inv_initial|].
  pose proof (reachable_Inv _ _ _ Hs) as HI.
  destruct tid as [|t]; simpl in Hstep;
    eauto using Run_inv_main_step, Run_inv_worker_step.
Qed.


(** *** What the trace of [Run] looks like *)

Lemma before_app_marker marker (Q : Event -> Trace -> Prop) evs tr :
  (forall A e B, evs = A ++ e :: B -> marker e = true -> Q e (B ++ tr)) ->
  before marker Q tr -> before marker Q (evs ++ tr).
Proof.
  induction evs as [|e0 evs IH]; intros Hevs Htr; [done|].
  intros [|e' A] e B; simpl; intros [= <- Heq] Hm.
  - rewrite <- Heq. by apply (Hevs [] e0 evs).
  - eapply IH; [|done|exact Heq|done].
    intros A0 e1 B0 -> Hm1. by apply (Hevs (e0 :: A0) e1 B0).
Qed.

(** Every action logs events of the workload being run, on top of the
    trace. *)
Lemma step_trace tid s s' :
  Inv s -> step tid s = Some s' ->
  exists evs,
    trace s' = evs ++ trace s /\
    Forall (fun e => ev_workload e = workload_index s) evs.
Proof.
  intros HI Hstep. destruct tid as [|t]; simpl in Hstep.
  - apply main_step_action in Hstep.
    assert (Hprov : forall evs,
      Forall (fun e => is_provision (workload_index s) e = true) evs ->
      Forall (fun e => ev_workload e = workload_index s) evs).
    { intros evs Hevs. eapply Forall_impl; [exact Hevs|]. simpl.
      by intros e [? _]%is_provision_spec. }
    destruct Hstep as [Hm Hwl|st w evs Hm Hok Hevs _|w evs op sts Hm Hevs
      |t th Hm Hth|t Hm Hfin|t th Hm Hth Hok|t th Hm Hth Hok|st Hm Hj
      |w st Hm Hok|w st summary Hm Hok]; simpl;
      try (by exists []); try (exists evs; by auto).
    + by exists [EvSchedule (workload_index s) t]; repeat constructor.
    + by exists [EvTearDown (workload_index s) st]; repeat constructor.
    + by exists [EvReport (workload_index s);
                 EvTearDown (workload_index s) st]; repeat constructor.
  - apply worker_step_effect in Hstep
      as (_ & _ & _ & _ & _ & evs & -> & Hevs).
    exists evs. split; [done|]. eapply Forall_impl; [exact Hevs|].
    by intros e [? _].
Qed.

(** X2: the workloads are run one after the other, in the order of the
    benchmark: whenever an event of a workload is logged, no event of a
    later workload has been logged before it, and every earlier workload
    has been processed to its end: set up and provisioned with success, all
    [num_threads_] workers scheduled, torn down with success and
    reported. *)
Theorem workloads_run_in_order s A e B :
  reachable s -> trace s = A ++ e :: B ->
  (ev_workload e <= workload_index s)%nat /\
  Forall (fun e' => (ev_workload e' <= ev_workload e)%nat) B /\
  forall j, (j < ev_workload e)%nat -> processed j B.
Proof.
  intros Hs Heq. split.
  { pose proof (reachable_Inv _ _ _ Hs) as [_ _ _ Htr _].
    rewrite Heq in Htr. apply Forall_app in Htr as [_ Htr].
    by apply Forall_cons in Htr as [? _]. }
  revert A e B Heq.
  assert (Hbefore : before any_event
    (fun e B => Forall (fun e' => (ev_workload e' <= ev_workload e)%nat) B /\
                forall j, (j < ev_workload e)%nat -> processed j B)
    (trace s)).
  2:{ intros A e B Heq. by eapply Hbefore. }
  induction Hs as [w report|s tid s' Hs IH Hstep].
  { intros A e B Heq. by destruct A. }
  pose proof (reachable_Inv _ _ _ Hs) as HI.
  pose proof (reachable_Run_inv _ Hs) as HR.
  destruct (step_trace _ _ _ HI Hstep) as (evs & -> & Hevs).
  apply before_app_marker; [|done].
  intros A e B -> _.
  apply Forall_app in Hevs as [_ Hevs]. apply Forall_cons in Hevs as [He HB].
  rewrite He. split.
  - apply Forall_app. split.
    + eapply Forall_impl; [exact HB|]. simpl. intros e' ->. lia.
    + by destruct HI.
  - intros j Hlt. apply processed_app; [|by apply HR].
    eapply Forall_impl; [exact HB|]. simpl. intros e' He'.
    apply is_provision_other. lia.
Qed.


(** X3: the workers of a workload are scheduled one by one in increasing
    order, each at most once and only below [num_threads_], and only after
    the workload was set up and provisioned with success; a worker calls
    [Start()] only after it was scheduled. *)
Theorem workers_scheduled_in_order s :
  reachable s ->
  (forall j t, count (is_schedule_of j t) (trace s) <= 1) /\
  (forall A j t B,
     trace s = A ++ EvSchedule j t :: B ->
     Z.of_nat t < N /\ provisioned j B /\
     (forall t', (t' < t)%nat -> EvSchedule j t' ∈ B) /\
     (forall t', (t <= t')%nat -> EvSchedule j t' ∉ B)) /\
  (forall A j t B, trace s = A ++ EvStart j t :: B -> EvSchedule j t ∈ B).
Proof.
  intros Hs. split; [by apply reachable_Run_inv|].
  assert (Hbefore :
    before is_schedule
      (fun e B =>
         match e with
         | EvSchedule j t =>
             Z.of_nat t < N /\ provisioned j B /\
             (forall t', (t' < t)%nat -> EvSchedule j t' ∈ B) /\
             (forall t', (t <= t')%nat -> EvSchedule j t' ∉ B)
         | _ => True
         end) (trace s) /\
    before is_start
      (fun e B =>
         match e with EvStart j t => EvSchedule j t ∈ B | _ => True end)
      (trace s)).
  2:{ destruct Hbefore as [Hsched Hstart]. split.
      - intros A j t B Heq. by apply (Hsched A _ B Heq).
      - intros A j t B Heq. by apply (Hstart A _ B Heq). }
  revert s Hs. apply reachable_step_induction.
  - intros w report. split; intros A e B Heq; by destruct A.
  - intros s s' Hs HI _ [IH1 IH2] Hstep.
    pose proof (reachable_Run_inv _ Hs)
      as [_ _ Hsched _ _ _ Hprov _ _].
    apply main_step_action in Hstep.
    destruct HI as [_ _ Hmain _ _]. unfold main_inv in Hmain.
    assert (Hevs : forall evs,
      Forall (fun e => is_provision (workload_index s) e = true) evs ->
      Forall (fun e => is_schedule e = false) evs /\
      Forall (fun e => is_start e = false) evs).
    { intros evs Hevs. split; (eapply Forall_impl; [exact Hevs|]);
        by intros []. }
    destruct Hstep as [Hm Hwl|st w evs Hm Hok [Hev1 Hev2]%Hevs _
      |w evs op sts Hm [Hev1 Hev2]%Hevs
      |t th Hm Hth|t Hm Hfin|t th Hm Hth Hok|t th Hm Hth Hok|st Hm Hj
      |w st Hm Hok|w st summary Hm Hok]; simpl; try done;
      try (split; by apply before_app_other);
      try (split; by repeat apply before_cons_other).
    rewrite Hm in Hmain, Hsched. destruct Hmain as ((_ & Hlen & _) & _ & _).
    split; [|by apply before_cons_other].
    apply before_cons_marker; [|done].
    pose proof (lookup_lt_Some _ _ _ Hth) as Hlt.
    split; [lia|]. split.
    { apply Hprov. intros Hnil. by rewrite Hnil in Hth. }
    split; intros t' Ht'; [by apply Hsched|].
    intros Hin%Hsched. lia.
  - intros s t s' Hs HI _ [IH1 IH2] Hstep.
    pose proof (reachable_Run_inv _ Hs) as [_ _ _ Hq _ _ _ _ _].
    apply worker_step_shape in Hstep
      as (workload & th & w' & done' & th' & evs & Hwl & Hth & Hstep & ->).
    pose proof (thread_step_events _ _ _ _ _ _ _ _ _ _ _ _ Hstep) as Hevs.
    destruct (thread_step_slot _ _ _ _ _ _ _ _ _ _ _ _ Hstep)
      as (Hpc & _ & _ & Hstart).
    simpl. split.
    + apply before_app_other; [|done].
      eapply Forall_impl; [exact Hevs|]. by intros [] [_ ?].
    + destruct Hstart as [[-> Hq']|Hnone].
      * apply (before_cons_marker _ _ _ (trace s)); [|done].
        by apply (Hq _ _ Hth).
      * by apply before_app_other.
Qed.

(** X4: [Run] returns OK only when it has gone through the whole benchmark:
    every workload was then processed to its end and the status is
    [Status::OK()] itself.  It returns an error only while a workload of the
    benchmark is being processed; the summary of that workload is not
    written, and the workloads before it were processed to their end. *)
Theorem Run_returns_OK_after_all_workloads s st :
  reachable s -> main s = Done st ->
  (forall j, (j < workload_index s)%nat -> processed j (trace s)) /\
  (ok st = true ->
     st = Status_OK /\ workload_index s = length benchmark /\
     threads s = []) /\
  (ok st = false ->
     (workload_index s < length benchmark)%nat /\
     EvReport (workload_index s) ∉ trace s).
Proof.
  intros Hs Hm.
  pose proof (reachable_Run_inv _ Hs)
    as [Hidx Hdone _ _ _ _ _ Hpast Hrep].
  specialize (Hdone st Hm). split; [done|]. split.
  - intros Hok. rewrite Hok in Hdone. destruct Hdone as (-> & Hnone & Hnil).
    split; [done|]. split; [|done].
    apply lookup_ge_None in Hnone. lia.
  - intros Hok. rewrite Hok in Hdone. destruct Hdone as [workload Hwl].
    split; [by eapply lookup_lt_Some|].
    apply (count_zero_not_elem (is_report (workload_index s))).
    + rewrite Hrep. by rewrite Nat.ltb_irrefl.
    + simpl. apply Nat.eqb_refl.
Qed.


(** *** Progress *)

Lemma thread_step_total workload i t k curr_store w done th :
  joined th = false ->
  is_Some (thread_step workload i t k curr_store w done th).
Proof.
  unfold joined, thread_step. destruct (pc th); try done; intros _;
    repeat match goal with
    | |- context [if ?b then _ else _] => destruct b
    | |- context [let '(_, _) := ?p in _] => destruct p as [[? ?] ?]
    end; by eexists.
Qed.

Lemma forallb_false_lookup {A} (f : A -> bool) (l : list A) :
  forallb f l = false -> exists t x, l !! t = Some x /\ f x = false.
Proof.
  induction l as [|x l IH]; simpl; [done|].
  destruct (f x) eqn:Hx; simpl.
  - intros (t & y & Hl & Hy)%IH. by exists (S t), y.
  - intros _. by exists 0%nat, x.
Qed.

Lemma worker_can_step s t th :
  Inv s -> threads s !! t = Some th -> joined th = false ->
  exists s', step (Worker t) s = Some s'.
Proof.
  intros [[Hnil|(_ & _ & _ & workload & Hwl & _)] _ _ _ _] Hth Hj.
  { by rewrite Hnil in Hth. }
  simpl. unfold worker_step. rewrite Hwl, Hth.
  destruct (thread_step_total workload (workload_index s) t (op_per_thread s)
              (mjoin (stores s !! t)) (world s) (approx_total_done s) th Hj)
    as [[[[w' done'] th'] evs] ->].
  by eexists.
Qed.

(** Where the invariants hold and [Run] has not returned, some thread can
    act. *)
Lemma some_thread_can_act s :
  Inv s -> Run_inv s -> 0 < N ->
  (length benchmark <= length (summaries s))%nat ->
  (forall st, main s <> Done st) ->
  exists tid s', step tid s = Some s'.
Proof.
  intros HI [_ _ Hsched Hq _ _ _ _ _] HN Hrep Hrun.
  pose proof HI as [_ _ Hmain _ _]. unfold main_inv in Hmain.
  unfold scheduled_below in Hsched.
  destruct (main s) as [|t|t|st| |st] eqn:Hm.
  - (* at the head of the loop over the workloads *)
    exists MainThread. simpl. unfold main_step. rewrite Hm.
    destruct (benchmark !! workload_index s) as [workload|] eqn:Hwl;
      [|by eexists].
    destruct (Z.leb_spec N 0) as [|_]; [lia|].
    destruct (SetUpWorkload _ _ _ _ _) as [[w1 st1] tr1].
    destruct (negb (ok st1)); [by eexists|].
    destruct (PrepareStoresForThreads _ _ _ _ _) as [[[w2 st2] sts] tr2].
    destruct (negb (ok st2)); [by eexists|].
    destruct (lookup_lt_is_Some_2 (summaries s) (workload_index s))
      as [summary ->]; [|by eexists].
    apply lookup_lt_Some in Hwl. lia.
  - (* scheduling, or waiting for the workers at the end of the block *)
    destruct Hmain as ((_ & Hlen & _) & Ht & _).
    destruct (Z.ltb_spec (Z.of_nat t) N) as [Hlt|Hge].
    + exists MainThread. simpl. unfold main_step. rewrite Hm.
      destruct (Z.ltb_spec (Z.of_nat t) N) as [_|]; [|lia].
      destruct (lookup_lt_is_Some_2 (threads s) t) as [th ->]; [lia|].
      by eexists.
    + destruct (forallb finished (threads s)) eqn:Hfin.
      * exists MainThread. simpl. unfold main_step. rewrite Hm.
        destruct (Z.ltb_spec (Z.of_nat t) N) as [|_]; [lia|].
        rewrite Hfin. by eexists.
      * apply forallb_false_lookup in Hfin as (t' & th & Hth & Hfin).
        exists (Worker t'). apply (worker_can_step _ _ th); [done|done|].
        pose proof (lookup_lt_Some _ _ _ Hth) as Hlt.
        assert (Hpc : pc th <> Idle).
        { apply (Hq _ _ Hth), Hsched. lia. }
        unfold joined, finished in *. by destruct (pc th).
  - (* the status check *)
    destruct Hmain as ((_ & Hlen & _) & Ht & _).
    exists MainThread. simpl. unfold main_step. rewrite Hm.
    destruct (lookup_lt_is_Some_2 (threads s) t) as [th ->]; [lia|].
    destruct (negb (ok (curr_status th))); by eexists.
  - (* returning from inside the pool block *)
    destruct (forallb joined (threads s)) eqn:Hj.
    + exists MainThread. simpl. unfold main_step.
      rewrite Hm, Hj. by eexists.
    + apply forallb_false_lookup in Hj as (t' & th & Hth & Hj).
      exists (Worker t'). by apply (worker_can_step _ _ th).
  - (* TearDown and the report *)
    destruct Hmain as [(_ & Hlen & [summary Hsum] & workload & Hwl & _) _].
    exists MainThread. simpl. unfold main_step. rewrite Hm, Hwl.
    destruct (TearDown workload (world s)) as [w' st].
    destruct (negb (ok st)); [by eexists|]. rewrite Hsum.
    unfold MergeThreadStatsAndReport, MergeThreadStats.
    destruct (threads s) as [|th ths]; [simpl in Hlen; lia|].
    by eexists.
  - by destruct (Hrun st).
Qed.

(** X5: [Run] never gets stuck: as long as it has not returned, the main
    thread or one of the workers can act, provided [num_threads_] is
    positive and the report has an entry for every workload of the
    benchmark. *)
Theorem Run_never_deadlocks s :
  reachable s -> 0 < N ->
  (length benchmark <= length (summaries s))%nat ->
  (forall st, main s <> Done st) ->
  exists tid s', step tid s = Some s'.
Proof.
  intros Hs. apply some_thread_can_act.
  - by apply reachable_Inv.
  - by apply reachable_Run_inv.
Qed.

(** X6: the status check that follows the scheduling of worker [t] passes
    whenever the worker has not yet stored the status of [ExecuteWorkload]
    in its slot, whatever [RunOp] has returned to it so far; it fails only
    if the worker has already left [ExecuteWorkload] with a fatal status
    and stored it. *)
Theorem status_check_outcome s t th :
  reachable s -> main s = AtCheck t -> threads s !! t = Some th ->
  (pc th <> AtStop -> pc th <> Finished ->
   main_step s = Some (set_main (AtSchedule (S t)) s)) /\
  (ok (curr_status th) = true ->
   main_step s = Some (set_main (AtSchedule (S t)) s)) /\
  (ok (curr_status th) = false ->
   main_step s = Some (set_main (Unwinding (curr_status th)) s) /\
   returned th = Some (curr_status th) /\
   not_aborted (curr_status th) = true /\
   last (attempted (workload_index s) t (trace s))
   = Some (work_items_index th, curr_status th)).
Proof.
  intros Hs Hm Hth.
  pose proof (reachable_Inv _ _ _ Hs) as [_ Hths _ _ _].
  specialize (Hths _ _ Hth).
  assert (Hstep : main_step s
    = Some (if ok (curr_status th) then set_main (AtSchedule (S t)) s
            else set_main (Unwinding (curr_status th)) s)).
  { unfold main_step. rewrite Hm, Hth. by destruct (ok (curr_status th)). }
  assert (Hstored : ok (curr_status th) = false ->
    returned th = Some (curr_status th)).
  { intros Hok. unfold thread_inv, returned in *.
    destruct (pc th); try done; destruct Hths as [Hst1 Hst2];
      try rewrite Hst1 in Hok; try rewrite Hst2 in Hok; done. }
  split; [|split].
  - intros Hstop Hfin. rewrite Hstep.
    destruct (ok (curr_status th)) eqn:Hok; [done|].
    specialize (Hstored eq_refl). unfold returned in Hstored.
    destruct (pc th) eqn:Hpc; try done.
    unfold thread_inv in Hths. rewrite Hpc in Hths.
    destruct Hths as [Hst _]. rewrite Hst in Hok. done.
  - intros Hok. by rewrite Hstep, Hok.
  - intros Hok. rewrite Hstep, Hok. split; [done|].
    specialize (Hstored Hok). split; [done|].
    destruct (thread_inv_exit _ _ _ _ _ _ Hths Hstored) as (l & Hl & Hlog).
    destruct Hl as [(Heq & _)|(_ & Hab & _ & l' & -> & _)].
    { rewrite Heq in Hok. done. }
    split; [done|].
    unfold attempted. rewrite last_reverse, Hlog. by destruct (finished th).
Qed.

(** X7: when a status check of the scheduling loop has seen a status that
    is not OK, it is the status the last call of [RunOp] by that worker
    returned, a fatal one; the worker has left [ExecuteWorkload] and stored
    the status in its slot; no worker after it is scheduled, now or later;
    and [Run] returns that status, leaving the report as it is. *)
Theorem fatal_status_unwinds s st :
  reachable s -> main s = Unwinding st ->
  let i := workload_index s in
  exists t th,
    threads s !! t = Some th /\ curr_status th = st /\
    returned th = Some st /\
    ok st = false /\ not_aborted st = true /\
    last (attempted i t (trace s)) = Some (work_items_index th, st) /\
    (forall t' th', (t < t')%nat -> threads s !! t' = Some th' ->
       pc th' = Idle /\ (EvSchedule i t' ∉ trace s) /\
       thread_log i t' (trace s) = []) /\
    forall s', main_step s = Some s' ->
      main s' = Done st /\ summaries s' = summaries s /\
      threads s' = threads s.
Proof.
  intros Hs Hm i.
  pose proof (reachable_Inv _ _ _ Hs) as [_ Hths Hmain _ _].
  pose proof (reachable_Run_inv _ Hs) as [_ _ _ Hq _ Hunw _ _ _].
  unfold main_inv in Hmain. rewrite Hm in Hmain. destruct Hmain as [_ Hok].
  destruct (Hunw st Hm) as (t & th & Hth & Hst & Hlater).
  exists t, th. split; [done|]. split; [done|].
  pose proof (Hths _ _ Hth) as Hinv. fold i in Hinv.
  assert (Hret : returned th = Some st).
  { unfold thread_inv, returned in *. rewrite <- Hst in Hok.
    destruct (pc th); try (by rewrite Hst);
      destruct Hinv as [Hinv1 Hinv2]; try rewrite Hinv1 in Hok;
      try rewrite Hinv2 in Hok; done. }
  split; [done|]. split; [done|].
  destruct (thread_inv_exit _ _ _ _ _ _ Hinv Hret) as (l & Hl & Hlog).
  destruct Hl as [(-> & _)|(_ & Hab & _ & l' & -> & _)]; [done|].
  split; [done|]. split.
  { unfold attempted. rewrite last_reverse, Hlog. by destruct (finished th). }
  split.
  - intros t' th' Hlt Hth'. specialize (Hlater _ Hlt).
    assert (Hpc : pc th' = Idle).
    { destruct (pc th') eqn:Hpc; try done; exfalso;
        apply Hlater, (Hq _ _ Hth'); by rewrite Hpc. }
    split; [done|]. split; [done|].
    specialize (Hths _ _ Hth'). unfold thread_inv in Hths.
    rewrite Hpc in Hths. by destruct Hths.
  - intros s'. unfold main_step. rewrite Hm.
    destruct (forallb joined (threads s)); [|done]. by intros [= <-].
Qed.


(** *** The report *)

Lemma exec_invariant (P : State -> Prop) sched w report s :
  P (initial w report) ->
  (forall s tid s', reachable s -> P s -> step tid s = Some s' -> P s') ->
  exec sched (initial w report) = Some s -> P s.
Proof.
  intros Hinit Hstep. revert s.
  induction sched as [|tid sched IH] using rev_ind; intros s.
  - by intros [= <-].
  - rewrite exec_app.
    destruct (exec sched (initial w report)) as [s0|] eqn:Hexec; [|done].
    simpl. destruct (step tid s0) as [s1|] eqn:Hs1; [|done].
    intros [= <-]. eapply Hstep; [|by apply IH|exact Hs1].
    eapply exec_reachable; [apply reachable_initial|exact Hexec].
Qed.

(** An action leaves the report alone, unless it is the one that follows a
    successful [TearDown], which sets both fields of the entry of the
    workload. *)
Lemma step_summaries tid s s' :
  step tid s = Some s' ->
  (summaries s' = summaries s /\ workload_index s' = workload_index s) \/
  (workload_index s' = S (workload_index s) /\
   (workload_index s < length (summaries s))%nat /\
   exists bytes micros,
     summaries s'
     = <[workload_index s :=
           {| bytes_per_second := Some bytes;
              microseconds_per_operation := Some micros |}]> (summaries s)).
Proof.
  destruct tid as [|t]; simpl.
  - unfold main_step.
    destruct (main s) as [|tm|tm|st| |st] eqn:Hm.
    + destruct (benchmark !! workload_index s) as [workload|];
        [|intros [= <-]; by left].
      destruct (N <=? 0); [done|].
      destruct (SetUpWorkload _ _ _ _ _) as [[w1 st1] tr1].
      destruct (negb (ok st1)); [intros [= <-]; by left|].
      destruct (PrepareStoresForThreads _ _ _ _ _) as [[[w2 st2] sts] tr2].
      destruct (negb (ok st2)); [intros [= <-]; by left|].
      destruct (summaries s !! workload_index s); [|done].
      intros [= <-]; by left.
    + destruct (Z.of_nat tm <? N).
      * destruct (threads s !! tm); [|done]. intros [= <-]; by left.
      * destruct (forallb finished (threads s)); [|done].
        intros [= <-]; by left.
    + destruct (threads s !! tm) as [th|]; [|done].
      destruct (negb (ok (curr_status th))); intros [= <-]; by left.
    + destruct (forallb joined (threads s)); [|done]. intros [= <-]; by left.
    + destruct (benchmark !! workload_index s) as [workload|]; [|done].
      destruct (TearDown workload (world s)) as [w' st].
      destruct (negb (ok st)); [intros [= <-]; by left|].
      destruct (summaries s !! workload_index s) as [summary|] eqn:Hsum;
        [|done].
      unfold MergeThreadStatsAndReport.
      destruct (MergeThreadStats _) as [merged|]; [|done].
      intros [= <-]. right. simpl. split; [done|].
      split; [by eapply lookup_lt_Some|]. by eexists _, _.
    + done.
  - intros (_ & ? & ? & _)%worker_step_effect. by left.
Qed.

(** X8: [Run] writes the report entry of a workload exactly when the
    workload has been torn down with success, setting both of its fields;
    the entries of the workload being run and of the workloads not yet
    reached are as the caller passed them, whatever has failed; the number
    of entries never changes; [EvReport] is logged once per written
    entry. *)
Theorem report_written_after_tear_down sched w report s :
  exec sched (initial w report) = Some s ->
  length (summaries s) = length report /\
  (forall j, (workload_index s <= j)%nat -> summaries s !! j = report !! j) /\
  (forall j, (j < workload_index s)%nat ->
     exists bytes micros,
       summaries s !! j
       = Some {| bytes_per_second := Some bytes;
                 microseconds_per_operation := Some micros |}) /\
  (forall j, count (is_report j) (trace s)
             = if (j <? workload_index s)%nat then 1 else 0).
Proof.
  intros Hexec.
  assert (Hs : reachable s).
  { eapply exec_reachable; [apply reachable_initial|exact Hexec]. }
  pose proof (reachable_Run_inv _ Hs) as [_ _ _ _ _ _ _ _ Hrep].
  assert (Hsum :
    length (summaries s) = length report /\
    (forall j, (workload_index s <= j)%nat ->
               summaries s !! j = report !! j) /\
    (forall j, (j < workload_index s)%nat ->
       exists bytes micros,
         summaries s !! j
         = Some {| bytes_per_second := Some bytes;
                   microseconds_per_operation := Some micros |})).
  2:{ destruct Hsum as (? & ? & ?). done. }
  clear Hs Hrep. revert Hexec.
  apply (exec_invariant (fun s =>
    length (summaries s) = length report /\
    (forall j, (workload_index s <= j)%nat ->
               summaries s !! j = report !! j) /\
    (forall j, (j < workload_index s)%nat ->
       exists bytes micros,
         summaries s !! j
         = Some {| bytes_per_second := Some bytes;
                   microseconds_per_operation := Some micros |}))).
  - simpl. split; [done|]. split; [done|]. intros j Hj. lia.
  - intros s0 tid s1 _ (Hlen & Hlater & Hpast) Hstep.
    destruct (step_summaries _ _ _ Hstep)
      as [[-> ->]|(-> & Hlt & bytes & micros & ->)]; [done|].
    rewrite length_insert. split; [done|]. split.
    + intros j Hj. rewrite list_lookup_insert_ne by lia. apply Hlater. lia.
    + intros j Hj. destruct (decide (j = workload_index s0)) as [->|Hne].
      * rewrite list_lookup_insert_eq by done. by eexists _, _.
      * rewrite list_lookup_insert_ne by done. apply Hpast. lia.
Qed.

End RunFacts.

(** ** The statistics objects

    *** What the calls in a log make of an object *)

Section StatisticsFacts.
Context `{Collaborators}.

Lemma progress_values_cons e log :
  progress_values (e :: log)
  = progress_values log
    ++ match e with EvUpdate _ _ d => [d] | _ => [] end.
Proof.
  unfold progress_values. destruct e; simpl; rewrite ?app_nil_r; try done.
  by rewrite reverse_cons.
Qed.

Lemma progress_values_snoc_start log i t :
  progress_values (log ++ [EvStart i t]) = progress_values log.
Proof. unfold progress_values. by apply reverse_omap_snoc. Qed.

Lemma length_progress_values log :
  Z.of_nat (length (progress_values log)) = count is_update log.
Proof.
  induction log as [|e log IH]; [done|].
  rewrite progress_values_cons, length_app, count_cons.
  destruct e; simpl; lia.
Qed.

Lemma updated_snoc ups op_stats d (stats : ThreadStats) :
  updated (ups ++ [(op_stats, d)]) stats
  = Update op_stats d (updated ups stats).
Proof. unfold updated. by rewrite fold_left_app. Qed.

(** Every action of a worker does to its statistics object what it
    logs. *)
Lemma thread_step_recorded workload i t k curr_store w done th w' done' th'
    evs log :
  thread_step workload i t k curr_store w done th = Some (w', done', th', evs) ->
  recorded log (curr_thread_stats th) ->
  recorded (evs ++ log) (curr_thread_stats th').
Proof.
  unfold thread_step. intros Hstep Hrec.
  destruct (pc th); try discriminate;
    repeat match type of Hstep with
    | context [if ?b then _ else _] => destruct b
    | context [let '(_, _) := ?p in _] => destruct p as [[? ?] ?]
    end; injection Hstep as <- <- <- <-; simpl; try done;
    by constructor.
Qed.

(** The object of a worker that has called [Start()], read off its log. *)
Lemma recorded_loop l i t (stats : ThreadStats) :
  recorded (l ++ [EvStart i t]) stats ->
  Forall (fun e => is_start e = false /\ is_stop e = false) l ->
  exists w0 ups,
    ups.*2 = progress_values l /\
    stats = updated ups (Start w0 ThreadStats_new).
Proof.
  revert stats. induction l as [|e l IH]; intros stats Hrec Hl.
  - inversion Hrec as [|? ? w0 ? stats0 Hnil| | | |]; subst.
    inversion Hnil; subst. by exists w0, [].
  - apply Forall_cons in Hl as [[He1 He2] Hl].
    rewrite progress_values_cons.
    inversion Hrec as [|? ? ? ? ? Hrec'|? ? op d ? stats0 Hrec'
      |? ? ? ? ? Hrec'|? ? ? ? ? stats0 Hrec'|? ? ? ? stats0 Hrec'];
      subst; try done.
    + destruct (IH _ Hrec' Hl) as (w0 & ups & Hups & ->).
      exists w0, (ups ++ [(op, d)]). rewrite fmap_app, Hups.
      split; [done|]. by rewrite updated_snoc.
    + destruct (IH _ Hrec' Hl) as (w0 & ups & Hups & ->).
      exists w0, ups. by rewrite app_nil_r.
    + destruct (IH _ Hrec' Hl) as (w0 & ups & Hups & ->).
      exists w0, ups. by rewrite app_nil_r.
Qed.

Lemma recorded_statistics i t k th log :
  thread_inv i t k th log -> recorded log (curr_thread_stats th) ->
  started th = true ->
  exists ups,
    ups.*2 = progress_values log /\
    Z.of_nat (length ups) = count is_update log /\
    statistics_of (finished th) ups (curr_thread_stats th).
Proof.
  intros Hinv Hrec Hst.
  destruct (thread_inv_bracket _ _ _ _ _ Hinv Hst) as (l & Hlog & Hl).
  assert (Hlen : forall ups : list (OpStats * Z),
    ups.*2 = progress_values log ->
    Z.of_nat (length ups) = count is_update log).
  { intros ups Hups. by rewrite <- length_progress_values, <- Hups,
      length_fmap. }
  assert (Hvalues : progress_values log = progress_values l).
  { rewrite Hlog. destruct (finished th); simpl;
      rewrite ?progress_values_cons, ?app_nil_r;
      by rewrite progress_values_snoc_start. }
  rewrite Hvalues in Hlen |- *. clear Hvalues.
  destruct (finished th) eqn:Hfin; simpl in Hlog; rewrite Hlog in Hrec.
  - inversion Hrec as [| | |? ? w1 ? stats0 Hrec' Heq1 Heq2| |].
    destruct (recorded_loop _ _ _ _ Hrec' Hl) as (w0 & ups & Hups & Heq).
    exists ups. split; [done|]. split; [by apply Hlen|].
    exists w0, w1. congruence.
  - destruct (recorded_loop _ _ _ _ Hrec Hl) as (w0 & ups & Hups & Heq).
    exists ups. split; [done|]. split; [by apply Hlen|].
    by exists w0.
Qed.

End StatisticsFacts.

(** *** The objects of the workers of a run *)

Section StatisticsRun.
Context `{Collaborators}.
Variable runner : ThreadRunner.
Variable benchmark : Benchmark.

Local Abbreviation step := (step runner benchmark).
Local Abbreviation main_step := (main_step runner benchmark).
Local Abbreviation worker_step := (worker_step benchmark).
Local Abbreviation reachable := (reachable runner benchmark).
Local Abbreviation main_action := (main_action runner benchmark).
Local Abbreviation Inv := (Inv runner benchmark).
Local Abbreviation Run_inv := (Run_inv runner benchmark).
Local Abbreviation Stats_inv := (Stats_inv runner).
Local Abbreviation N := (num_threads_ runner).
Local Abbreviation cfg := (mlmd_config_ runner).

Lemma thread_log_app_main i t evs tr :
  Forall (fun e => ev_thread e = None) evs ->
  thread_log i t (evs ++ tr) = thread_log i t tr.
Proof. intros Hevs. by rewrite thread_log_app, thread_log_main. Qed.

Lemma thread_log_app_provision j i t evs tr :
  Forall (fun e => is_provision j e = true) evs ->
  thread_log i t (evs ++ tr) = thread_log i t tr.
Proof.
  intros Hevs. apply thread_log_app_main.
  eapply Forall_impl; [exact Hevs|]. simpl.
  by intros e (_ & ? & _)%is_provision_spec.
Qed.

Lemma Stats_inv_main_action s s' :
  Inv s -> Stats_inv s -> main_action s s' -> Stats_inv s'.
Proof.
  intros HI [Hcur Hpast] Hact.
  destruct Hact as [Hm Hwl|st w evs Hm Hok Hevs Hlast|w evs op sts Hm Hevs
    |t th Hm Hth|t Hm Hfin|t th Hm Hth Hok|t th Hm Hth Hok|st Hm Hj
    |w st Hm Hok|w st summary Hm Hok]; try (split; simpl; by auto).
  - split; simpl.
    + intros t th Hth. rewrite (thread_log_app_provision _ _ _ _ _ Hevs).
      by apply Hcur.
    + intros j t Hj Ht. rewrite (thread_log_app_provision _ _ _ _ _ Hevs).
      by apply Hpast.
  - split; simpl.
    + intros t th [-> _]%lookup_replicate.
      rewrite (thread_log_app_provision _ _ _ _ _ Hevs).
      destruct HI as [_ _ Hmain _ _]. unfold main_inv in Hmain.
      rewrite Hm in Hmain. destruct Hmain as [_ Hold].
      rewrite (thread_log_older _ _ _ Hold). constructor.
    + intros j t Hj Ht. rewrite (thread_log_app_provision _ _ _ _ _ Hevs).
      by apply Hpast.
  - split; simpl.
    + intros t0 th0. rewrite thread_log_cons_main by done.
      destruct (decide (t0 = t)) as [->|Hne].
      * rewrite list_lookup_insert_eq by by eapply lookup_lt_Some.
        intros [= <-]. simpl. by apply Hcur.
      * rewrite list_lookup_insert_ne by done. apply Hcur.
    + intros j t0 Hj Ht. rewrite thread_log_cons_main by done.
      by apply Hpast.
  - split; simpl.
    + intros t th Hth. rewrite thread_log_cons_main by done. by apply Hcur.
    + intros j t Hj Ht. rewrite thread_log_cons_main by done.
      by apply Hpast.
  - split; simpl.
    + intros t th. by rewrite lookup_nil.
    + intros j t Hj Ht. rewrite !thread_log_cons_main by done.
      destruct (decide (j = workload_index s)) as [->|Hne].
      2:{ apply Hpast; [lia|done]. }
      destruct HI as [_ Hths Hmain _ _]. unfold main_inv in Hmain.
      rewrite Hm in Hmain. destruct Hmain as [(_ & Hlen & _) Hfin].
      destruct (lookup_lt_is_Some_2 (threads s) t) as [th Hth]; [lia|].
      pose proof (Forall_lookup_finished _ _ _ Hfin Hth) as Hf.
      assert (Hst : started th = true).
      { unfold started, finished in *. by destruct (pc th). }
      destruct (thread_inv_bracket _ _ _ _ _ (Hths _ _ Hth) Hst)
        as (l & Hlog & Hl).
      rewrite Hf in Hlog. by exists l.
Qed.

Lemma Stats_inv_worker_step t s s' :
  Stats_inv s -> worker_step t s = Some s' -> Stats_inv s'.
Proof.
  intros [Hcur Hpast] Hstep.
  destruct (worker_step_shape _ _ _ _ Hstep)
    as (workload & th & w' & done' & th' & evs & Hwl & Hth & Hthread & ->).
  pose proof (thread_step_events _ _ _ _ _ _ _ _ _ _ _ _ Hthread) as Hevs.
  split; simpl.
  - intros t0 th0. rewrite thread_log_app.
    destruct (decide (t0 = t)) as [->|Hne].
    + rewrite list_lookup_insert_eq by by eapply lookup_lt_Some.
      intros [= <-]. rewrite (thread_log_own _ _ _ Hevs).
      eapply thread_step_recorded; [exact Hthread|]. by apply Hcur.
    + rewrite list_lookup_insert_ne by done. intros Hth0.
      rewrite (thread_log_other _ _ _ _ _ Hevs) by congruence.
      by apply Hcur.
  - intros j t0 Hj Ht. rewrite thread_log_app.
    rewrite (thread_log_other _ _ _ _ _ Hevs).
    + by apply Hpast.
    + intros [= -> _]. lia.
Qed.

Lemma reachable_Stats_inv s : reachable s -> Stats_inv s.
Proof.
  revert s. apply reachable_induction.
  - intros w report. split; simpl.
    + intros t th. by rewrite lookup_nil.
    + intros j t Hj. lia.
  - intros s s' _ HI _ IH Hact. by eapply Stats_inv_main_action.
  - intros s t s' _ _ _ IH Hstep. by eapply Stats_inv_worker_step.
Qed.


(** *** The statistics of a worker that runs alone *)

Lemma ExecuteWorkload_recorded workload i t k curr_store fuel w done th tr st
    w' done' th' tr' :
  ExecuteWorkload fuel workload i t k curr_store w done th tr
    = Some (st, w', done', th', tr') ->
  recorded (thread_log i t tr) (curr_thread_stats th) ->
  recorded (thread_log i t tr') (curr_thread_stats th').
Proof.
  revert w done th tr. induction fuel as [|fuel IH]; intros w done th tr.
  - simpl. destruct (pc th) eqn:Hpc; try done. by intros [= <- <- <- <- <-].
  - simpl. intros Hrun Hrec.
    destruct (thread_step workload i t k curr_store w done th)
      as [[[[w1 done1] th1] evs]|] eqn:Hstep.
    + assert (Hrec1 : recorded (thread_log i t (evs ++ tr))
                        (curr_thread_stats th1)).
      { rewrite thread_log_app, thread_log_own
          by by eapply thread_step_events.
        by eapply thread_step_recorded. }
      destruct (pc th) eqn:Hpc; try by eauto.
      by injection Hrun as <- <- <- <- <-.
    + destruct (pc th) eqn:Hpc; try done.
      by injection Hrun as <- <- <- <- <-.
Qed.

(** One pass through the body of the loop of [ExecuteWorkload], the worker
    running alone: the four actions of an operation that succeeds, the one
    action of a call that fails, and the exit. *)
Lemma thread_step_loop workload i t k curr_store w done th :
  pc th = AtLoop ->
  (k * Z.of_nat t + k <= work_items_index th ->
   thread_step workload i t k curr_store w done th
   = Some (w, done, set_pc (Returned Status_OK) th, [])) /\
  (work_items_index th < k * Z.of_nat t + k ->
   forall w' st op_stats,
     RunOp workload (work_items_index th) curr_store w = (w', st, op_stats) ->
     (ok st = true ->
      forall tr,
        thread_steps 4 workload i t k curr_store w done th tr
        = Some (w', done + 1,
                {| pc := AtLoop; work_items_index := work_items_index th + 1;
                   curr_thread_stats :=
                     Update op_stats (done + 1) (curr_thread_stats th);
                   curr_status := curr_status th |},
                EvUpdate i t (done + 1) :: EvIncrement i t (done + 1)
                :: EvRunOp i t (work_items_index th) st :: tr)) /\
     (ok st = false -> not_aborted st = true ->
      thread_step workload i t k curr_store w done th
      = Some (w', done, set_pc (Returned st) th,
              [EvRunOp i t (work_items_index th) st])) /\
     (ok st = false -> not_aborted st = false ->
      thread_step workload i t k curr_store w done th
      = Some (w', done, th, [EvRunOp i t (work_items_index th) st]))).
Proof.
  intros Hpc. split.
  - intros Hc. unfold thread_step. rewrite Hpc.
    by destruct (Z.ltb_spec (work_items_index th) (k * Z.of_nat t + k));
      [lia|].
  - intros Hc w' st op_stats Hrun.
    assert (Hstep : thread_step workload i t k curr_store w done th
      = if negb (ok st) && not_aborted st
        then Some (w', done, set_pc (Returned st) th,
                   [EvRunOp i t (work_items_index th) st])
        else if negb (ok st)
        then Some (w', done, th, [EvRunOp i t (work_items_index th) st])
        else Some (w', done,
                   {| pc := AtLoad op_stats;
                      work_items_index := work_items_index th + 1;
                      curr_thread_stats := curr_thread_stats th;
                      curr_status := curr_status th |},
                   [EvRunOp i t (work_items_index th) st])).
    { unfold thread_step. rewrite Hpc.
      destruct (Z.ltb_spec (work_items_index th) (k * Z.of_nat t + k));
        [|lia].
      by rewrite Hrun. }
    split; [|split].
    + intros Hok tr. cbn [thread_steps]. rewrite Hstep, Hok. simpl.
      done.
    + intros Hok Hab. by rewrite Hstep, Hok, Hab.
    + intros Hok Hab. by rewrite Hstep, Hok, Hab.
Qed.

(** C4: for a worker that owns [k >= 0] operations, whenever
    [ExecuteWorkload] has returned, its [outcome] holds and the statistics
    object of the worker holds it: either the status is OK, the cursor is
    at the end of the range, the indices run successfully are the [k] owned
    ones in increasing order, [Update] was called [k] times and the object
    is the default-constructed one after [Start()] and these [k] calls of
    [Update] with the progress values logged (and [Stop()], once the worker
    has finished); or the status is fatal, the failing call is the last
    call of [RunOp] by the worker, and the indices before it were run and
    are the calls of [Update] the object has received.  When [k = 0],
    [RunOp] and [Update] are never called, the object has received no
    [Update], and the first action at the loop test returns OK.  At the
    loop test the code acts thus: past the range it returns OK; in the
    range it calls [RunOp] on the cursor, and on success increments the
    cursor and the counter and calls [Update] on the object with the
    statistics of the operation and the counter, on a fatal status returns
    it at once, on ABORTED stays where it is.  And [ExecuteWorkload] does
    return, with that outcome and that object, when the worker runs alone
    and [RunOp] cannot answer ABORTED for ever. *)
Theorem ExecuteWorkload_outcome s t th :
  reachable s -> threads s !! t = Some th -> 0 <= op_per_thread s ->
  let i := workload_index s in
  let k := op_per_thread s in
  (forall st, returned th = Some st ->
     outcome i t k st th (trace s) /\
     exists ups : list (OpStats * Z),
       ups.*2 = progress_values (thread_log i t (trace s)) /\
       Z.of_nat (length ups)
       = (if ok st then k else work_items_index th - k * Z.of_nat t) /\
       statistics_of (finished th) ups (curr_thread_stats th)) /\
  (k = 0 ->
     attempted i t (trace s) = [] /\ updates i t (trace s) = 0 /\
     (started th = true ->
      statistics_of (finished th) [] (curr_thread_stats th)) /\
     (pc th = AtLoop -> forall workload curr_store w done,
        thread_step workload i t k curr_store w done th
        = Some (w, done, set_pc (Returned Status_OK) th, []))) /\
  (pc th = AtLoop -> forall workload curr_store w done,
     (k * Z.of_nat t + k <= work_items_index th ->
      thread_step workload i t k curr_store w done th
      = Some (w, done, set_pc (Returned Status_OK) th, [])) /\
     (work_items_index th < k * Z.of_nat t + k ->
      forall w' st op_stats,
        RunOp workload (work_items_index th) curr_store w
        = (w', st, op_stats) ->
        (ok st = true ->
         forall tr,
           thread_steps 4 workload i t k curr_store w done th tr
           = Some (w', done + 1,
                   {| pc := AtLoop;
                      work_items_index := work_items_index th + 1;
                      curr_thread_stats :=
                        Update op_stats (done + 1) (curr_thread_stats th);
                      curr_status := curr_status th |},
                   EvUpdate i t (done + 1) :: EvIncrement i t (done + 1)
                   :: EvRunOp i t (work_items_index th) st :: tr)) /\
        (ok st = false -> not_aborted st = true ->
         thread_step workload i t k curr_store w done th
         = Some (w', done, set_pc (Returned st) th,
                 [EvRunOp i t (work_items_index th) st])) /\
        (ok st = false -> not_aborted st = false ->
         thread_step workload i t k curr_store w done th
         = Some (w', done, th, [EvRunOp i t (work_items_index th) st])))) /\
  (forall workload budget curr_store,
     aborts_bounded workload budget -> pc th = AtLoop ->
     exists st w' done' th' tr',
       ExecuteWorkload
         (4 * Z.to_nat (k * Z.of_nat t + k - work_items_index th)
          + budget (world s) + 1)
         workload i t k curr_store (world s) (approx_total_done s) th
         (trace s)
       = Some (st, w', done', th', tr') /\
       pc th' = Returned st /\ outcome i t k st th' tr' /\
       exists ups : list (OpStats * Z),
         ups.*2 = progress_values (thread_log i t tr') /\
         Z.of_nat (length ups)
         = (if ok st then k else work_items_index th' - k * Z.of_nat t) /\
         statistics_of false ups (curr_thread_stats th')).
Proof.
  intros Hs Hth Hk i k.
  pose proof (reachable_Inv _ _ _ Hs) as [_ Hths _ _ _].
  specialize (Hths _ _ Hth). fold i k in Hths.
  pose proof (reachable_Stats_inv _ Hs) as [Hcur _].
  specialize (Hcur _ _ Hth). fold i in Hcur.
  destruct (outcome_in_log _ _ _ _ _ Hs Hth Hk) as (Hout & Hzero & Halone).
  fold i k in Hout, Hzero, Halone.
  assert (Hstats : forall th0 tr0 st,
    thread_inv i t k th0 (thread_log i t tr0) ->
    recorded (thread_log i t tr0) (curr_thread_stats th0) ->
    returned th0 = Some st -> outcome i t k st th0 tr0 ->
    exists ups : list (OpStats * Z),
      ups.*2 = progress_values (thread_log i t tr0) /\
      Z.of_nat (length ups)
      = (if ok st then k else work_items_index th0 - k * Z.of_nat t) /\
      statistics_of (finished th0) ups (curr_thread_stats th0)).
  { intros th0 tr0 st Hinv Hrec Hret [Hok Hfatal].
    assert (Hst : started th0 = true).
    { unfold returned, started in *. by destruct (pc th0). }
    destruct (recorded_statistics _ _ _ _ _ Hinv Hrec Hst)
      as (ups & Hups & Hlen & Hof).
    exists ups. split; [done|]. split; [|done]. rewrite Hlen.
    fold (updates i t tr0). destruct (ok st).
    - by destruct (Hok eq_refl) as (_ & _ & ->).
    - by destruct (Hfatal eq_refl) as (_ & _ & _ & -> & _). }
  split; [|split; [|split]].
  - intros st Hst. split; [by apply Hout|]. apply (Hstats th (trace s) st);
      [done|done|done|by apply Hout].
  - intros Hk0. destruct (Hzero Hk0) as (Hatt & Hupd & Hfirst).
    split; [done|]. split; [done|]. split; [|done].
    intros Hst.
    destruct (recorded_statistics _ _ _ _ _ Hths Hcur Hst)
      as (ups & _ & Hlen & Hof).
    unfold updates in Hupd. rewrite Hupd in Hlen.
    destruct ups; [done|simpl in Hlen; lia].
  - intros Hpc workload curr_store w done.
    by apply thread_step_loop.
  - intros workload budget curr_store Hbound Hpc.
    destruct (Halone workload budget curr_store Hbound Hpc)
      as (st & w' & done' & th' & tr' & Hrun & Hpc' & Hout').
    exists st, w', done', th', tr'. split; [done|]. split; [done|].
    split; [done|].
    destruct (ExecuteWorkload_inv _ _ _ _ _ _ _ _ _ _ _ _ _ _ _ Hrun Hths)
      as [_ Hinv'].
    pose proof (ExecuteWorkload_recorded _ _ _ _ _ _ _ _ _ _ _ _ _ _ _
                  Hrun Hcur) as Hrec'.
    destruct (Hstats th' tr' st Hinv' Hrec') as (ups & Hups & Hlen & Hof);
      [by unfold returned; rewrite Hpc'|done|].
    exists ups. split; [done|]. split; [done|].
    unfold finished in Hof. by rewrite Hpc' in Hof.
Qed.


(** C9: every scheduled worker calls [Start()] once, as its first action
    and right before the loop of [ExecuteWorkload], and [Stop()] once, as
    its last action and right after [ExecuteWorkload] has returned and its
    status is stored, whatever that status is.  In every reachable state
    the statistics object of a worker is what the calls in its log have
    made of it; a worker is scheduled if and only if it is not idle; before
    [Start()] its log is empty and its object untouched; from [Start()] on
    its log holds [Start] once, as the oldest action, [Stop] once if it has
    finished, as the newest action, and not at all otherwise, and its
    object is the default-constructed one after [Start()], the calls of
    [Update] logged and, once finished, [Stop()].  When the pool is joined
    ([Run] is at [TearDown] or has returned), every scheduled worker has
    finished: its log is [Start], the loop, [Stop]; a slot that was never
    scheduled has called neither.  Every [Update] is younger than [Start]
    and has no [Stop] before it.  The action of a scheduled worker is
    [Start()] on its object, which leads to the loop test with the cursor
    at the start of its range; the two actions after the return of
    [ExecuteWorkload] store the status and call [Stop()] on the object,
    after which the worker has no action.  Every call of
    [CreateMetadataStore] is older than all the actions of the worker.
    And every worker of a workload that was run to its end has logged
    [Start] first, [Stop] last and neither in between. *)
Theorem Start_Stop_bracket s t th :
  reachable s -> threads s !! t = Some th ->
  let i := workload_index s in
  let k := op_per_thread s in
  let log := thread_log i t (trace s) in
  recorded log (curr_thread_stats th) /\
  (EvSchedule i t ∈ trace s <-> pc th <> Idle) /\
  count is_start log = (if started th then 1 else 0) /\
  count is_stop log = (if finished th then 1 else 0) /\
  (started th = false ->
     log = [] /\ curr_thread_stats th = ThreadStats_new) /\
  (started th = true ->
     (exists l,
        log = (if finished th then [EvStop i t] else [])
              ++ l ++ [EvStart i t] /\
        Forall (fun e => is_start e = false /\ is_stop e = false) l) /\
     exists ups : list (OpStats * Z),
       ups.*2 = progress_values log /\
       statistics_of (finished th) ups (curr_thread_stats th)) /\
  (main s = AtTearDown \/ (exists st, main s = Done st) ->
     (EvSchedule i t ∈ trace s ->
      finished th = true /\ bracketed i t log) /\
     (EvSchedule i t ∉ trace s ->
      log = [] /\ curr_thread_stats th = ThreadStats_new)) /\
  (forall A d B, log = A ++ EvUpdate i t d :: B ->
                 EvStart i t ∈ B /\ EvStop i t ∉ B) /\
  (forall workload curr_store w done,
     (pc th = Queued ->
      thread_step workload i t k curr_store w done th
      = Some (w, done,
              {| pc := AtLoop; work_items_index := k * Z.of_nat t;
                 curr_thread_stats := Start w (curr_thread_stats th);
                 curr_status := curr_status th |},
              [EvStart i t])) /\
     (forall st, pc th = Returned st ->
      thread_step workload i t k curr_store w done th
      = Some (w, done,
              {| pc := AtStop; work_items_index := work_items_index th;
                 curr_thread_stats := curr_thread_stats th;
                 curr_status := Status_Update (curr_status th) st |},
              [])) /\
     (pc th = AtStop ->
      thread_step workload i t k curr_store w done th
      = Some (w, done,
              {| pc := Finished; work_items_index := work_items_index th;
                 curr_thread_stats := Stop w (curr_thread_stats th);
                 curr_status := curr_status th |},
              [EvStop i t])) /\
     (pc th = Finished ->
      thread_step workload i t k curr_store w done th = None)) /\
  before is_create_store (fun _ B => thread_log i t B = []) (trace s) /\
  (forall j t', (j < i)%nat -> Z.of_nat t' < N ->
                bracketed j t' (thread_log j t' (trace s))).
Proof.
  intros Hs Hth i k log.
  pose proof (reachable_Inv _ _ _ Hs) as [_ Hths Hmain _ _].
  specialize (Hths _ _ Hth). fold i k log in Hths.
  pose proof (reachable_Stats_inv _ Hs) as [Hcur Hpast].
  specialize (Hcur _ _ Hth). fold i log in Hcur.
  pose proof (ri_queued _ _ _ (reachable_Run_inv _ _ _ Hs) _ _ Hth) as Hq.
  fold i in Hq.
  destruct (bracket_in_log _ _ _ _ _ Hs Hth)
    as (Hstart & Hstop & _ & _ & Hupd & _ & Hprov).
  fold i k log in Hstart, Hstop, Hupd, Hprov.
  assert (Hidle : started th = false ->
    log = [] /\ curr_thread_stats th = ThreadStats_new).
  { intros Hst. destruct (thread_inv_idle _ _ _ _ _ Hths Hst) as [Hlog _].
    split; [done|]. rewrite Hlog in Hcur. by inversion Hcur. }
  split; [done|]. split; [by symmetry|]. split; [done|]. split; [done|].
  split; [done|]. split; [|split; [|split; [done|split; [|split]]]].
  - intros Hst. split; [by eapply thread_inv_bracket|].
    destruct (recorded_statistics _ _ _ _ _ Hths Hcur Hst)
      as (ups & Hups & _ & Hof).
    by exists ups.
  - intros Hjoined.
    assert (Hj : joined th = true).
    { unfold main_inv in Hmain.
      destruct Hjoined as [Hm|[st Hm]]; rewrite Hm in Hmain.
      - destruct Hmain as [_ Hfin]. apply finished_joined.
        by eapply Forall_lookup_finished.
      - by eapply Forall_lookup_joined. }
    split; [intros Hin|intros Hout].
    + apply Hq in Hin.
      assert (Hfin : finished th = true).
      { unfold joined, finished in *. by destruct (pc th). }
      split; [done|].
      assert (Hst : started th = true).
      { unfold started, finished in *. by destruct (pc th). }
      destruct (thread_inv_bracket _ _ _ _ _ Hths Hst) as (l & Hlog & Hl).
      rewrite Hfin in Hlog. by exists l.
    + apply Hidle. destruct (started th) eqn:Hst; [|done].
      exfalso. apply Hout, Hq. unfold started in Hst.
      by destruct (pc th).
  - intros workload curr_store w done. unfold thread_step.
    split; [|split; [|split]].
    + by intros ->.
    + by intros st ->.
    + by intros ->.
    + by intros ->.
  - done.
  - intros j t' Hj Ht'. by apply Hpast.
Qed.

End StatisticsRun.

(** ** The first call of provisioning that fails *)

Section ProvisioningFailure.
Context `{Collaborators}.
Variable runner : ThreadRunner.
Variable benchmark : Benchmark.

Local Abbreviation step := (step runner benchmark).
Local Abbreviation main_step := (main_step runner benchmark).
Local Abbreviation reachable := (reachable runner benchmark).
Local Abbreviation returned_unspawned := (returned_unspawned runner benchmark).
Local Abbreviation N := (num_threads_ runner).
Local Abbreviation cfg := (mlmd_config_ runner).

Lemma create_events_last wi mlmd_config w n :
  create_events wi mlmd_config w (S n)
  = EvCreateStore wi (create_status mlmd_config w n)
    :: create_events wi mlmd_config w n.
Proof.
  unfold create_events. by rewrite seq_S, fmap_app, reverse_app.
Qed.

(** The loop of [PrepareStoresForThreads] stops at the first call of
    [CreateMetadataStore] that fails, and returns its status. *)
Lemma PrepareStoresForThreads_first_failure wi mlmd_config num_threads w tr
    (f : nat) :
  (f < Z.to_nat num_threads)%nat ->
  (forall j, (j < f)%nat -> ok (create_status mlmd_config w j) = true) ->
  ok (create_status mlmd_config w f) = false ->
  exists stores,
    PrepareStoresForThreads wi mlmd_config num_threads w tr
    = (after_creates mlmd_config (S f) w, create_status mlmd_config w f,
       stores, create_events wi mlmd_config w (S f) ++ tr).
Proof.
  intros Hf Hbefore Hfail.
  destruct (PrepareStoresForThreads wi mlmd_config num_threads w tr)
    as [[[w' st] sts] tr'] eqn:Hprep.
  exists sts. unfold PrepareStoresForThreads in Hprep.
  apply PrepareStores_loop_spec in Hprep
    as (calls & Hcalls & Hw & Htr & Hok & Hfailed);
    [|rewrite length_replicate; lia].
  destruct (ok st) eqn:Hst.
  - destruct (Hok eq_refl) as (_ & _ & Hfill & _).
    destruct (Hfill f Hf) as [Hokf _]. congruence.
  - destruct (Hfailed eq_refl) as (f' & -> & -> & Hfill & _).
    assert (f' = f) as ->.
    { destruct (Nat.lt_trichotomy f' f) as [Hlt|[Heq|Hgt]]; [|done|].
      - specialize (Hbefore _ Hlt). congruence.
      - destruct (Hfill _ Hgt) as [Hokf _]. congruence. }
    by rewrite Hw, Htr.
Qed.

(** C5: if the creation of the client handle of [SetUp] fails, if
    [Workload.SetUp] fails, or if the creation of the client handle of
    some worker [f < num_threads_] fails after those of the workers before
    it have succeeded, [Run] returns the status of the failing call, as it
    is, in this very action of the main thread: the failing call is the
    last call made (after [f] successful creations, in the third case), no
    worker is spawned, the workload has logged nothing but provisioning
    calls (so no [RunOp]), the report is as it was, and no thread acts any
    more. *)
Theorem setup_or_provisioning_failure_returns s workload :
  reachable s -> main s = AtWorkload ->
  benchmark !! workload_index s = Some workload -> 0 < N ->
  let i := workload_index s in
  let created := CreateMetadataStore cfg (world s) in
  let set_up := SetUp workload created.2 created.1.1 in
  (ok created.1.2 = false ->
   exists s',
     returned_unspawned s s' created.1.2 /\
     world s' = created.1.1 /\
     trace s' = EvCreateStore i created.1.2 :: trace s) /\
  (ok created.1.2 = true -> ok set_up.2 = false ->
   exists s',
     returned_unspawned s s' set_up.2 /\
     world s' = set_up.1 /\
     trace s' = EvSetUp i set_up.2 :: EvCreateStore i created.1.2
                :: trace s) /\
  (ok created.1.2 = true -> ok set_up.2 = true ->
   forall f : nat,
     Z.of_nat f < N ->
     (forall j, (j < f)%nat -> ok (create_status cfg set_up.1 j) = true) ->
     ok (create_status cfg set_up.1 f) = false ->
     exists s',
       returned_unspawned s s' (create_status cfg set_up.1 f) /\
       world s' = after_creates cfg (S f) set_up.1 /\
       trace s' = EvCreateStore i (create_status cfg set_up.1 f)
                  :: create_events i cfg set_up.1 f
                  ++ EvSetUp i set_up.2 :: EvCreateStore i created.1.2
                  :: trace s).
Proof.
  intros Hs Hm Hwl HN i created set_up.
  assert (Hgen : forall w1 st1 tr1 w2 st2 sts tr2,
    SetUpWorkload i cfg workload (world s) (trace s) = (w1, st1, tr1) ->
    PrepareStoresForThreads i cfg N w1 tr1 = (w2, st2, sts, tr2) ->
    ok st1 = false \/ ok st2 = false ->
    let s' := if ok st1 then return_from_Run st2 w2 tr2 s
              else return_from_Run st1 w1 tr1 s in
    returned_unspawned s s' (if ok st1 then st2 else st1)).
  { intros w1 st1 tr1 w2 st2 sts tr2 Hsetup Hprep Hfail s'.
    destruct (failed_provisioning_returns _ _ _ _ _ _ _ _ _ _ _
                Hs Hm Hwl HN Hsetup Hprep Hfail)
      as (s0 & Hstep & Hdone & _ & Hsum & Hths & Honly & Hstuck).
    assert (Hstep' : main_step s = Some s').
    { unfold main_step. rewrite Hm, Hwl.
      destruct (Z.leb_spec N 0) as [|_]; [lia|]. fold i. rewrite Hsetup.
      subst s'. destruct (ok st1); simpl; [|done]. rewrite Hprep.
      destruct Hfail as [?|Hok2]; [done|]. by rewrite Hok2. }
    assert (s0 = s') as -> by congruence.
    split; [done|]. split; [done|].
    split; [|done]. clear Hstep Hstep' Hdone Hsum Hths Honly Hstuck.
    subst s'. destruct (ok st1) eqn:Hok1; [by destruct Hfail|done]. }
  subst created set_up.
  destruct (CreateMetadataStore cfg (world s)) as [[w1 st1] store] eqn:Hcreate.
  simpl.
  destruct (SetUp workload store w1) as [w2 st2] eqn:Hsetup. simpl.
  split; [|split].
  - intros Hok1.
    destruct (PrepareStoresForThreads i cfg N w1
                (EvCreateStore i st1 :: trace s))
      as [[[w3 st3] sts] tr3] eqn:Hprep.
    assert (Hsw : SetUpWorkload i cfg workload (world s) (trace s)
                  = (w1, st1, EvCreateStore i st1 :: trace s)).
    { unfold SetUpWorkload. by rewrite Hcreate, Hok1. }
    pose proof (Hgen _ _ _ _ _ _ _ Hsw Hprep (or_introl Hok1)) as Hret.
    rewrite Hok1 in Hret. eexists. split; [exact Hret|]. done.
  - intros Hok1 Hok2.
    destruct (PrepareStoresForThreads i cfg N w2
                (EvSetUp i st2 :: EvCreateStore i st1 :: trace s))
      as [[[w3 st3] sts] tr3] eqn:Hprep.
    assert (Hsw : SetUpWorkload i cfg workload (world s) (trace s)
                  = (w2, st2, EvSetUp i st2 :: EvCreateStore i st1 :: trace s)).
    { unfold SetUpWorkload. rewrite Hcreate, Hok1. simpl.
      by rewrite Hsetup, Hok2. }
    pose proof (Hgen _ _ _ _ _ _ _ Hsw Hprep (or_introl Hok2)) as Hret.
    rewrite Hok2 in Hret. eexists. split; [exact Hret|]. done.
  - intros Hok1 Hok2 f Hf Hbefore Hfail.
    destruct (PrepareStoresForThreads_first_failure i cfg N w2
                (EvSetUp i st2 :: EvCreateStore i st1 :: trace s) f)
      as [sts Hprep]; [lia|done|done|].
    assert (Hsw : SetUpWorkload i cfg workload (world s) (trace s)
                  = (w2, Status_OK,
                     EvSetUp i st2 :: EvCreateStore i st1 :: trace s)).
    { unfold SetUpWorkload. rewrite Hcreate, Hok1. simpl.
      by rewrite Hsetup, Hok2. }
    pose proof (Hgen _ _ _ _ _ _ _ Hsw Hprep (or_intror Hfail)) as Hret.
    simpl in Hret. eexists. split; [exact Hret|]. simpl.
    split; [done|]. by rewrite create_events_last.
Qed.

End ProvisioningFailure.

(** ** The cost of provisioning *)

Section Effort.
Context `{Collaborators}.
Variable runner : ThreadRunner.
Variable benchmark : Benchmark.

Local Abbreviation step := (step runner benchmark).
Local Abbreviation main_step := (main_step runner benchmark).
Local Abbreviation worker_step := (worker_step benchmark).
Local Abbreviation reachable := (reachable runner benchmark).
Local Abbreviation Inv := (Inv runner benchmark).
Local Abbreviation provisioning_bounded := (provisioning_bounded runner).
Local Abbreviation N := (num_threads_ runner).
Local Abbreviation cfg := (mlmd_config_ runner).

Lemma count_other_workload (p : nat -> Event -> bool) i j evs :
  (forall e, p j e = true -> ev_workload e = j) ->
  Forall (fun e => ev_workload e = i) evs -> i <> j ->
  count (p j) evs = 0.
Proof.
  intros Hp Hevs Hne. apply count_none.
  eapply Forall_impl; [exact Hevs|]. simpl. intros e He.
  destruct (p j e) eqn:Hpe; [|done]. apply Hp in Hpe. congruence.
Qed.

Lemma count_le_length (p : Event -> bool) l : count p l <= Z.of_nat (length l).
Proof.
  induction l as [|e l IH]; [done|]. rewrite count_cons. simpl length.
  destruct (p e); lia.
Qed.

(** The events the main thread logs at the head of the loop over the
    workloads: those of [SetUpWorkload], then those of
    [PrepareStoresForThreads]. *)
Lemma main_step_provisioning s s' :
  main s = AtWorkload -> main_step s = Some s' ->
  let i := workload_index s in
  exists evs0 evs1,
    trace s' = evs0 ++ evs1 ++ trace s /\
    (length evs0 <= Z.to_nat N)%nat /\
    Forall (fun e => exists st, e = EvCreateStore i st) evs0 /\
    (evs1 = [] \/ exists st,
       evs1 = [EvCreateStore i st] \/
       ok st = true /\ exists st', evs1 = [EvSetUp i st'; EvCreateStore i st]).
Proof.
  intros Hm Hstep i. unfold main_step in Hstep. rewrite Hm in Hstep.
  fold i in Hstep.
  destruct (benchmark !! i) as [workload|] eqn:Hwl.
  2:{ injection Hstep as <-. exists [], []. simpl.
      split; [done|]. split; [lia|]. split; [done|]. by left. }
  destruct (N <=? 0) eqn:HN; [done|]. apply Z.leb_gt in HN.
  assert (Hsetup : exists st evs1,
    (SetUpWorkload i cfg workload (world s) (trace s)).2
    = evs1 ++ trace s /\
    (evs1 = [EvCreateStore i st] \/
     ok st = true /\ exists st', evs1 = [EvSetUp i st'; EvCreateStore i st])).
  { unfold SetUpWorkload.
    destruct (CreateMetadataStore cfg (world s)) as [[w' st'] store].
    destruct (ok st') eqn:Hok'; simpl.
    - destruct (SetUp workload store w') as [w2 st2].
      exists st'. destruct (negb (ok st2)); simpl; eexists; (split; [|eauto]);
        done.
    - exists st'. eexists. split; [|by left]. done. }
  destruct Hsetup as (st & evs1 & Htr1 & Hevs1).
  destruct (SetUpWorkload _ _ _ _ _) as [[w1 st1] tr1] eqn:Hsu.
  simpl in Htr1. subst tr1.
  destruct (negb (ok st1)).
  { injection Hstep as <-. exists [], evs1. simpl.
    split; [done|]. split; [lia|]. split; [done|]. right. by exists st. }
  destruct (PrepareStoresForThreads _ _ _ _ _) as [[[w2 st2] sts] tr2] eqn:Hprep.
  destruct (PrepareStoresForThreads_calls _ _ _ _ _ _ _ _ _ Hprep)
    as (calls & Hcalls & -> & _).
  assert (Hevs0 :
    (length (create_events i cfg w1 calls) <= Z.to_nat N)%nat /\
    Forall (fun e => exists st, e = EvCreateStore i st)
      (create_events i cfg w1 calls)).
  { split.
    - unfold create_events. by rewrite length_reverse, length_fmap, length_seq.
    - apply Forall_forall. intros e (m & _ & ->)%create_events_elem. eauto. }
  destruct Hevs0 as [Hlen Hall].
  destruct (negb (ok st2)).
  - injection Hstep as <-. exists (create_events i cfg w1 calls), evs1.
    simpl. split; [done|]. split; [done|]. split; [done|]. right. by exists st.
  - destruct (summaries s !! i); [|done].
    injection Hstep as <-. exists (create_events i cfg w1 calls), evs1.
    simpl. split; [done|]. split; [done|]. split; [done|]. right. by exists st.
Qed.

Lemma reachable_provisioning s :
  reachable s -> 0 < N -> provisioning_bounded (trace s).
Proof.
  intros Hs HN. revert s Hs. apply reachable_step_induction.
  - intros w report. split; [intros j; unfold count; simpl; lia|].
    intros A e B Heq. by destruct A.
  - intros s s' Hs HI _ [IH1 IH2] Hstep.
    pose proof (main_step_action _ _ _ _ Hstep) as Hact.
    destruct HI as [_ _ Hmain _ _]. unfold main_inv in Hmain.
    assert (Hhead : main s = AtWorkload -> provisioning_bounded (trace s')).
    { intros Hm. rewrite Hm in Hmain. destruct Hmain as [_ Hold].
      destruct (main_step_provisioning _ _ Hm Hstep)
        as (evs0 & evs1 & -> & Hlen & Hevs0 & Hevs1).
      set (i := workload_index s) in *.
      assert (Hzero : forall p : nat -> Event -> bool,
        (forall j e, p j e = true -> ev_workload e = j) ->
        count (p i) (trace s) = 0).
      { intros p Hp. apply count_none. eapply Forall_impl; [exact Hold|].
        simpl. intros e Hlt. destruct (p i e) eqn:Hpe; [|done].
        apply Hp in Hpe. lia. }
      assert (Hwl : Forall (fun e => ev_workload e = i) (evs0 ++ evs1)).
      { apply Forall_app. split.
        - eapply Forall_impl; [exact Hevs0|]. by intros e [st ->].
        - destruct Hevs1 as [->|(st & [->|(_ & st' & ->)])];
            by repeat constructor. }
      assert (Hcreate : forall j e, is_create_of j e = true -> ev_workload e = j).
      { intros j []; simpl; try done. by intros ->%Nat.eqb_eq. }
      assert (Hsetup : forall j e, is_set_up j e = true -> ev_workload e = j).
      { intros j []; simpl; try done. by intros ->%Nat.eqb_eq. }
      split.
      - intros j. destruct (IH1 j) as [IHc IHs].
        rewrite !app_assoc, !(count_app _ (evs0 ++ evs1)).
        destruct (decide (i = j)) as [<-|Hne].
        + rewrite (Hzero is_create_of Hcreate), (Hzero is_set_up Hsetup).
          rewrite !count_app.
          pose proof (count_le_length (is_create_of i) evs0).
          assert (count (is_set_up i) evs0 = 0) as ->.
          { apply count_none. eapply Forall_impl; [exact Hevs0|].
            by intros e [st ->]. }
          assert (Hc1 : count (is_create_of i) evs1 <= 1 /\
                        count (is_set_up i) evs1 <= 1).
          { destruct Hevs1 as [->|(st & [->|(_ & st' & ->)])];
              unfold count; simpl; rewrite ?Nat.eqb_refl; simpl; lia. }
          lia.
        + rewrite (count_other_workload is_create_of i j _ (Hcreate j) Hwl Hne).
          rewrite (count_other_workload is_set_up i j _ (Hsetup j) Hwl Hne).
          lia.
      - apply before_app_other.
        { eapply Forall_impl; [exact Hevs0|]. by intros e [st ->]. }
        apply before_app_marker; [|done].
        intros A e B Heq He.
        destruct Hevs1 as [->|(st & [->|(Hok & st' & ->)])].
        + by destruct A.
        + destruct A as [|? [|? ?]]; simplify_eq/=.
        + destruct A as [|? [|? [|? ?]]]; simplify_eq/=.
          by exists st, (trace s). }
    destruct Hact as [Hm Hwl|st w evs Hm Hok Hevs _|w evs op sts Hm Hevs
      |t th Hm Hth|t Hm Hfin|t th Hm Hth Hok|t th Hm Hth Hok|st Hm Hj
      |w st Hm Hok|w st summary Hm Hok]; auto; simpl;
      (split; [done|]); by repeat apply before_cons_other.
  - intros s t s' Hs HI _ [IH1 IH2] Hstep.
    apply worker_step_effect in Hstep
      as (_ & _ & _ & _ & _ & evs & -> & Hevs).
    split.
    + intros j.
      rewrite !(count_app_worker _ t (workload_index s)); try done;
        by intros [].
    + apply before_app_other; [|done].
      eapply Forall_impl; [exact Hevs|]. by intros [] [_ ?].
Qed.

(** X9: provisioning a workload costs at most [num_threads_ + 1] calls of
    [CreateMetadataStore] and at most one call of [SetUp]; [SetUp] is called
    directly after the creation of its client handle has succeeded, which
    is the first thing that happens for the workload. *)
Theorem provisioning_calls_bounded s :
  reachable s -> 0 < N ->
  (forall j, count (is_create_of j) (trace s) <= N + 1 /\
             count (is_set_up j) (trace s) <= 1) /\
  forall A j st B,
    trace s = A ++ EvSetUp j st :: B ->
    exists st' B',
      B = EvCreateStore j st' :: B' /\ ok st' = true /\
      Forall (fun e => (ev_workload e < j)%nat) B'.
Proof.
  intros Hs HN. destruct (reachable_provisioning s Hs HN) as [Hcount Hbefore].
  split; [done|]. intros A j st B Heq. by apply (Hbefore A _ B Heq).
Qed.

End Effort.

(** ** Termination *)

Lemma sum_nat_update f g n t :
  (t < n)%nat -> (forall t', t' <> t -> g t' = f t') ->
  (sum_nat g n + f t = sum_nat f n + g t)%nat.
Proof.
  intros Ht Hfg. induction n as [|n IH]; [lia|]. simpl.
  destruct (decide (t = n)) as [->|Hne].
  - assert (Heq : sum_nat g n = sum_nat f n); [|lia].
    clear IH. assert (Hn : forall m, (m <= n)%nat -> sum_nat g m = sum_nat f m);
      [|by apply Hn].
    induction m as [|m IHm]; [done|]. intros Hm. simpl.
    rewrite IHm, Hfg by lia. done.
  - rewrite (Hfg n) by done. assert (t < n)%nat by lia. lia.
Qed.

Section Termination.
Context `{Collaborators}.
Variable runner : ThreadRunner.
Variable benchmark : Benchmark.
Variable budget : World -> nat.
Hypothesis bounded :
  forall workload, workload ∈ benchmark -> aborts_bounded workload budget.

Local Abbreviation step := (step runner benchmark).
Local Abbreviation main_step := (main_step runner benchmark).
Local Abbreviation worker_step := (worker_step benchmark).
Local Abbreviation exec := (exec runner benchmark).
Local Abbreviation reachable := (reachable runner benchmark).
Local Abbreviation Inv := (Inv runner benchmark).
Local Abbreviation after := (after runner benchmark).
Local Abbreviation goes_down := (goes_down runner benchmark budget).
Local Abbreviation main_rank := (main_rank runner).
Local Abbreviation N := (num_threads_ runner).

(** Every action of a worker uses up one of the actions it has left, or
    some of the budget of ABORTED answers. *)
Lemma thread_step_measure workload i t k curr_store w done th w' done' th' evs :
  aborts_bounded workload budget ->
  thread_step workload i t k curr_store w done th = Some (w', done', th', evs) ->
  (worker_measure t k th' + budget w' < worker_measure t k th + budget w)%nat.
Proof.
  intros Hab. unfold thread_step, worker_measure.
  destruct (pc th) eqn:Hpc; try done;
    try (intros [= <- <- <- <-]; simpl; rewrite ?Hpc; lia).
  destruct (Z.ltb_spec (work_items_index th) (k * Z.of_nat t + k)) as [Hlt|Hge].
  - specialize (Hab (work_items_index th) curr_store w).
    destruct (RunOp workload (work_items_index th) curr_store w)
      as [[w1 st] op].
    destruct Hab as [Hle Hless].
    destruct (ok st) eqn:Hok; simpl.
    + intros [= <- <- <- <-]. simpl. lia.
    + destruct (not_aborted st) eqn:Hna; simpl; intros [= <- <- <- <-]; simpl.
      * lia.
      * rewrite Hpc. apply not_aborted_code in Hna. specialize (Hless Hna). lia.
  - intros [= <- <- <- <-]. simpl. lia.
Qed.

Lemma step_goes_down tid s s' :
  Inv s -> step tid s = Some s' -> goes_down s' s.
Proof.
  intros HI Hstep. unfold goes_down.
  destruct tid as [|t]; simpl in Hstep.
  - apply main_step_action in Hstep.
    destruct HI as [_ _ Hmain _ _]. unfold main_inv in Hmain.
    destruct Hstep as [Hm Hwl|st w evs Hm Hok Hevs _|w evs op sts Hm Hevs
      |t th Hm Hth|t Hm Hfin|t th Hm Hth Hok|t th Hm Hth Hok|st Hm Hj
      |w st Hm Hok|w st summary Hm Hok]; rewrite Hm in Hmain; simpl;
      rewrite ?Hm; unfold main_rank; simpl;
      try (right; split; [done|left; lia]).
    destruct Hmain as [(_ & _ & _ & workload & Hwl & _) _].
    apply lookup_lt_Some in Hwl. left. lia.
  - apply worker_step_shape in Hstep
      as (workload & th & w' & done' & th' & evs & Hwl & Hth & Hstep & ->).
    simpl. right. split; [done|]. right. split; [done|].
    unfold workers_measure. simpl. rewrite length_insert.
    pose proof (lookup_lt_Some _ _ _ Hth) as Hlt.
    pose proof (thread_step_measure _ _ _ _ _ _ _ _ _ _ _ _
                  (bounded _ (list_elem_of_lookup_2 _ _ _ Hwl)) Hstep) as Hless.
    set (f := fun t0 => match threads s !! t0 with
                        | Some th0 => worker_measure t0 (op_per_thread s) th0
                        | None => 0%nat
                        end).
    set (g := fun t0 => match <[t := th']> (threads s) !! t0 with
                        | Some th0 => worker_measure t0 (op_per_thread s) th0
                        | None => 0%nat
                        end).
    assert (Hsum : (sum_nat g (length (threads s)) + f t
                    = sum_nat f (length (threads s)) + g t)%nat).
    { apply sum_nat_update; [done|]. intros t' Hne. unfold f, g.
      by rewrite list_lookup_insert_ne. }
    assert (Hf : f t = worker_measure t (op_per_thread s) th).
    { unfold f. by rewrite Hth. }
    assert (Hg : g t = worker_measure t (op_per_thread s) th').
    { unfold g. by rewrite list_lookup_insert_eq. }
    lia.
Qed.

(** Induction along the order in which the actions go down. *)
Lemma goes_down_induction (P : State -> Prop) :
  (forall s, reachable s ->
             (forall s', reachable s' -> goes_down s' s -> P s') -> P s) ->
  forall s, reachable s -> P s.
Proof.
  intros Hind s.
  remember (length benchmark - workload_index s)%nat as a eqn:Ha.
  revert s Ha. induction a as [a IHa] using lt_wf_ind.
  intros s. remember (main_rank (main s)) as b eqn:Hb.
  revert s Hb. induction b as [b IHb] using lt_wf_ind.
  intros s. remember (workers_measure budget s) as c eqn:Hc.
  revert s Hc. induction c as [c IHc] using lt_wf_ind.
  intros s -> -> -> Hs. apply Hind; [done|].
  intros s' Hs' [Hlt|[Heq [Hlt|[Heq' Hlt]]]].
  - by eapply IHa.
  - eapply IHb; [exact Hlt|done|done|done].
  - eapply IHc; [exact Hlt|done|done|done|done].
Qed.

Lemma step_summaries_length tid s s' :
  step tid s = Some s' -> length (summaries s') = length (summaries s).
Proof.
  intros [[-> _]|(_ & _ & bytes & micros & ->)]%step_summaries; [done|].
  by rewrite length_insert.
Qed.

(** X10: when no workload of the benchmark can have [RunOp] answer ABORTED
    for ever, every run of the engine is finite: from any reachable state
    there is no infinite sequence of actions, whatever the schedule. *)
Theorem Run_terminates s : reachable s -> Acc after s.
Proof.
  revert s. apply goes_down_induction. intros s Hs IH.
  constructor. intros s' [tid Hstep]. apply IH.
  - by eapply reachable_step.
  - eapply step_goes_down; [|exact Hstep]. by apply reachable_Inv.
Qed.

(** X11: under the same condition, with a positive [num_threads_] and a
    report that has an entry for every workload, [Run] returns: every
    reachable state has a schedule that leads to the return of [Run]. *)
Theorem Run_returns_eventually s :
  reachable s -> 0 < N ->
  (length benchmark <= length (summaries s))%nat ->
  exists sched s' st, exec sched s = Some s' /\ main s' = Done st.
Proof.
  intros Hs HN. revert s Hs. apply (goes_down_induction (fun s =>
    (length benchmark <= length (summaries s))%nat ->
    exists sched s' st, exec sched s = Some s' /\ main s' = Done st)).
  intros s Hs IH Hlen.
  assert (Hdec : (exists st, main s = Done st) \/ forall st, main s <> Done st).
  { destruct (main s); eauto; right; congruence. }
  destruct Hdec as [[st Hm]|Hrun].
  - by exists [], s, st.
  - pose proof (reachable_Inv _ _ _ Hs) as HI.
    destruct (some_thread_can_act _ _ _ HI (reachable_Run_inv _ _ _ Hs)
                HN Hlen Hrun) as (tid & s1 & Hstep).
    destruct (IH s1) as (sched & s' & st & Hexec & Hm).
    + by eapply reachable_step.
    + by eapply step_goes_down.
    + by rewrite (step_summaries_length _ _ _ Hstep).
    + exists (tid :: sched), s', st. simpl. by rewrite Hstep.
Qed.

End Termination.

(** ** Progress values *)

Lemma sumZ_at t0 a n :
  sumZ (fun t => if (t0 =? t)%nat then a else 0) n
  = if (t0 <? n)%nat then a else 0.
Proof.
  induction n as [|n IH]; [done|]. simpl. rewrite IH.
  destruct (Nat.ltb_spec t0 n), (Nat.eqb_spec t0 n),
    (Nat.ltb_spec t0 (S n)); lia.
Qed.

Lemma count_elem_pos (p : Event -> bool) e l :
  p e = true -> e ∈ l -> 1 <= count p l.
Proof.
  intros Hp Hin. induction l as [|e' l IH]; [by apply elem_of_nil in Hin|].
  rewrite count_cons. pose proof (count_nonneg p l).
  apply elem_of_cons in Hin as [<-|Hin].
  - rewrite Hp. lia.
  - specialize (IH Hin). destruct (p e'); lia.
Qed.

Section Progress.
Context `{Collaborators}.
Variable runner : ThreadRunner.
Variable benchmark : Benchmark.

Local Abbreviation step := (step runner benchmark).
Local Abbreviation main_step := (main_step runner benchmark).
Local Abbreviation worker_step := (worker_step benchmark).
Local Abbreviation reachable := (reachable runner benchmark).
Local Abbreviation Inv := (Inv runner benchmark).
Local Abbreviation progress_inv := (progress_inv runner).
Local Abbreviation N := (num_threads_ runner).

(** The counter and the values read from it are never negative. *)
Lemma reachable_counter_nonneg s :
  reachable s -> counter_inv (fun a _ => 0 <= a) s.
Proof.
  induction 1 as [|s tid s' Hs IH Hstep]; [apply counter_inv_initial|].
  eapply (counter_inv_step _ _ (fun a _ => 0 <= a));
    [simpl; lia|done|left; simpl; lia| |exact IH|exact Hstep].
  by eapply reachable_Inv.
Qed.

(** A worker that has an operation in hand has operations of its own. *)
Lemma thread_inv_in_hand i t k th log :
  thread_inv i t k th log -> unrecorded th = 1 -> 0 < k.
Proof.
  unfold thread_inv, unrecorded.
  destruct (pc th); try done; intros Hinv _.
  - destruct Hinv as (_ & Hlt & l & st & _ & _ & Hl).
    pose proof (loop_log_cursor _ _ _ _ _ _ Hl). lia.
  - destruct Hinv as (_ & Hlt & l & st & _ & _ & Hl).
    pose proof (loop_log_cursor _ _ _ _ _ _ Hl). lia.
  - destruct Hinv as (_ & Hlt & l & st & v & _ & _ & Hl).
    pose proof (loop_log_cursor _ _ _ _ _ _ Hl). lia.
Qed.

(** The writes to the counter are at most [N] times the share of a worker,
    less one for a worker whose operation in hand is not yet counted. *)
Lemma increments_bound s t th :
  Inv s -> threads s !! t = Some th -> 0 <= op_per_thread s ->
  increments (workload_index s) (trace s)
  <= N * op_per_thread s - uncounted th.
Proof.
  intros [Hpool Hths _ _ Hown] Hth Hk.
  destruct Hpool as [Hnil|(HN & Hlen & _)]; [by rewrite Hnil in Hth|].
  set (i := workload_index s) in *. set (k := op_per_thread s) in *.
  unfold increments.
  rewrite (count_by_thread is_increment i (length (threads s)))
    by (done || by intros []).
  transitivity (sumZ (fun t' => k + (if (t =? t')%nat then - uncounted th else 0))
                  (length (threads s))).
  - apply sumZ_le. intros t' Hlt.
    destruct (lookup_lt_is_Some_2 _ _ Hlt) as [th' Hth'].
    pose proof (Hths _ _ Hth') as Hinv. fold i k in Hinv.
    assert (Hle : count is_increment (thread_log i t' (trace s))
                  <= k - uncounted th').
    { destruct (started th') eqn:Hst.
      - destruct (thread_inv_facts _ _ _ _ _ Hk Hinv Hst)
          as [Hc _ _ Hinc _ _ _ _]. lia.
      - destruct (thread_inv_idle _ _ _ _ _ Hinv Hst) as [-> _].
        unfold uncounted, started in *. destruct (pc th'); try done;
          unfold count; simpl; lia. }
    destruct (Nat.eqb_spec t t') as [<-|Hne].
    + rewrite Hth in Hth'. injection Hth' as <-. lia.
    + unfold uncounted in Hle. destruct (pc th'); lia.
  - rewrite sumZ_add, sumZ_const, sumZ_at, Hlen.
    apply lookup_lt_Some in Hth. rewrite Hlen in Hth.
    destruct (Nat.ltb_spec t (Z.to_nat N)); lia.
Qed.


Lemma progress_in_range_other i hi e :
  is_update e = false -> is_increment e = false -> progress_in_range i hi e.
Proof. by destruct e. Qed.

Lemma progress_in_range_older i hi tr :
  Forall (fun e => (ev_workload e < i)%nat) tr ->
  Forall (progress_in_range i hi) tr.
Proof.
  intros Htr. eapply Forall_impl; [exact Htr|]. simpl.
  intros e Hlt Hi. lia.
Qed.

Lemma reachable_progress s : reachable s -> progress_inv s.
Proof.
  revert s. apply reachable_step_induction.
  - by intros w report Hne.
  - intros s s' Hs HI _ IH Hstep. apply main_step_action in Hstep.
    destruct HI as [_ _ Hmain _ _]. unfold main_inv in Hmain.
    unfold progress_inv in *.
    destruct Hstep as [Hm Hwl|st w evs Hm Hok Hevs _|w evs op sts Hm Hevs
      |t th Hm Hth|t Hm Hfin|t th Hm Hth Hok|t th Hm Hth Hok|st Hm Hj
      |w st Hm Hok|w st summary Hm Hok]; simpl; try done;
      rewrite Hm in Hmain.
    + destruct Hmain as [Hnil _]. by intros.
    + destruct Hmain as [_ Hold]. intros _.
      rewrite (increments_fresh _ _ _ Hevs Hold). split; [lia|].
      apply Forall_app. split; [|by apply progress_in_range_older].
      eapply Forall_impl; [exact Hevs|]. simpl. intros e He.
      apply progress_in_range_other; by destruct e.
    + intros Hne%insert_nonempty. destruct (IH Hne) as [IH1 IH2].
      rewrite increments_cons. simpl. rewrite andb_false_r. simpl.
      split; [done|]. by constructor.
    + intros Hne. destruct (IH Hne) as [IH1 IH2].
      rewrite increments_cons. simpl. rewrite andb_false_r. simpl.
      split; [done|]. by constructor.
  - intros s t s' Hs HI _ IH Hstep.
    apply worker_step_shape in Hstep
      as (workload & th & w' & done' & th' & evs & Hwl & Hth & Hstep & ->).
    assert (Hne : threads s <> []) by (intros Hnil; by rewrite Hnil in Hth).
    destruct (IH Hne) as [IH1 IH2].
    destruct (reachable_counter _ _ _ Hs Hne) as [Hle Hloaded].
    destruct (reachable_counter_nonneg _ Hs Hne) as [Hpos Hloaded_pos].
    pose proof HI as [_ Hths _ _ _]. specialize (Hths _ _ Hth).
    unfold progress_inv. simpl. intros _.
    unfold thread_step in Hstep.
    destruct (pc th) eqn:Hpc; try done.
    + (* Queued *)
      injection Hstep as <- <- <- <-. simpl.
      rewrite increments_cons. simpl. rewrite andb_false_r. simpl.
      split; [done|]. by constructor.
    + (* AtLoop *)
      destruct (work_items_index th <? _).
      * destruct (RunOp workload _ _ _) as [[w1 st] op1].
        destruct (negb (ok st) && not_aborted st);
          [|destruct (negb (ok st))]; injection Hstep as <- <- <- <-; simpl;
          rewrite increments_cons; simpl; rewrite andb_false_r; simpl;
          (split; [done|]); by constructor.
      * by injection Hstep as <- <- <- <-.
    + (* AtLoad *)
      by injection Hstep as <- <- <- <-.
    + (* AtStore *)
      injection Hstep as <- <- <- <-. simpl.
      specialize (Hloaded _ _ _ _ Hth Hpc).
      specialize (Hloaded_pos _ _ _ _ Hth Hpc). simpl in Hloaded_pos.
      assert (Hk : 0 < op_per_thread s).
      { eapply thread_inv_in_hand; [exact Hths|].
        unfold unrecorded. by rewrite Hpc. }
      pose proof (increments_bound _ _ _ HI Hth (Z.lt_le_incl _ _ Hk))
        as Hbound.
      unfold uncounted in Hbound. rewrite Hpc in Hbound.
      split; [lia|]. constructor; [|done]. intros _. lia.
    + (* AtUpdate *)
      injection Hstep as <- <- <- <-. simpl.
      rewrite increments_cons. simpl. rewrite andb_false_r. simpl.
      split; [done|]. constructor; [|done]. intros _.
      assert (Hk : 0 < op_per_thread s).
      { eapply thread_inv_in_hand; [exact Hths|].
        unfold unrecorded. by rewrite Hpc. }
      pose proof (increments_bound _ _ _ HI Hth (Z.lt_le_incl _ _ Hk))
        as Hbound.
      unfold uncounted in Hbound. rewrite Hpc in Hbound.
      assert (Hone : 1 <= increments (workload_index s) (trace s)).
      { unfold thread_inv in Hths. rewrite Hpc in Hths.
        destruct Hths as (_ & _ & l & st & v & Hlog & _).
        apply (count_elem_pos _ (EvIncrement (workload_index s) t v)).
        - simpl. by rewrite Nat.eqb_refl.
        - eapply elem_of_thread_log. rewrite Hlog. by left. }
      specialize (IH1 Hone). lia.
    + (* Returned *)
      by injection Hstep as <- <- <- <-.
    + (* AtStop *)
      injection Hstep as <- <- <- <-. simpl.
      rewrite increments_cons. simpl. rewrite andb_false_r. simpl.
      split; [done|]. by constructor.
Qed.

(** X12: the value of [approx_total_done] is never negative, and every
    progress value a worker writes to it or passes to [Update] lies
    between 1 and [N*(T/N)], the number of operations the workload runs:
    increments may be lost, but the progress reported never exceeds the
    total and is never 0. *)
Theorem progress_values_in_range s workload :
  reachable s ->
  benchmark !! workload_index s = Some workload ->
  threads s <> [] ->
  let i := workload_index s in
  let k := Z.quot (num_operations workload) N in
  0 <= approx_total_done s /\
  (forall t d, EvUpdate i t d ∈ trace s -> 1 <= d <= N * k) /\
  (forall t v, EvIncrement i t v ∈ trace s -> 1 <= v <= N * k).
Proof.
  intros Hs Hwl Hne i k.
  pose proof (reachable_Inv _ _ _ Hs) as HI.
  destruct (pool_facts _ _ _ _ HI Hne Hwl) as (_ & _ & Hop). fold k in Hop.
  destruct (reachable_counter_nonneg _ Hs Hne) as [Hpos _].
  destruct (reachable_progress _ Hs Hne) as [_ Hall].
  rewrite Hop in Hall. fold i in Hall.
  split; [done|]. split.
  - intros t d Hin.
    by apply (proj1 (Forall_forall _ _) Hall _ Hin).
  - intros t v Hin.
    by apply (proj1 (Forall_forall _ _) Hall _ Hin).
Qed.

End Progress.

Section Overflow.
Context `{Collaborators}.
Variable runner : ThreadRunner.
Variable benchmark : Benchmark.

Local Abbreviation reachable := (reachable runner benchmark).
Local Abbreviation N := (num_threads_ runner).

(** X13: with a declared number of operations [T] between 0 and the
    largest [int64], no [int64] of the engine overflows: the start index
    [op_per_thread * t] of every worker, the bound
    [work_items_start_index + op_per_thread] of its loop, its cursor (also
    after [work_items_index++]) and the counter [approx_total_done] (also
    after [approx_total_done++]) all stay between 0 and [T]. *)
Theorem no_int64_overflow s workload :
  reachable s ->
  benchmark !! workload_index s = Some workload ->
  threads s <> [] ->
  0 <= num_operations workload < 2 ^ 63 ->
  let T := num_operations workload in
  let k := op_per_thread s in
  0 <= k /\ N * k <= T /\
  0 <= approx_total_done s <= T /\
  forall t th, threads s !! t = Some th ->
    0 <= k * Z.of_nat t /\ k * Z.of_nat t + k <= T /\
    (started th = true -> 0 <= work_items_index th <= T) /\
    (pc th = AtLoop -> work_items_index th < k * Z.of_nat t + k ->
     work_items_index th + 1 <= T) /\
    (forall op v, pc th = AtStore op v -> 0 <= v /\ v + 1 <= T).
Proof.
  intros Hs Hwl Hne HT T k.
  pose proof (reachable_Inv _ _ _ Hs) as HI.
  destruct (pool_facts _ _ _ _ HI Hne Hwl) as (HN & Hlen & Hop). fold k T in Hop.
  assert (Hk : 0 <= k) by (rewrite Hop; apply Z.quot_pos; lia).
  assert (Hmul : N * k <= T) by (rewrite Hop; apply Z.mul_quot_le; lia).
  destruct (reachable_counter _ _ _ Hs Hne) as [Hle Hloaded].
  destruct (reachable_counter_nonneg _ _ _ Hs Hne) as [Hpos Hloaded_pos].
  split; [done|]. split; [done|]. split.
  - destruct (threads s) as [|th0 ths] eqn:Hths; [done|].
    assert (Hth0 : threads s !! 0%nat = Some th0) by by rewrite Hths.
    pose proof (increments_bound _ _ _ _ _ HI Hth0 Hk) as Hbound.
    fold k in Hbound. unfold uncounted in Hbound. destruct (pc th0); lia.
  - intros t th Hth.
    pose proof (lookup_lt_Some _ _ _ Hth) as Hlt. rewrite Hlen in Hlt.
    assert (Hrange : 0 <= k * Z.of_nat t /\ k * Z.of_nat t + k <= T) by nia.
    split; [lia|]. split; [lia|]. split; [|split].
    + intros Hst. destruct HI as [_ Hths _ _ _].
      destruct (thread_inv_facts _ _ _ _ _ Hk (Hths _ _ Hth) Hst)
        as [Hc _ _ _ _ _ _ _]. fold k in Hc. lia.
    + intros _ Hc. lia.
    + intros op v Hpc. specialize (Hloaded _ _ _ _ Hth Hpc).
      specialize (Hloaded_pos _ _ _ _ Hth Hpc). simpl in Hloaded_pos.
      pose proof (increments_bound _ _ _ _ _ HI Hth Hk) as Hbound.
      fold k in Hbound. unfold uncounted in Hbound. rewrite Hpc in Hbound.
      lia.
Qed.

End Overflow.

Section FewOperations.
Context `{Collaborators}.
Variable runner : ThreadRunner.
Variable benchmark : Benchmark.

Local Abbreviation reachable := (reachable runner benchmark).
Local Abbreviation N := (num_threads_ runner).

(** X14: a workload that declares fewer operations than there are workers
    (or a negative number) runs no operation at all: the share of every
    worker is empty, [RunOp] is never called, nothing is counted, and every
    worker's status stays OK. *)
Theorem fewer_operations_than_workers s workload :
  reachable s ->
  benchmark !! workload_index s = Some workload ->
  threads s <> [] ->
  num_operations workload < N ->
  let i := workload_index s in
  op_per_thread s <= 0 /\
  (forall t index st, EvRunOp i t index st ∉ trace s) /\
  completed i (trace s) = 0 /\
  increments i (trace s) = 0 /\
  approx_total_done s = 0 /\
  forall t th, threads s !! t = Some th ->
    curr_status th = Status_OK /\
    forall st, returned th = Some st -> st = Status_OK.
Proof.
  intros Hs Hwl Hne HT i.
  pose proof (reachable_Inv _ _ _ Hs) as HI.
  destruct (pool_facts _ _ _ _ HI Hne Hwl) as (HN & Hlen & Hop).
  assert (Hk : op_per_thread s <= 0).
  { rewrite Hop.
    transitivity (Z.quot (N - 1) N); [apply Z.quot_le_mono; lia|].
    rewrite Z.quot_small by lia. done. }
  assert (Hrun : forall t index st, EvRunOp i t index st ∉ trace s).
  { intros t index st Hin.
    destruct (RunOp_in_range _ _ _ _ _ _ HI Hin) as [_ Hrange]. lia. }
  assert (Hinc : forall t v, EvIncrement i t v ∉ trace s).
  { intros t v Hin.
    destruct (reachable_progress _ _ _ Hs Hne) as [_ Hall].
    pose proof (proj1 (Forall_forall _ _) Hall _ Hin eq_refl) as Hv.
    simpl in Hv. nia. }
  assert (Hzero : increments i (trace s) = 0).
  { apply not_elem_count_zero. intros e He.
    destruct (Nat.eqb_spec (ev_workload e) i) as [Hi|]; [|done].
    destruct e; simpl in *; try done. subst. by apply Hinc in He. }
  split; [done|]. split; [done|]. split; [|split; [done|split]].
  - apply not_elem_count_zero. intros e He.
    destruct (Nat.eqb_spec (ev_workload e) i) as [Hi|]; [|done].
    destruct e; simpl in *; try done. subst. by apply Hrun in He.
  - destruct (reachable_counter _ _ _ Hs Hne) as [Hle _].
    destruct (reachable_counter_nonneg _ _ _ Hs Hne) as [Hpos _].
    fold i in Hle. lia.
  - intros t th Hth. destruct HI as [_ Hths _ _ _].
    specialize (Hths _ _ Hth). fold i in Hths.
    assert (Hexit : forall st c l,
      exit_log i t (op_per_thread s * Z.of_nat t) (op_per_thread s) st c l ->
      st = Status_OK).
    { intros st c l [(-> & _)|(_ & _ & Hc & l' & _ & Hl)]; [done|].
      pose proof (loop_log_cursor _ _ _ _ _ _ Hl). lia. }
    unfold thread_inv, returned in *.
    destruct (pc th); try (destruct Hths as [Hst1 Hst2]; by rewrite ?Hst1, ?Hst2).
    + destruct Hths as (-> & l & _ & Hl). split; [done|].
      intros st [= <-]. eauto.
    + destruct Hths as (l & _ & Hl). split; [eauto|]. intros st [= <-]. eauto.
    + destruct Hths as (l & _ & Hl). split; [eauto|]. intros st [= <-]. eauto.
Qed.

End FewOperations.

(** ** A worker running alone *)

Section SequentialFacts.
Context `{Collaborators}.
Variable workload : WorkloadBase.
Variables (i t : nat) (k : Z) (curr_store : option MetadataStore).

Lemma ExecuteWorkload_returned fuel w done th tr st :
  pc th = Returned st ->
  ExecuteWorkload fuel workload i t k curr_store w done th tr
  = Some (st, w, done, th, tr).
Proof. intros Hpc. destruct fuel; simpl; by rewrite Hpc. Qed.

Lemma ExecuteWorkload_step fuel w done th tr w' done' th' evs :
  (forall st, pc th <> Returned st) ->
  thread_step workload i t k curr_store w done th = Some (w', done', th', evs) ->
  ExecuteWorkload (S fuel) workload i t k curr_store w done th tr
  = ExecuteWorkload fuel workload i t k curr_store w' done' th' (evs ++ tr).
Proof.
  intros Hpc Hstep. simpl. rewrite Hstep.
  destruct (pc th) eqn:Hp; try done. by destruct (Hpc status).
Qed.

Lemma ExecuteWorkload_more_fuel fuel extra w done th tr r :
  ExecuteWorkload fuel workload i t k curr_store w done th tr = Some r ->
  ExecuteWorkload (fuel + extra) workload i t k curr_store w done th tr
  = Some r.
Proof.
  revert w done th tr. induction fuel as [|fuel IH]; intros w done th tr.
  - simpl. destruct (pc th) eqn:Hpc; try done. intros [= <-].
    by apply ExecuteWorkload_returned.
  - simpl.
    destruct (thread_step workload i t k curr_store w done th)
      as [[[[w1 done1] th1] evs]|] eqn:Hstep.
    + destruct (pc th) eqn:Hpc; try by apply IH. done.
    + by destruct (pc th).
Qed.

(** X15: run without interruption, the actions of a worker between the
    loop test and the return of [ExecuteWorkload] compute what the loop of
    lines 66-85 computes when read as a sequential program: a fatal status
    is returned at once with cursor, counter and statistics as they are; an
    ABORTED answer repeats the call at the same index; a success moves the
    cursor on, adds one to [approx_total_done] and passes the new value to
    [Update]; past the last index of the worker the result is
    [Status::OK()].  This holds where no [int64] of the loop overflows: the
    start index and the bound [work_items_start_index + op_per_thread] lie
    between 0 and the largest [int64], the cursor lies between them, and
    the counter can take the operations that are left; the cursor then
    ends between where it was and the bound, and the counter has grown by
    as much as the cursor.  The loop does return when [RunOp] cannot answer
    ABORTED for ever. *)
Theorem ExecuteWorkload_sequential budget fuel w done th tr :
  aborts_bounded workload budget ->
  pc th = AtLoop ->
  0 <= k -> 0 <= k * Z.of_nat t -> k * Z.of_nat t + k < 2 ^ 63 ->
  k * Z.of_nat t <= work_items_index th <= k * Z.of_nat t + k ->
  0 <= done ->
  done + (k * Z.of_nat t + k - work_items_index th) < 2 ^ 63 ->
  (Z.to_nat (k * Z.of_nat t + k - work_items_index th) + budget w <= fuel)%nat ->
  exists st w' done' c' stats' tr',
    ExecuteWorkload_loop fuel workload i t (k * Z.of_nat t) k curr_store
      w done (work_items_index th) (curr_thread_stats th) tr
    = Some (st, w', done', c', stats', tr') /\
    ExecuteWorkload (4 * fuel + 1) workload i t k curr_store w done th tr
    = Some (st, w', done',
            {| pc := Returned st; work_items_index := c';
               curr_thread_stats := stats';
               curr_status := curr_status th |}, tr') /\
    work_items_index th <= c' <= k * Z.of_nat t + k /\
    done' = done + (c' - work_items_index th) /\
    0 <= done' < 2 ^ 63.
Proof.
  intros Hbound Hpc Hk Hstart Hend Hc Hdone Hsum Hfuel.
  revert w done th tr Hpc Hc Hdone Hsum Hfuel.
  induction fuel as [|fuel IH]; intros w done th tr Hpc Hc Hdone Hsum Hfuel.
  - (* no call left: the cursor is past the last index *)
    simpl ExecuteWorkload_loop.
    destruct (Z.ltb_spec (work_items_index th) (k * Z.of_nat t + k)) as [|Hge];
      [lia|].
    eexists _, _, _, _, _, _. split; [done|]. split; [|lia].
    change (4 * 0 + 1)%nat with 1%nat.
    rewrite (ExecuteWorkload_step _ _ _ _ _ w done
               (set_pc (Returned Status_OK) th) []); [|congruence|].
    + by apply ExecuteWorkload_returned.
    + unfold thread_step. rewrite Hpc.
      by destruct (Z.ltb_spec (work_items_index th) (k * Z.of_nat t + k));
        [lia|].
  - simpl ExecuteWorkload_loop.
    destruct (Z.ltb_spec (work_items_index th) (k * Z.of_nat t + k)) as [Hlt|Hge].
    + pose proof (Hbound (work_items_index th) curr_store w) as Hb.
      destruct (RunOp workload (work_items_index th) curr_store w)
        as [[w1 status] op_stats] eqn:Hrun.
      destruct Hb as [Hle Hless].
      assert (Hstep : thread_step workload i t k curr_store w done th
        = if negb (ok status) && not_aborted status
          then Some (w1, done, set_pc (Returned status) th,
                     [EvRunOp i t (work_items_index th) status])
          else if negb (ok status)
          then Some (w1, done, th, [EvRunOp i t (work_items_index th) status])
          else Some (w1, done,
                     {| pc := AtLoad op_stats;
                        work_items_index := work_items_index th + 1;
                        curr_thread_stats := curr_thread_stats th;
                        curr_status := curr_status th |},
                     [EvRunOp i t (work_items_index th) status])).
      { unfold thread_step. rewrite Hpc.
        destruct (Z.ltb_spec (work_items_index th) (k * Z.of_nat t + k));
          [|lia].
        by rewrite Hrun. }
      assert (Hloop : forall st, pc th <> Returned st) by (by rewrite Hpc).
      replace (4 * S fuel + 1)%nat with (S (S (S (S (4 * fuel + 1))))) by lia.
      destruct (ok status) eqn:Hok; simpl in Hstep; cbn [negb andb].
      * (* success *)
        destruct (IH w1 (done + 1)
                    {| pc := AtLoop;
                       work_items_index := work_items_index th + 1;
                       curr_thread_stats :=
                         Update op_stats (done + 1) (curr_thread_stats th);
                       curr_status := curr_status th |}
                    (EvUpdate i t (done + 1) :: EvIncrement i t (done + 1)
                     :: EvRunOp i t (work_items_index th) status :: tr))
          as (st & w' & done' & c' & stats' & tr' & Hspec & Hexec & Hc'
              & Hdone' & Hrange);
          [done|simpl; lia|lia|simpl; lia|simpl; lia|].
        simpl in Hc', Hdone'.
        exists st, w', done', c', stats', tr'. split; [exact Hspec|].
        split; [|lia].
        rewrite (ExecuteWorkload_step _ _ _ _ _ _ _ _ _ Hloop Hstep).
        rewrite (ExecuteWorkload_step _ w1 done _ _ w1 done
                   {| pc := AtStore op_stats done;
                      work_items_index := work_items_index th + 1;
                      curr_thread_stats := curr_thread_stats th;
                      curr_status := curr_status th |} []); [|done|done].
        rewrite (ExecuteWorkload_step _ w1 done _ _ w1 (done + 1)
                   {| pc := AtUpdate op_stats;
                      work_items_index := work_items_index th + 1;
                      curr_thread_stats := curr_thread_stats th;
                      curr_status := curr_status th |}
                   [EvIncrement i t (done + 1)]); [|done|done].
        rewrite (ExecuteWorkload_step _ w1 (done + 1) _ _ w1 (done + 1)
                   {| pc := AtLoop;
                      work_items_index := work_items_index th + 1;
                      curr_thread_stats :=
                        Update op_stats (done + 1) (curr_thread_stats th);
                      curr_status := curr_status th |}
                   [EvUpdate i t (done + 1)]); [|done|done].
        exact Hexec.
      * destruct (not_aborted status) eqn:Hab; simpl in Hstep; cbn [negb andb].
        -- (* a fatal status *)
           eexists _, _, _, _, _, _. split; [done|]. split; [|lia].
           rewrite (ExecuteWorkload_step _ _ _ _ _ _ _ _ _
                      Hloop Hstep).
           by apply ExecuteWorkload_returned.
        -- (* ABORTED: the call is repeated *)
           apply not_aborted_code in Hab. specialize (Hless Hab).
           destruct (IH w1 done th
                       (EvRunOp i t (work_items_index th) status :: tr) Hpc)
             as (st & w' & done' & c' & stats' & tr' & Hspec & Hexec & Hrest);
             [done|done|done|lia|].
           exists st, w', done', c', stats', tr'. split; [done|].
           split; [|done].
           rewrite (ExecuteWorkload_step _ _ _ _ _ _ _ _ _
                      Hloop Hstep).
           replace (S (S (S (4 * fuel + 1)))) with (4 * fuel + 1 + 3)%nat
             by lia.
           by apply ExecuteWorkload_more_fuel.
    + eexists _, _, _, _, _, _. split; [done|]. split; [|lia].
      replace (4 * S fuel + 1)%nat with (S (4 * S fuel)) by lia.
      rewrite (ExecuteWorkload_step _ _ _ _ _ w done
                 (set_pc (Returned Status_OK) th) []); [|congruence|].
      * by apply ExecuteWorkload_returned.
      * unfold thread_step. rewrite Hpc.
        by destruct (Z.ltb_spec (work_items_index th) (k * Z.of_nat t + k));
          [lia|].
Qed.

End SequentialFacts.

(** ** Merging in groups *)

Section MergeGroups.
Context `{Collaborators}.
Hypothesis Merge_assoc : forall a b c, Merge (Merge a b) c = Merge a (Merge b c).

Lemma fold_Merge_assoc l a b :
  Merge a (fold_left Merge l b) = fold_left Merge l (Merge a b).
Proof.
  revert b. induction l as [|x l IH]; intros b; simpl; [done|].
  by rewrite IH, Merge_assoc.
Qed.

(** X16: when [Merge] is associative, merging the statistics of all
    workers is merging the merged statistics of the first workers with the
    merged statistics of the remaining ones, wherever the array is cut in
    two non-empty parts; and the summary written is the report of that. *)
Theorem MergeThreadStats_in_groups (l1 l2 : list ThreadStats) m1 m2 :
  MergeThreadStats l1 = Some m1 -> MergeThreadStats l2 = Some m2 ->
  MergeThreadStats (l1 ++ l2) = Some (Merge m1 m2) /\
  forall workload_name workload_summary,
    MergeThreadStatsAndReport workload_name (l1 ++ l2) workload_summary
    = MergeThreadStatsAndReport workload_name [Merge m1 m2] workload_summary.
Proof.
  intros H1 H2.
  assert (Hmerge : MergeThreadStats (l1 ++ l2) = Some (Merge m1 m2)).
  { destruct l1 as [|a r1]; [done|]. destruct l2 as [|b r2]; [done|].
    simpl in *. injection H1 as <-. injection H2 as <-.
    rewrite fold_left_app. simpl. by rewrite fold_Merge_assoc. }
  split; [done|]. intros name summary.
  unfold MergeThreadStatsAndReport. by rewrite Hmerge.
Qed.

End MergeGroups.

(** ** The engine on the scripted instance *)

Lemma scripted_reachable n bench sched w report s :
  exec (Scripted.runner n) bench sched (initial w report) = Some s ->
  reachable (Scripted.runner n) bench s.
Proof. apply exec_reachable. constructor. Qed.

(** Ten operations on three workers that run one after the other: each
    worker runs three indices of its own, index 9 is never run, and the
    counter ends at 9. *)
Example ten_operations_three_workers :
  let s := Scripted.run 3 (Scripted.one_workload 10)
             (replicate 7 MainThread ++ replicate 16 (Worker 0)
              ++ replicate 16 (Worker 1) ++ replicate 16 (Worker 2)
              ++ [MainThread])
             Scripted.all_succeed [Scripted.empty_summary] in
  main s = AtTearDown /\
  succeeded 0 0 (trace s) = [0; 1; 2] /\
  succeeded 0 1 (trace s) = [3; 4; 5] /\
  succeeded 0 2 (trace s) = [6; 7; 8] /\
  completed 0 (trace s) = 9 /\ approx_total_done s = 9.
Proof. by vm_compute. Qed.

(** One operation that is answered ABORTED twice before it succeeds: index
    0 is passed to [RunOp] three times and recorded once. *)
Example aborted_twice_then_done :
  let s := Scripted.run 1 (Scripted.one_workload 1)
             (replicate 3 MainThread ++ replicate 10 (Worker 0)
              ++ [MainThread])
             Scripted.aborts_twice [Scripted.empty_summary] in
  main s = AtTearDown /\
  attempted 0 0 (trace s)
  = [(0, Scripted.error ABORTED); (0, Scripted.error ABORTED);
     (0, Status_OK)] /\
  succeeded 0 0 (trace s) = [0] /\ updates 0 0 (trace s) = 1 /\
  approx_total_done s = 1.
Proof. by vm_compute. Qed.

(** C1 fails on the code: the first call of [RunOp] returns the fatal
    status INTERNAL, the main thread has checked the status slot of the
    worker before the worker stored it there, and no check follows the
    join: [Run] returns OK, the summary of the workload is written, and the
    next workload is set up and run. *)
Lemma fatal_status_missed :
  Run_returns (Scripted.runner 1) Scripted.two_workloads
    Scripted.check_then_run Scripted.fails_first
    [Scripted.empty_summary; Scripted.empty_summary]
    Status_OK Scripted.missed_state /\
  EvRunOp 0 0 0 (Scripted.error INTERNAL) ∈ trace Scripted.missed_state /\
  summaries Scripted.missed_state
  = [Scripted.summary 0 0; Scripted.summary 8 1] /\
  EvSetUp 1 Status_OK ∈ trace Scripted.missed_state /\
  EvRunOp 1 0 0 Status_OK ∈ trace Scripted.missed_state.
Proof.
  vm_compute. repeat split; repeat constructor.
Qed.

(** C6 fails on the code: the worker has stored its fatal status before the
    main thread checks the slot, and [Run] returns it from inside the
    scheduling loop.  [SetUp] had succeeded and the worker was scheduled,
    yet [TearDown] is never called. *)
Lemma TearDown_skipped_after_fatal :
  Run_returns (Scripted.runner 1) Scripted.two_workloads
    Scripted.run_then_check Scripted.fails_first
    [Scripted.empty_summary; Scripted.empty_summary]
    (Scripted.error INTERNAL) Scripted.seen_state /\
  EvSetUp 0 Status_OK ∈ trace Scripted.seen_state /\
  EvSchedule 0 0 ∈ trace Scripted.seen_state /\
  EvStop 0 0 ∈ trace Scripted.seen_state /\
  count (is_tear_down 0) (trace Scripted.seen_state) = 0.
Proof.
  vm_compute. repeat split; repeat constructor.
Qed.

(** C8 fails on the code: two workers complete one operation each, both
    read [approx_total_done] (0) before either writes it, and both write 1.
    The workload finishes without a fatal status, two operations are
    completed, [N*(T/N)] is 2, and the counter is 1. *)
Lemma progress_counter_loses_increments :
  exec (Scripted.runner 2) (Scripted.one_workload 2) Scripted.in_turn
    (initial Scripted.all_succeed [Scripted.empty_summary])
  = Some Scripted.raced_state /\
  main Scripted.raced_state = AtTearDown /\
  forallb (fun th => finished th && ok (curr_status th))
    (threads Scripted.raced_state) = true /\
  completed 0 (trace Scripted.raced_state) = 2 /\
  2 * Z.quot 2 2 = 2 /\
  approx_total_done Scripted.raced_state = 1.
Proof.
  vm_compute. repeat split.
Qed.

(** ** The theorems at work on the scripted instance *)

Lemma joined_state_reachable :
  reachable (Scripted.runner 2) (Scripted.one_workload 5)
    Scripted.joined_state.
Proof.
  apply (scripted_reachable 2 _ Scripted.one_by_one Scripted.all_succeed
           [Scripted.empty_summary]).
  by vm_compute.
Qed.

Lemma retry_state_reachable :
  reachable (Scripted.runner 1) (Scripted.one_workload 1)
    Scripted.retry_state.
Proof.
  apply (scripted_reachable 1 _ [MainThread; MainThread; Worker 0]
           Scripted.aborts_twice [Scripted.empty_summary]).
  by vm_compute.
Qed.


Lemma aborted_is_retried_witness :
  thread_step (Scripted.workload Status_OK Status_OK 1) 0 0 1 (Some tt)
    Scripted.aborts_twice 0 Scripted.retry_worker
  = Some (Scripted.scripts [] [Scripted.error ABORTED], 0,
          Scripted.retry_worker, [EvRunOp 0 0 0 (Scripted.error ABORTED)]).
Proof.
  destruct (aborted_is_retried (Scripted.runner 1) (Scripted.one_workload 1)
              Scripted.retry_state 0 Scripted.retry_worker
              retry_state_reachable)
    as (Hretry & _); [by vm_compute|].
  apply (Hretry (Scripted.workload Status_OK Status_OK 1) (Some tt)
           Scripted.aborts_twice 0 _ _ 8); reflexivity.
Defined.

Lemma provisioning_failure_skips_tear_down_witness :
  exists s',
    main_step (Scripted.runner 2) (Scripted.one_workload 4)
      (initial Scripted.third_store_fails [Scripted.empty_summary])
    = Some s' /\
    main s' = Done (Scripted.error UNAVAILABLE) /\
    count (is_tear_down 0) (trace s') = 0.
Proof.
  destruct (provisioning_failure_skips_tear_down (Scripted.runner 2)
              (Scripted.one_workload 4)
              (initial Scripted.third_store_fails [Scripted.empty_summary])
              (Scripted.workload Status_OK Status_OK 4)
              (Scripted.scripts [Status_OK; Scripted.error UNAVAILABLE] [])
              Status_OK
              [EvSetUp 0 Status_OK; EvCreateStore 0 Status_OK]
              Scripted.all_succeed (Scripted.error UNAVAILABLE)
              [Some tt; None]
              [EvCreateStore 0 (Scripted.error UNAVAILABLE);
               EvCreateStore 0 Status_OK;
               EvSetUp 0 Status_OK; EvCreateStore 0 Status_OK])
    as (s' & Hstep & Hmain & _ & _ & Hcount & _);
    [constructor|reflexivity|reflexivity|simpl; lia|reflexivity|reflexivity
    |reflexivity|reflexivity|].
  exists s'. repeat split; assumption.
Defined.

Lemma TearDown_after_workers_witness :
  exists s' st,
    main_step (Scripted.runner 2) (Scripted.one_workload 5)
      Scripted.joined_state = Some s' /\
    count (is_tear_down 0) (trace s') = 1 /\
    EvTearDown 0 st ∈ trace s'.
Proof.
  destruct (TearDown_after_workers (Scripted.runner 2)
              (Scripted.one_workload 5) Scripted.joined_state
              joined_state_reachable)
    as (_ & _ & _ & Hjoined & _).
  destruct (Hjoined eq_refl) as (_ & _ & _ & s' & st & Hstep & Hcount & Hin & _).
  exists s', st. repeat split; assumption.
Defined.

Lemma Merge_order_irrelevant_witness :
  MergeThreadStats
    [Scripted.stats 16 2; Scripted.stats 8 1; Scripted.stats 24 3]
  = MergeThreadStats
      [Scripted.stats 8 1; Scripted.stats 16 2; Scripted.stats 24 3].
Proof.
  apply (Merge_order_irrelevant (H := Scripted.collaborators)).
  - intros [a1 a2] [b1 b2]. simpl. f_equal; lia.
  - intros [a1 a2] [b1 b2] [c1 c2]. simpl. f_equal; lia.
  - apply perm_swap.
Defined.

Lemma progress_counter_bound_witness :
  1 <= 2 /\ 0 <= 5 /\
  approx_total_done Scripted.joined_state <= 2 * Z.quot 5 2.
Proof.
  split; [lia|]. split; [lia|].
  destruct (progress_counter_bound (Scripted.runner 2)
              (Scripted.one_workload 5) Scripted.joined_state
              (Scripted.workload Status_OK Status_OK 5)
              joined_state_reachable)
    as (_ & _ & _ & _ & Hall);
    [simpl; lia|by vm_compute|simpl; lia|by vm_compute|].
  apply Hall. vm_compute. repeat constructor.
Defined.

Lemma ExecuteWorkload_outcome_witness :
  0 <= op_per_thread Scripted.joined_state /\
  outcome 0 0 2 Status_OK Scripted.joined_worker
    (trace Scripted.joined_state) /\
  exists ups : list (@OpStats Scripted.collaborators * Z),
    ups.*2 = [1; 2] /\
    statistics_of (H := Scripted.collaborators) true ups (curr_thread_stats Scripted.joined_worker).
Proof.
  split; [by vm_compute|].
  destruct (ExecuteWorkload_outcome (Scripted.runner 2)
              (Scripted.one_workload 5) Scripted.joined_state 0
              Scripted.joined_worker joined_state_reachable)
    as (Hout & _); [by vm_compute|by vm_compute|].
  destruct (Hout Status_OK) as (Houtcome & ups & Hups & _ & Hstats);
    [by vm_compute|].
  split; [exact Houtcome|]. exists ups. split; [exact Hups|exact Hstats].
Defined.

Lemma setup_or_provisioning_failure_returns_witness :
  (exists s',
     main_step (Scripted.runner 2) (Scripted.one_workload 4)
       (initial Scripted.third_store_fails [Scripted.empty_summary])
     = Some s' /\
     main s' = Done (Scripted.error UNAVAILABLE) /\
     summaries s' = [Scripted.empty_summary] /\ threads s' = [] /\
     trace s' = [EvCreateStore 0 (Scripted.error UNAVAILABLE);
                 EvCreateStore 0 Status_OK;
                 EvSetUp 0 Status_OK; EvCreateStore 0 Status_OK]) /\
  (exists s',
     main_step (Scripted.runner 2) Scripted.set_up_fails
       (initial Scripted.all_succeed [Scripted.empty_summary]) = Some s' /\
     main s' = Done (Scripted.error UNAVAILABLE) /\
     summaries s' = [Scripted.empty_summary] /\ threads s' = [] /\
     trace s' = [EvSetUp 0 (Scripted.error UNAVAILABLE);
                 EvCreateStore 0 Status_OK]).
Proof.
  split.
  - destruct (setup_or_provisioning_failure_returns (Scripted.runner 2)
                (Scripted.one_workload 4)
                (initial Scripted.third_store_fails [Scripted.empty_summary])
                (Scripted.workload Status_OK Status_OK 4))
      as (_ & _ & Hworker);
      [constructor|reflexivity|reflexivity|simpl; lia|].
    destruct (Hworker eq_refl eq_refl 1%nat)
      as (s' & (Hstep & Hmain & _ & Hsum & Hths & _) & _ & Htrace);
      [simpl; lia|by intros [|j] Hj; [|lia]|reflexivity|].
    exists s'. repeat split; assumption.
  - destruct (setup_or_provisioning_failure_returns (Scripted.runner 2)
                Scripted.set_up_fails
                (initial Scripted.all_succeed [Scripted.empty_summary])
                (Scripted.workload (Scripted.error UNAVAILABLE) Status_OK 4))
      as (_ & Hsetup & _);
      [constructor|reflexivity|reflexivity|simpl; lia|].
    destruct (Hsetup eq_refl eq_refl)
      as (s' & (Hstep & Hmain & _ & Hsum & Hths & _) & _ & Htrace).
    exists s'. repeat split; assumption.
Defined.

Lemma joined_worker_scheduled :
  EvSchedule 0 0 ∈ trace Scripted.joined_state.
Proof. vm_compute. repeat constructor. Qed.

Lemma Start_Stop_bracket_witness :
  count is_start (thread_log 0 0 (trace Scripted.joined_state)) = 1 /\
  count is_stop (thread_log 0 0 (trace Scripted.joined_state)) = 1 /\
  bracketed 0 0 (thread_log 0 0 (trace Scripted.joined_state)) /\
  recorded (H := Scripted.collaborators) (thread_log 0 0 (trace Scripted.joined_state))
    (curr_thread_stats Scripted.joined_worker).
Proof.
  destruct (Start_Stop_bracket (Scripted.runner 2) (Scripted.one_workload 5)
              Scripted.joined_state 0 Scripted.joined_worker
              joined_state_reachable)
    as (Hrec & _ & Hstart & Hstop & _ & _ & Hjoined & _); [by vm_compute|].
  destruct (Hjoined (or_introl eq_refl)) as [Hscheduled _].
  destruct (Hscheduled joined_worker_scheduled) as [_ Hbracket].
  split; [exact Hstart|]. split; [exact Hstop|].
  split; [exact Hbracket|exact Hrec].
Defined.

(** ** The further theorems at work on the scripted instance *)

Lemma check_state_reachable :
  reachable (Scripted.runner 1) Scripted.two_workloads Scripted.check_state.
Proof.
  apply (scripted_reachable 1 _ [MainThread; MainThread] Scripted.fails_first
           [Scripted.empty_summary; Scripted.empty_summary]).
  by vm_compute.
Qed.

Lemma unwinding_state_reachable :
  reachable (Scripted.runner 1) Scripted.two_workloads
    Scripted.unwinding_state.
Proof.
  apply (scripted_reachable 1 _
           ([MainThread; MainThread] ++ replicate 4 (Worker 0) ++ [MainThread])
           Scripted.fails_first
           [Scripted.empty_summary; Scripted.empty_summary]).
  by vm_compute.
Qed.

Lemma missed_state_reachable :
  reachable (Scripted.runner 1) Scripted.two_workloads Scripted.missed_state.
Proof.
  apply (scripted_reachable 1 _ Scripted.check_then_run Scripted.fails_first
           [Scripted.empty_summary; Scripted.empty_summary]).
  by vm_compute.
Qed.

Lemma few_state_reachable :
  reachable (Scripted.runner 2) (Scripted.one_workload 1) Scripted.few_state.
Proof.
  apply (scripted_reachable 2 _
           (replicate 5 MainThread ++ replicate 4 (Worker 0)
            ++ replicate 4 (Worker 1))
           Scripted.all_succeed [Scripted.empty_summary]).
  by vm_compute.
Qed.

(** An ABORTED answer of a scripted workload uses up an entry of the
    script. *)
Lemma scripted_aborts_bounded set_up tear_down n :
  aborts_bounded (Scripted.workload set_up tear_down n) Scripted.budget.
Proof.
  intros index curr_store [creates [|st runs]]; simpl.
  - split; [done|]. by intros.
  - unfold Scripted.budget. simpl. split; [lia|]. intros _. lia.
Qed.

Lemma PrepareStoresForThreads_in_order_witness :
  0 <= 3 /\
  exists calls : nat,
    (calls <= 3)%nat /\
    Scripted.scripts [] []
    = after_creates (H := Scripted.collaborators) tt calls
        Scripted.third_store_fails.
Proof.
  split; [lia|].
  destruct (PrepareStoresForThreads_in_order (H := Scripted.collaborators)
              0 tt 3 Scripted.third_store_fails []
              (Scripted.scripts [] []) (Scripted.error UNAVAILABLE)
              [Some tt; Some tt; None]
              [EvCreateStore 0 (Scripted.error UNAVAILABLE);
               EvCreateStore 0 Status_OK; EvCreateStore 0 Status_OK])
    as (calls & Hcalls & _ & Hw & _); [lia|reflexivity|].
  exists calls. split; [exact Hcalls|exact Hw].
Defined.

Lemma provisioning_calls_bounded_witness :
  0 < 2 /\
  count (is_create_of 0) (trace Scripted.joined_state) <= 2 + 1.
Proof.
  split; [lia|].
  destruct (provisioning_calls_bounded (Scripted.runner 2)
              (Scripted.one_workload 5) Scripted.joined_state
              joined_state_reachable) as [Hcount _]; [simpl; lia|].
  by destruct (Hcount 0%nat).
Defined.

Lemma workloads_run_in_order_witness :
  processed (Scripted.runner 1) 0 (tail (trace Scripted.missed_state)).
Proof.
  destruct (workloads_run_in_order (Scripted.runner 1) Scripted.two_workloads
              Scripted.missed_state [] (EvReport 1)
              (tail (trace Scripted.missed_state)) missed_state_reachable)
    as (_ & _ & Hpast); [by vm_compute|].
  apply Hpast. simpl. lia.
Defined.

Lemma workers_scheduled_in_order_witness :
  count (is_schedule_of 0 1) (trace Scripted.joined_state) <= 1.
Proof.
  destruct (workers_scheduled_in_order (Scripted.runner 2)
              (Scripted.one_workload 5) Scripted.joined_state
              joined_state_reachable) as [Honce _].
  apply Honce.
Defined.

Lemma status_check_outcome_witness :
  main_step (Scripted.runner 1) Scripted.two_workloads Scripted.check_state
  = Some (set_main (AtSchedule 1) Scripted.check_state).
Proof.
  destruct (status_check_outcome (Scripted.runner 1) Scripted.two_workloads
              Scripted.check_state 0 Scripted.check_worker
              check_state_reachable) as [Hpass _];
    [by vm_compute|by vm_compute|].
  apply Hpass; intros Hpc; vm_compute in Hpc; discriminate.
Defined.

Lemma fatal_status_unwinds_witness :
  exists t th,
    threads Scripted.unwinding_state !! t = Some th /\
    curr_status th = Scripted.error INTERNAL /\
    last (attempted 0 t (trace Scripted.unwinding_state))
    = Some (work_items_index th, Scripted.error INTERNAL).
Proof.
  destruct (fatal_status_unwinds (Scripted.runner 1) Scripted.two_workloads
              Scripted.unwinding_state (Scripted.error INTERNAL)
              unwinding_state_reachable)
    as (t & th & Hth & Hst & _ & _ & _ & Hlast & _); [by vm_compute|].
  exists t, th. split; [exact Hth|]. split; [exact Hst|exact Hlast].
Defined.

Lemma report_written_after_tear_down_witness :
  length (summaries Scripted.missed_state) = 2%nat /\
  count (is_report 0) (trace Scripted.missed_state) = 1.
Proof.
  destruct (report_written_after_tear_down (Scripted.runner 1)
              Scripted.two_workloads Scripted.check_then_run
              Scripted.fails_first
              [Scripted.empty_summary; Scripted.empty_summary]
              Scripted.missed_state)
    as (Hlen & _ & _ & Hcount); [by vm_compute|].
  split; [exact Hlen|]. apply (Hcount 0%nat).
Defined.

Lemma Run_returns_OK_after_all_workloads_witness :
  workload_index Scripted.missed_state = 2%nat /\
  threads Scripted.missed_state = [].
Proof.
  destruct (Run_returns_OK_after_all_workloads (Scripted.runner 1)
              Scripted.two_workloads Scripted.missed_state Status_OK
              missed_state_reachable)
    as (_ & Hok & _); [by vm_compute|].
  destruct (Hok eq_refl) as (_ & Hidx & Hths). split; [exact Hidx|exact Hths].
Defined.

Lemma Run_never_deadlocks_witness :
  0 < 2 /\
  exists tid s',
    step (Scripted.runner 2) (Scripted.one_workload 5) tid
      Scripted.joined_state = Some s'.
Proof.
  split; [lia|].
  apply (Run_never_deadlocks (Scripted.runner 2) (Scripted.one_workload 5)
           Scripted.joined_state joined_state_reachable).
  - simpl. lia.
  - vm_compute. lia.
  - intros st Hm. vm_compute in Hm. discriminate.
Defined.

Lemma Run_terminates_witness :
  Acc (after (Scripted.runner 2) (Scripted.one_workload 5))
    Scripted.joined_state.
Proof.
  apply (Run_terminates (Scripted.runner 2) (Scripted.one_workload 5)
           Scripted.budget).
  - intros workload ->%list_elem_of_singleton. apply scripted_aborts_bounded.
  - exact joined_state_reachable.
Defined.

Lemma Run_returns_eventually_witness :
  0 < 2 /\
  exists sched s' st,
    exec (Scripted.runner 2) (Scripted.one_workload 5) sched
      Scripted.joined_state = Some s' /\
    main s' = Done st.
Proof.
  split; [lia|].
  apply (Run_returns_eventually (Scripted.runner 2) (Scripted.one_workload 5)
           Scripted.budget).
  - intros workload ->%list_elem_of_singleton. apply scripted_aborts_bounded.
  - exact joined_state_reachable.
  - simpl. lia.
  - vm_compute. lia.
Defined.

Lemma progress_values_in_range_witness :
  0 <= approx_total_done Scripted.joined_state /\
  EvUpdate 0 1 4 ∈ trace Scripted.joined_state /\ 1 <= 4 <= 2 * Z.quot 5 2.
Proof.
  destruct (progress_values_in_range (Scripted.runner 2)
              (Scripted.one_workload 5) Scripted.joined_state
              (Scripted.workload Status_OK Status_OK 5)
              joined_state_reachable)
    as (Hpos & Hupdate & _); [by vm_compute|by vm_compute|].
  assert (Hin : EvUpdate 0 1 4 ∈ trace Scripted.joined_state).
  { vm_compute. repeat constructor. }
  split; [exact Hpos|]. split; [exact Hin|]. exact (Hupdate 1%nat 4 Hin).
Defined.

Lemma no_int64_overflow_witness :
  0 <= 5 < 2 ^ 63 /\ 0 <= approx_total_done Scripted.joined_state <= 5.
Proof.
  split; [lia|].
  destruct (no_int64_overflow (Scripted.runner 2) (Scripted.one_workload 5)
              Scripted.joined_state (Scripted.workload Status_OK Status_OK 5)
              joined_state_reachable)
    as (_ & _ & Hdone & _); [by vm_compute|by vm_compute|simpl; lia|].
  exact Hdone.
Defined.

Lemma fewer_operations_than_workers_witness :
  1 < 2 /\
  completed 0 (trace Scripted.few_state) = 0 /\
  approx_total_done Scripted.few_state = 0.
Proof.
  split; [lia|].
  destruct (fewer_operations_than_workers (Scripted.runner 2)
              (Scripted.one_workload 1) Scripted.few_state
              (Scripted.workload Status_OK Status_OK 1) few_state_reachable)
    as (_ & _ & Hcompleted & _ & Hdone & _);
    [by vm_compute|by vm_compute|simpl; lia|].
  split; [exact Hcompleted|exact Hdone].
Defined.

Lemma MergeThreadStats_in_groups_witness :
  MergeThreadStats
    ([Scripted.stats 16 2; Scripted.stats 8 1] ++ [Scripted.stats 24 3])
  = Some (Merge (Scripted.stats 24 3) (Scripted.stats 24 3)).
Proof.
  apply (MergeThreadStats_in_groups (H := Scripted.collaborators)).
  - intros [a1 a2] [b1 b2] [c1 c2]. simpl. f_equal; lia.
  - reflexivity.
  - reflexivity.
Defined.

Lemma ExecuteWorkload_sequential_witness :
  exists st w' done' th' tr',
    ExecuteWorkload (4 * 3 + 1) (Scripted.workload Status_OK Status_OK 1)
      0 0 1 (Some tt) Scripted.aborts_twice 0 Scripted.retry_worker []
    = Some (st, w', done', th', tr') /\
    0 <= done' < 2 ^ 63.
Proof.
  destruct (ExecuteWorkload_sequential
              (Scripted.workload Status_OK Status_OK 1) 0 0 1 (Some tt)
              Scripted.budget 3 Scripted.aborts_twice 0
              Scripted.retry_worker [])
    as (st & w' & done' & c' & stats' & tr' & _ & Hexec & _ & _ & Hrange);
    [apply scripted_aborts_bounded|by vm_compute|lia|lia|by vm_compute
    |by vm_compute|lia|by vm_compute|vm_compute; lia|].
  by eexists st, w', done', _, tr'.
Defined.
